(** * videoTranscode: the transcode pipeline, the SQS dispatcher and the
      URL signing service, embedded from the JavaScript / TypeScript source.

    Layout:
    - [Js]       values thrown and returned, the trace-and-exception monad,
                 string helpers (split, path.basename, path.parse, parseInt);
    - [Regex]    the fragment of JS regular expressions the sources use,
                 matched by derivatives;
    - [Retry]    [withRetry] (transcoder) and [retryWithBackoff] (consumer);
    - [Transcoder]  src/transcoder/index.js, the HLS pipeline;
    - [TranscoderMp4]  the first revision of the same file, which writes
                 one MP4 per resolution;
    - [Consumer]    src/consumer/src/index.ts, the event dispatcher;
    - [VideoService]  src/generate-url/src/services/video.service.ts;
    - [Routes]   src/generate-url/src/routes/url.ts, and the first
                 revision of its [POST /generate];
    - [Spec]     the predicates of the specification the statements use,
                 and sample environments;
    - the properties, component by component, then further properties of
      the code: error paths, invariants and how the components fit.

    External collaborators (S3, SQS, ECS, ffmpeg, the file system, the clock,
    the CloudFront signer, JSON.parse) are oracles: records of functions that
    give the outcome of each call.  Every function of the source that calls
    one of them returns the list of calls it made together with its result. *)

From Stdlib Require Import String Ascii List ZArith Lia Bool Arith DecimalString.
Import ListNotations.
Local Open Scope string_scope.
Local Open Scope list_scope.

Set Implicit Arguments.

(** String concatenation, as [+] and template literals do it; [++] is kept
    for lists. *)
Infix "+++" := String.append (right associativity, at level 60).

(* ================================================================== *)
(** ** JavaScript prelude *)
(* ================================================================== *)

Module Js.

(** A thrown value.  The sources only throw [Error] objects, read their
    [name] and [message], and (in [withRetry] with no attempt) throw
    [undefined]. *)
Inductive exn : Type :=
| Exn (name message : string)
| ExnUndefined.

Definition Error (message : string) : exn := Exn "Error" message.
Definition TypeError (message : string) : exn := Exn "TypeError" message.

Definition exn_message (e : exn) : string :=
  match e with Exn _ m => m | ExnUndefined => "" end.

(** The settled state of a promise, or the outcome of a synchronous call. *)
Inductive result (A : Type) : Type :=
| Ok (a : A)
| Throw (e : exn).
Arguments Ok {A} a.
Arguments Throw {A} e.

(** An oracle answer [None] is a call that succeeded. *)
Definition outcome := option exn.

Definition outcome_result (o : outcome) : result unit :=
  match o with None => Ok tt | Some e => Throw e end.

Section Monad.
(** [M Ev A]: the calls made so far, and the result. *)
Variable Ev : Type.

Definition M (A : Type) : Type := (list Ev * result A)%type.

Definition ret {A} (a : A) : M A := ([], Ok a).
Definition throw {A} (e : exn) : M A := ([], Throw e).
Definition emit (ev : Ev) : M unit := ([ev], Ok tt).

Definition bind {A B} (m : M A) (f : A -> M B) : M B :=
  match m with
  | (tr, Ok a) => let '(tr', r) := f a in (tr ++ tr', r)
  | (tr, Throw e) => (tr, Throw e)
  end.

(** [try { m } catch (error) { h error }] *)
Definition try_catch {A} (m : M A) (h : exn -> M A) : M A :=
  match m with
  | (tr, Ok a) => (tr, Ok a)
  | (tr, Throw e) => let '(tr', r) := h e in (tr ++ tr', r)
  end.

(** A call to a collaborator: the call is recorded, the oracle answers. *)
Definition call (ev : Ev) (o : outcome) : M unit :=
  ([ev], outcome_result o).

(** The settled value of [Promise.all] over promises that have all been
    started: the values in order, or a rejection.  Which rejection wins
    depends on timing; the model reports the first in list order. *)
Fixpoint promise_all {A} (rs : list (result A)) : result (list A) :=
  match rs with
  | [] => Ok []
  | Ok a :: rs' =>
      match promise_all rs' with
      | Ok l => Ok (a :: l)
      | Throw e => Throw e
      end
  | Throw e :: _ => Throw e
  end.
End Monad.

Arguments ret {Ev A} a.
Arguments throw {Ev A} e.
Arguments emit {Ev} ev.
Arguments call {Ev} ev o.

Declare Scope js_scope.
Delimit Scope js_scope with js.
Notation "x <- m ;; k" := (bind m (fun x => k))
  (at level 61, m at next level, right associativity) : js_scope.
Notation "m ;;; k" := (bind m (fun _ => k))
  (at level 61, right associativity) : js_scope.

(** *** Strings *)

Definition dquote : string := String "034"%char EmptyString.
Definition newline : string := String "010"%char EmptyString.

Definition slash : ascii := "/"%char.
Definition dot : ascii := "."%char.

(** [s.split(sep)] for a one-character separator: always at least one part. *)
Fixpoint split (sep : ascii) (s : string) : list string :=
  match s with
  | EmptyString => [EmptyString]
  | String c s' =>
      if Ascii.eqb c sep then EmptyString :: split sep s'
      else match split sep s' with
           | [] => [String c EmptyString]
           | p :: ps => String c p :: ps
           end
  end.

(** [arr[arr.length - 1]]; the array is never empty where the source uses it. *)
Definition last_part (parts : list string) : string := List.last parts "".

Definition string_nonempty (s : string) : bool :=
  match s with EmptyString => false | _ => true end.

(** Every character of [s] satisfies [p]. *)
Fixpoint all_chars (p : ascii -> bool) (s : string) : bool :=
  match s with
  | EmptyString => true
  | String c s' => p c && all_chars p s'
  end.

Definition not_sep (sep c : ascii) : bool := negb (Ascii.eqb c sep).

(** [path.basename(p)] (POSIX): the last non-empty component. *)
Definition path_basename (p : string) : string :=
  List.last (List.filter string_nonempty (split slash p)) "".

(** Index of the last [c] in [s], if any. *)
Fixpoint last_index (c : ascii) (s : string) : option nat :=
  match s with
  | EmptyString => None
  | String d s' =>
      match last_index c s' with
      | Some i => Some (S i)
      | None => if Ascii.eqb d c then Some 0 else None
      end
  end.

(** [path.parse(base).name] (POSIX) for a [base] without separators, which
    is what [split('/')] yields: the text before the last dot, except that a
    name whose only dot is its first character, the name [..] and a name
    with no dot are returned whole. *)
Definition path_parse_name (base : string) : string :=
  match last_index dot base with
  | None => base
  | Some 0 => base
  | Some i => if String.eqb base ".." then base else substring 0 i base
  end.

(** A JS number as far as the sources compute with it: an integer in the
    safe range, or [NaN]. *)
Inductive number : Type :=
| Num (z : Z)
| NaN.

Definition number_mul (a b : number) : number :=
  match a, b with
  | Num x, Num y => Num (x * y)%Z
  | _, _ => NaN
  end.

(** Template-literal rendering of a number. *)
Definition number_to_string (n : number) : string :=
  match n with
  | Num z => NilZero.string_of_int (Z.to_int z)
  | NaN => "NaN"
  end.

Definition is_digit (c : ascii) : bool :=
  let n := nat_of_ascii c in (48 <=? n)%nat && (n <=? 57)%nat.

Definition digit_value (c : ascii) : Z := (Z.of_nat (nat_of_ascii c) - 48)%Z.

Definition is_space (c : ascii) : bool :=
  let n := nat_of_ascii c in
  (n =? 32)%nat || ((9 <=? n)%nat && (n <=? 13)%nat).

Fixpoint skip_spaces (s : string) : string :=
  match s with
  | String c s' => if is_space c then skip_spaces s' else s
  | EmptyString => s
  end.

(** The longest run of leading decimal digits, accumulated. *)
Fixpoint parse_digits (acc : option Z) (s : string) : option Z :=
  match s with
  | String c s' =>
      if is_digit c
      then parse_digits
             (Some (10 * match acc with Some a => a | None => 0 end
                    + digit_value c)%Z) s'
      else acc
  | EmptyString => acc
  end.

(** [parseInt(s)] on decimal input: leading white space, an optional sign,
    then the longest run of digits; [NaN] if there is none.  (The [0x]
    prefix, which selects radix 16, does not occur in the bitrates.) *)
Definition parseInt (s : string) : number :=
  let s := skip_spaces s in
  let '(sign, body) :=
    match s with
    | String "-" s' => ((-1)%Z, s')
    | String "+" s' => (1%Z, s')
    | _ => (1%Z, s)
    end in
  match parse_digits None body with
  | Some z => Num (sign * z)%Z
  | None => NaN
  end.

(** *** The environment of the process *)

(** [process.env]: a variable is a string, or is not set. *)
Definition environment := string -> option string.

(** [!process.env[name]]: not set, or set to the empty string. *)
Definition falsy (v : option string) : bool :=
  match v with
  | None | Some EmptyString => true
  | Some (String _ _) => false
  end.

End Js.

(* ================================================================== *)
(** ** Regular expressions *)
(* ================================================================== *)

Module Regex.

(** The regex constructs of the sources: character classes, literals,
    concatenation, alternation and [+]; every pattern is anchored at both
    ends and has no [m] flag, so [test] / [match] decide a full match. *)
Inductive regex : Type :=
| Void
| Eps
| Class (p : ascii -> bool)
| Cat (r1 r2 : regex)
| Alt (r1 r2 : regex)
| Star (r : regex).

Definition Plus (r : regex) : regex := Cat r (Star r).

Fixpoint nullable (r : regex) : bool :=
  match r with
  | Void => false
  | Eps => true
  | Class _ => false
  | Cat r1 r2 => nullable r1 && nullable r2
  | Alt r1 r2 => nullable r1 || nullable r2
  | Star _ => true
  end.

Fixpoint deriv (c : ascii) (r : regex) : regex :=
  match r with
  | Void => Void
  | Eps => Void
  | Class p => if p c then Eps else Void
  | Cat r1 r2 =>
      if nullable r1
      then Alt (Cat (deriv c r1) r2) (deriv c r2)
      else Cat (deriv c r1) r2
  | Alt r1 r2 => Alt (deriv c r1) (deriv c r2)
  | Star r1 => Cat (deriv c r1) (Star r1)
  end.

(** [/^r$/.test(s)] *)
Fixpoint test (r : regex) (s : string) : bool :=
  match s with
  | EmptyString => nullable r
  | String c s' => test (deriv c r) s'
  end.

(** The language of a regex. *)
Inductive Matches : regex -> string -> Prop :=
| MEps : Matches Eps ""
| MClass p c : p c = true -> Matches (Class p) (String c "")
| MCat r1 r2 s1 s2 :
    Matches r1 s1 -> Matches r2 s2 -> Matches (Cat r1 r2) (s1 +++ s2)
| MAltL r1 r2 s : Matches r1 s -> Matches (Alt r1 r2) s
| MAltR r1 r2 s : Matches r2 s -> Matches (Alt r1 r2) s
| MStar0 r : Matches (Star r) ""
| MStarS r s1 s2 :
    Matches r s1 -> Matches (Star r) s2 -> Matches (Star r) (s1 +++ s2).

(** ASCII letter case, as the [i] flag folds it (code units below 128 only
    fold among themselves when the [u] flag is absent). *)
Definition to_lower (c : ascii) : ascii :=
  let n := nat_of_ascii c in
  if (65 <=? n)%nat && (n <=? 90)%nat then ascii_of_nat (n + 32) else c.

Definition is_word (c : ascii) : bool :=
  let n := nat_of_ascii c in
  ((48 <=? n)%nat && (n <=? 57)%nat)
  || ((65 <=? n)%nat && (n <=? 90)%nat)
  || ((97 <=? n)%nat && (n <=? 122)%nat)
  || (n =? 95)%nat.

(** ASCII lower-casing of a whole string. *)
Fixpoint lower (s : string) : string :=
  match s with
  | EmptyString => EmptyString
  | String c s' => String (to_lower c) (lower s')
  end.

(** One literal character under the [i] flag. *)
Definition ichar (c : ascii) : regex :=
  Class (fun x => Ascii.eqb (to_lower x) (to_lower c)).

(** A literal string under the [i] flag. *)
Fixpoint ilit (s : string) : regex :=
  match s with
  | EmptyString => Eps
  | String c s' => Cat (ichar c) (ilit s')
  end.

End Regex.

(* ================================================================== *)
(** ** Retry with exponential backoff *)
(* ================================================================== *)

Module Retry.
Import Js.
Local Open Scope js_scope.

(** [Math.min(base * Math.pow(2, exponent), ceiling)].  The doubles involved
    are exact powers of two times [base] until they overflow to [Infinity],
    so the minimum is the integer one. *)
Definition backoff (base ceiling : Z) (exponent : nat) : Z :=
  Z.min (base * 2 ^ Z.of_nat exponent) ceiling.

Section Retry.
Variable Ev : Type.
(** [await new Promise(resolve => setTimeout(resolve, ms))] *)
Variable Sleep : Z -> Ev.
Variable A : Type.
(** [operation k]: what the [k]-th invocation of the wrapped closure does,
    counted from 1. *)
Variable operation : nat -> M Ev A.

(** transcoder/index.js, [withRetry]:
    [for (let attempt = 1; attempt <= maxRetries; attempt++)];
    [remaining] counts the iterations left. *)
Fixpoint withRetry_loop (RETRY_DELAY : Z) (maxRetries remaining attempt : nat)
    (lastError : exn) : M Ev A :=
  match remaining with
  | 0 => throw lastError
  | S remaining' =>
      try_catch (operation attempt) (fun error =>
        if (attempt =? maxRetries)%nat then throw error
        else
          let delay := backoff RETRY_DELAY 10000 (attempt - 1) in
          emit (Sleep delay) ;;;
          withRetry_loop RETRY_DELAY maxRetries remaining' (S attempt) error)
  end.

Definition withRetry (RETRY_DELAY : Z) (maxRetries : nat) : M Ev A :=
  withRetry_loop RETRY_DELAY maxRetries maxRetries 1 ExnUndefined.

(** consumer/src/index.ts, [retryWithBackoff]:
    [for (let i = 0; i < retries; i++)]. *)
Fixpoint retryWithBackoff_loop (retries remaining i : nat) : M Ev A :=
  match remaining with
  | 0 => throw (Error "Retry failed")
  | S remaining' =>
      try_catch (operation (i + 1)) (fun error =>
        if (i =? retries - 1)%nat then throw error
        else
          let delay := backoff 1000 5000 i in
          emit (Sleep delay) ;;;
          retryWithBackoff_loop retries remaining' (S i))
  end.

Definition retryWithBackoff (retries : nat) : M Ev A :=
  retryWithBackoff_loop retries retries 0.
End Retry.

End Retry.

(* ================================================================== *)
(** ** The transcode pipeline (src/transcoder/index.js, HLS version) *)
(* ================================================================== *)

Module Transcoder.
Import Js.
Local Open Scope js_scope.

Record Resolution : Type := {
  name : string;
  width : Z;
  height : Z;
  bitrate : string
}.

Definition CONFIG_MAX_RETRIES : nat := 3.
Definition CONFIG_RETRY_DELAY : Z := 1000.
Definition CONFIG_UPLOAD_CONCURRENCY : nat := 5.
Definition CONFIG_TEMP_DIR_PREFIX : string := "hls-".

Definition res_1080p : Resolution :=
  {| name := "1080p"; width := 1920; height := 1080; bitrate := "5000k" |}.
Definition res_720p : Resolution :=
  {| name := "720p"; width := 1280; height := 720; bitrate := "2800k" |}.
Definition res_480p : Resolution :=
  {| name := "480p"; width := 854; height := 480; bitrate := "1400k" |}.
Definition res_360p : Resolution :=
  {| name := "360p"; width := 640; height := 360; bitrate := "800k" |}.

Definition RESOLUTIONS : list Resolution :=
  [res_1080p; res_720p; res_480p; res_360p].

(** *** S3 path management *)

Record S3Paths : Type := {
  courseId : option string;   (* [keyParts[1]], [None] when undefined *)
  filename : string
}.

Definition generateS3Paths (originalKey : string) : S3Paths :=
  let keyParts := split slash originalKey in
  {| courseId := nth_error keyParts 1;
     filename := path_parse_name (last_part keyParts) |}.

(** How a template literal renders a possibly undefined string. *)
Definition render (x : option string) : string :=
  match x with Some s => s | None => "undefined" end.

Definition getHLSBasePath (p : S3Paths) : string :=
  render (courseId p) +++ "/hls/" +++ filename p.
Definition getMasterPlaylistKey (p : S3Paths) : string :=
  render (courseId p) +++ "/hls/" +++ filename p +++ "/master.m3u8".
Definition getVariantBasePath (p : S3Paths) (resolution : string) : string :=
  render (courseId p) +++ "/hls/" +++ filename p +++ "/" +++ resolution.
Definition getVariantPlaylistKey (p : S3Paths) (resolution : string) : string :=
  render (courseId p) +++ "/hls/" +++ filename p +++ "/" +++ resolution
  +++ "/playlist.m3u8".

(** *** Calls to the outside *)

Inductive event : Type :=
| Mkdtemp (dir : string)
| S3GetObject (bucket key : string)
| CreateWriteStream (path : string) (opened : bool)
| Stat (path : string)
| Sleep (ms : Z)
| Mkdir (path : string) (ok : bool)
| ExistsSync (path : string)
| Ffprobe (input : string)
| Ffmpeg (input outputDir : string) (resolution : Resolution)
         (written : list string)
| S3HeadObject (bucket key : string)
| Readdir (path : string)
| S3PutObject (filePath bucket key contentType : string)
| WriteFile (path content : string) (ok : bool)
| Rm (path : string) (ok : bool).

(** What one attempt of the download closure meets, when the promise it
    awaits settles (see [stalls] for the attempts where it does not). *)
Inductive download_outcome : Type :=
| GetObjectFails (e : exn)
| StreamFails (opened : bool) (e : exn)
| StatFails (e : exn)
| Downloaded (size : N).

(** What one call of [transcodeToHLS] meets; [written] are the names of the
    files ffmpeg left in [outputDir/name/]. *)
Inductive encoder_outcome : Type :=
| InputMissing
| ProbeFails (message : string)
| FfmpegFails (written : list string) (message stderr : string)
| FfmpegEnds (written : list string).

Record World : Type := {
  mkdtemp : result string;              (* the random suffix, or failure *)
  download : nat -> download_outcome;   (* by attempt *)
  mkdir : string -> outcome;
  encoder : Resolution -> encoder_outcome;
  head : string -> string -> outcome;   (* by bucket and key *)
  readdir : string -> result (list string);
  put : string -> nat -> outcome;       (* by key and attempt *)
  writeFile : string -> outcome;
  rm : string -> outcome
}.

Record Env : Type := {
  AWS_S3_TEMP_BUCKET : string;
  AWS_S3_PROD_BUCKET : string;
  cwd : string
}.

Definition succeeded (o : outcome) : bool :=
  match o with None => true | Some _ => false end.

(** A file-system call whose effect depends on whether it succeeded. *)
Definition fs_call (ev : bool -> event) (o : outcome) : M event unit :=
  call (ev (succeeded o)) o.

(** [path.resolve(p)] for a single-component relative path. *)
Definition path_resolve (env : Env) (p : string) : string :=
  cwd env +++ "/" +++ p.

Definition withRetry {A} (operation : nat -> M event A) : M event A :=
  Retry.withRetry Sleep operation CONFIG_RETRY_DELAY CONFIG_MAX_RETRIES.

Definition checkFileExists (w : World) (bucket key : string) : M event bool :=
  try_catch
    (call (S3HeadObject bucket key) (head w bucket key) ;;; ret true)
    (fun error =>
       match error with
       | Exn n _ => if String.eqb n "NotFound" then ret false else throw error
       | ExnUndefined =>
           throw (TypeError "Cannot read properties of undefined")
       end).

(** [downloadFromS3], when the promise each attempt awaits settles.  An
    attempt whose body stream fails never settles:
    [downloadFromS3_settlement] below has those attempts as well. *)
Definition downloadFromS3 (w : World) (env : Env) (bucket key : string)
    : M event string :=
  withRetry (fun attempt =>
    let filePath := "original-" +++ path_basename key in
    match download w attempt with
    | GetObjectFails e => ([S3GetObject bucket key], Throw e)
    | StreamFails opened e =>
        ([S3GetObject bucket key; CreateWriteStream filePath opened], Throw e)
    | StatFails e =>
        ([S3GetObject bucket key; CreateWriteStream filePath true;
          Stat filePath], Throw e)
    | Downloaded size =>
        ([S3GetObject bucket key; CreateWriteStream filePath true;
          Stat filePath],
         if (size =? 0)%N then Throw (Error "Downloaded file is empty")
         else Ok (path_resolve env filePath))
    end).

Definition transcodeToHLS (w : World) (inputPath outputDir : string)
    (resolution : Resolution) : M event unit :=
  match encoder w resolution with
  | InputMissing =>
      ([ExistsSync inputPath],
       Throw (Error ("Input file does not exist: " +++ inputPath)))
  | ProbeFails message =>
      ([ExistsSync inputPath; Ffprobe inputPath],
       Throw (Error ("Failed to probe input file: " +++ message)))
  | FfmpegFails written message stderr =>
      ([ExistsSync inputPath; Ffprobe inputPath;
        Ffmpeg inputPath outputDir resolution written],
       Throw (Error ("Transcoding failed: " +++ message +++ newline
                     +++ "Stderr: " +++ stderr)))
  | FfmpegEnds written =>
      ([ExistsSync inputPath; Ffprobe inputPath;
        Ffmpeg inputPath outputDir resolution written], Ok tt)
  end.

Definition uploadToS3 (w : World) (filePath bucket key contentType : string)
    : M event unit :=
  withRetry (fun attempt =>
    call (S3PutObject filePath bucket key contentType) (put w key attempt)).

Definition default_contentType : string := "application/x-mpegURL".

Record Variant : Type := {
  resolution : string;
  bandwidth : number
}.

Definition generateMasterPlaylist (variants : list Variant) : string :=
  let playlist := "#EXTM3U" +++ newline in
  let playlist := playlist +++ "#EXT-X-VERSION:3" +++ newline in
  let playlist :=
    playlist +++ "#EXT-X-INDEPENDENT-SEGMENTS" +++ newline +++ newline in
  fold_left (fun playlist v =>
    let playlist :=
      playlist +++ "#EXT-X-STREAM-INF:BANDWIDTH="
      +++ number_to_string (bandwidth v)
      +++ ",RESOLUTION=" +++ resolution v
      +++ ",CODECS=" +++ dquote +++ "avc1.4d401f,mp4a.40.2" +++ dquote
      +++ newline in
    playlist +++ resolution v +++ "/playlist.m3u8" +++ newline)
    variants playlist.

(** [files.slice(i, i + n)] for [i = 0, n, 2n, ...] below [files.length]. *)
Fixpoint chunks_loop {A} (fuel n : nat) (files : list A) : list (list A) :=
  match fuel, files with
  | S fuel', _ :: _ => firstn n files :: chunks_loop fuel' n (skipn n files)
  | _, _ => []
  end.

Definition chunks {A} (n : nat) (files : list A) : list (list A) :=
  chunks_loop (length files) n files.

(** [s.endsWith(suffix)] *)
Definition endsWith (s suffix : string) : bool :=
  (String.length suffix <=? String.length s)%nat
  && String.eqb
       (substring (String.length s - String.length suffix)
                  (String.length suffix) s)
       suffix.

(** Promises started together and joined by [Promise.all].  The calls of
    each promise are listed contiguously, in array order. *)
Definition parallel {A} (ms : list (M event A)) : M event (list A) :=
  (concat (map fst ms), promise_all (map snd ms)).

(** [for (const x of xs) await body(x)] *)
Fixpoint for_each {A} (xs : list A) (body : A -> M event unit)
    : M event unit :=
  match xs with
  | [] => ret tt
  | x :: xs' => body x ;;; for_each xs' body
  end.

Definition uploadHLSFiles (w : World) (outputDir : string)
    (resolution : Resolution) (bucket s3BasePath : string) : M event unit :=
  let dir := outputDir +++ "/" +++ name resolution in
  files <- (([Readdir dir], readdir w dir) : M event (list string)) ;;
  for_each (chunks CONFIG_UPLOAD_CONCURRENCY files) (fun chunk =>
    parallel (map (fun file =>
      let filePath := outputDir +++ "/" +++ name resolution +++ "/" +++ file in
      let s3Key := s3BasePath +++ "/" +++ name resolution +++ "/" +++ file in
      let contentType :=
        if endsWith file ".m3u8" then "application/x-mpegURL"
        else "video/MP2T" in
      uploadToS3 w filePath bucket s3Key contentType) chunk) ;;;
    ret tt).

(** *** processVideo *)

(** The calls of one job, by phase: the sequential part up to and including
    the canary, the calls of each fan-out promise (these run concurrently,
    so only the order inside each list is meaningful), and what follows the
    join, the cleanup of the [finally] block last.  When a fan-out promise
    rejects the others are not cancelled: [fanout] lists what each of them
    calls if left to run, and [after] is then concurrent with them. *)
Record run : Type := {
  before : list event;
  fanout : list (list event);
  after : list event;
  returned : result bool
}.

Definition all_events (r : run) : list event :=
  before r ++ concat (fanout r) ++ after r.

Definition testResolution : Resolution := List.last RESOLUTIONS res_360p.
Definition remainingResolutions : list Resolution := removelast RESOLUTIONS.

(** The [try] block up to the canary: download, output directories, test
    transcode. *)
Definition processVideo_start (w : World) (env : Env)
    (sourceKey workDir : string) : M event string :=
  originalVideoPath <-
    downloadFromS3 w env (AWS_S3_TEMP_BUCKET env) sourceKey ;;
  for_each RESOLUTIONS (fun resolution =>
    let dir := workDir +++ "/" +++ name resolution in
    fs_call (Mkdir dir) (mkdir w dir)) ;;;
  try_catch (transcodeToHLS w originalVideoPath workDir testResolution)
    (fun error =>
       throw (Error ("Test transcoding failed: " +++ exn_message error))) ;;;
  ret originalVideoPath.

(** One promise of [remainingResolutions.map(async (resolution) => ...)]. *)
Definition processVariant (w : World) (env : Env) (s3Paths : S3Paths)
    (originalVideoPath workDir : string) (resolution : Resolution)
    : M event unit :=
  try_catch
    (exists_ <- checkFileExists w (AWS_S3_PROD_BUCKET env)
                  (getVariantPlaylistKey s3Paths (name resolution)) ;;
     if (exists_ : bool) then ret tt
     else
       transcodeToHLS w originalVideoPath workDir resolution ;;;
       uploadHLSFiles w workDir resolution (AWS_S3_PROD_BUCKET env)
         (getHLSBasePath s3Paths))
    (fun error => throw error).

Definition masterVariants : list Variant :=
  map (fun res =>
         {| resolution :=
              number_to_string (Num (width res)) +++ "x"
              +++ number_to_string (Num (height res));
            bandwidth := number_mul (parseInt (bitrate res)) (Num 1000) |})
      RESOLUTIONS.

(** After the join: the master playlist is written and uploaded. *)
Definition processVideo_finish (w : World) (env : Env) (s3Paths : S3Paths)
    (workDir : string) : M event bool :=
  let masterPlaylist := generateMasterPlaylist masterVariants in
  let masterPlaylistPath := workDir +++ "/master.m3u8" in
  fs_call (WriteFile masterPlaylistPath masterPlaylist)
          (writeFile w masterPlaylistPath) ;;;
  uploadToS3 w masterPlaylistPath (AWS_S3_PROD_BUCKET env)
    (getMasterPlaylistKey s3Paths) default_contentType ;;;
  ret true.

(** The [finally] block: [fs.rm(workDir, {recursive, force})], a failure of
    which is logged and dropped. *)
Definition cleanup (w : World) (workDir : string) : list event :=
  [Rm workDir (succeeded (rm w workDir))].

(** [processVideo], for a download that settles; [processVideo_job] below
    has the download that does not. *)
Definition processVideo (w : World) (env : Env) (sourceKey : string) : run :=
  let s3Paths := generateS3Paths sourceKey in
  match mkdtemp w with
  | Throw e =>
      {| before := []; fanout := []; after := []; returned := Throw e |}
  | Ok suffix =>
      let workDir := CONFIG_TEMP_DIR_PREFIX +++ suffix in
      match processVideo_start w env sourceKey workDir with
      | (tr, Throw e) =>
          {| before := Mkdtemp workDir :: tr; fanout := [];
             after := cleanup w workDir; returned := Throw e |}
      | (tr, Ok originalVideoPath) =>
          let transcodePromises :=
            map (processVariant w env s3Paths originalVideoPath workDir)
                remainingResolutions in
          match promise_all (map snd transcodePromises) with
          | Throw e =>
              {| before := Mkdtemp workDir :: tr;
                 fanout := map fst transcodePromises;
                 after := cleanup w workDir; returned := Throw e |}
          | Ok _ =>
              let '(tr', r) := processVideo_finish w env s3Paths workDir in
              {| before := Mkdtemp workDir :: tr;
                 fanout := map fst transcodePromises;
                 after := tr' ++ cleanup w workDir; returned := r |}
          end
      end
  end.

(** *** A download that never settles *)

(** In the closure of [downloadFromS3] both listeners of the awaited
    promise sit on the write stream, because [pipe] returns its
    destination: [reject] on its [error], [resolve] on its [finish].  When
    the body stream of the object fails, the write stream neither fails
    nor finishes, and the promise never settles: the closure does not
    return, [withRetry] has nothing to catch and does not retry, and
    [processVideo] stays in its [try] block, so that its [finally] does
    not run.  [downloadFromS3] and [processVideo] above are the function
    on the attempts that settle; what follows adds the others. *)

(** An awaited promise settles, with a value or an error, or never
    does. *)
Inductive settlement (A : Type) : Type :=
| Settled (r : result A)
| Unsettled.
Arguments Unsettled {A}.

(** [body_fails attempt]: the body stream of the attempt fails before the
    write stream has failed or finished.  The attempt then never settles,
    unless the object could not be got, or the file could not be opened
    (which fails the write stream whatever the body does). *)
Definition stalls (w : World) (body_fails : nat -> bool) (attempt : nat)
    : bool :=
  body_fails attempt
  && match download w attempt with
     | GetObjectFails _ | StreamFails false _ => false
     | _ => true
     end.

(** The closure given to [withRetry]; [None] stands for an attempt that
    never settles. *)
Definition download_attempt (w : World) (env : Env)
    (body_fails : nat -> bool) (bucket key : string) (attempt : nat)
    : M event (option string) :=
  let filePath := "original-" +++ path_basename key in
  if stalls w body_fails attempt
  then ([S3GetObject bucket key; CreateWriteStream filePath true], Ok None)
  else
    match download w attempt with
    | GetObjectFails e => ([S3GetObject bucket key], Throw e)
    | StreamFails opened e =>
        ([S3GetObject bucket key; CreateWriteStream filePath opened], Throw e)
    | StatFails e =>
        ([S3GetObject bucket key; CreateWriteStream filePath true;
          Stat filePath], Throw e)
    | Downloaded size =>
        ([S3GetObject bucket key; CreateWriteStream filePath true;
          Stat filePath],
         if (size =? 0)%N then Throw (Error "Downloaded file is empty")
         else Ok (Some (path_resolve env filePath)))
    end.

Definition settle {A} (r : result (option A)) : settlement A :=
  match r with
  | Ok (Some v) => Settled (Ok v)
  | Ok None => Unsettled
  | Throw e => Settled (Throw e)
  end.

(** [downloadFromS3] with the body streams.  An attempt that never
    settles ends the calls of [withRetry] as a return would: nothing
    follows it. *)
Definition downloadFromS3_settlement (w : World) (env : Env)
    (body_fails : nat -> bool) (bucket key : string)
    : list event * settlement string :=
  let '(tr, r) := withRetry (download_attempt w env body_fails bucket key) in
  (tr, settle r).

(** What becomes of a job: its promise settles after a run, or the job
    stalls after some calls. *)
Inductive job : Type :=
| Finished (r : run)
| Stalled (calls : list event).

(** [processVideo] with the body streams.  When the download never
    settles the job has made the calls of the workspace and of the
    download, and makes no other.  When it settles, no attempt has met a
    failing body stream and the job runs as [processVideo] has it. *)
Definition processVideo_job (w : World) (env : Env)
    (body_fails : nat -> bool) (sourceKey : string) : job :=
  match mkdtemp w with
  | Throw _ => Finished (processVideo w env sourceKey)
  | Ok suffix =>
      let workDir := CONFIG_TEMP_DIR_PREFIX +++ suffix in
      match downloadFromS3_settlement w env body_fails
              (AWS_S3_TEMP_BUCKET env) sourceKey with
      | (tr, Unsettled) => Stalled (Mkdtemp workDir :: tr)
      | (_, Settled _) => Finished (processVideo w env sourceKey)
      end
  end.

(** *** The disk *)

(** The paths that exist, relative to the working directory of the
    process. *)
Definition disk := list string.

Definition under (dir path : string) : bool :=
  String.eqb path dir || String.prefix (dir +++ "/") path.

Definition disk_add (p : string) (d : disk) : disk :=
  if existsb (String.eqb p) d then d else p :: d.

Definition disk_step (d : disk) (ev : event) : disk :=
  match ev with
  | Mkdtemp dir => disk_add dir d
  | CreateWriteStream path true => disk_add path d
  | Mkdir path true => disk_add path d
  | Ffmpeg _ outputDir resolution written =>
      fold_left (fun d file =>
        disk_add (outputDir +++ "/" +++ name resolution +++ "/" +++ file) d)
        written d
  | WriteFile path _ true => disk_add path d
  | Rm path true => filter (fun p => negb (under path p)) d
  | _ => d
  end.

Definition disk_after (d : disk) (tr : list event) : disk :=
  fold_left disk_step tr d.

(** Calls that invoke the encoder binary for a variant. *)
Definition encoder_call (ev : event) : option Resolution :=
  match ev with
  | Ffmpeg _ _ resolution _ => Some resolution
  | _ => None
  end.

Definition is_encoder_call (ev : event) : bool :=
  match encoder_call ev with Some _ => true | None => false end.

Definition is_upload (ev : event) : bool :=
  match ev with S3PutObject _ _ _ _ => true | _ => false end.

Definition upload_key (ev : event) : option string :=
  match ev with S3PutObject _ _ key _ => Some key | _ => None end.

(** *** validateEnvironment and init *)

Definition requiredEnvVars : list string :=
  ["AWS_S3_TEMP_BUCKET"; "AWS_S3_TEMP_KEY"; "AWS_S3_PROD_BUCKET"; "AWS_REGION"].

Definition validateEnvironment (penv : environment) : result unit :=
  let missingVars :=
    filter (fun varName => falsy (penv varName)) requiredEnvVars in
  if (0 <? length missingVars)%nat
  then Throw (Error ("Missing required environment variables: "
                     +++ String.concat ", " missingVars))
  else Ok tt.

(** The variables [processVideo] reads, as [process.env] has them. *)
Definition process_env (penv : environment) (cwd : string) : Env :=
  {| AWS_S3_TEMP_BUCKET := render (penv "AWS_S3_TEMP_BUCKET");
     AWS_S3_PROD_BUCKET := render (penv "AWS_S3_PROD_BUCKET");
     cwd := cwd |}.

(** [init]: the job, when it is started, and the code [process.exit] is
    called with, if it is called. *)
Definition init (w : World) (penv : environment) (cwd : string)
    : option run * option Z :=
  match validateEnvironment penv with
  | Throw error => (None, Some 1%Z)
  | Ok _ =>
      let r := processVideo w (process_env penv cwd)
                 (render (penv "AWS_S3_TEMP_KEY")) in
      (Some r, match returned r with Ok _ => None | Throw error => Some 1%Z end)
  end.

End Transcoder.

(* ================================================================== *)
(** ** The transcode pipeline, MP4 revision
       (src/transcoder/index.js, first revision) *)
(* ================================================================== *)

Module TranscoderMp4.
Import Js.
Local Open Scope js_scope.

Record Resolution : Type := {
  name : string;
  width : Z;
  height : Z
}.

Definition RESOLUTIONS : list Resolution :=
  [ {| name := "1080p"; width := 1920; height := 1080 |};
    {| name := "720p"; width := 1280; height := 720 |};
    {| name := "480p"; width := 854; height := 480 |};
    {| name := "360p"; width := 640; height := 360 |} ].

Definition requiredEnvVars : list string :=
  ["AWS_S3_TEMP_BUCKET"; "AWS_S3_TEMP_KEY"; "AWS_S3_PROD_BUCKET"].

Definition validateEnvironment (penv : environment) : result unit :=
  let missingVars :=
    filter (fun varName => falsy (penv varName)) requiredEnvVars in
  if (0 <? length missingVars)%nat
  then Throw (Error ("Missing required environment variables: "
                     +++ String.concat ", " missingVars))
  else Ok tt.

Record S3Paths : Type := {
  courseId : option string;
  filename : string
}.

Definition generateS3Paths (originalKey : string) : S3Paths :=
  let keyParts := split slash originalKey in
  {| courseId := nth_error keyParts 1;
     filename := path_parse_name (last_part keyParts) |}.

Definition getTranscodedKey (p : S3Paths) (resolution : string) : string :=
  "courses/" +++ Transcoder.render (courseId p) +++ "/transcoded/"
  +++ filename p +++ "/" +++ resolution +++ ".mp4".

Inductive event : Type :=
| S3GetObject (bucket key : string)
| WriteFile (path : string) (ok : bool)
| S3HeadObject (bucket key : string)
| Ffmpeg (input output : string) (width height : Z)
| S3PutObject (filePath bucket key : string)
| Unlink (path : string) (ok : bool).

Record World : Type := {
  getObject : outcome;
  writeFile : string -> outcome;
  head : string -> string -> outcome;   (* by bucket and key *)
  transcode : string -> outcome;        (* by output path *)
  put : string -> outcome;              (* by key *)
  unlink : string -> outcome
}.

Definition checkFileExists (w : World) (bucket key : string) : M event bool :=
  try_catch
    (call (S3HeadObject bucket key) (head w bucket key) ;;; ret true)
    (fun error =>
       match error with
       | Exn n _ => if String.eqb n "NotFound" then ret false else throw error
       | ExnUndefined =>
           throw (TypeError "Cannot read properties of undefined")
       end).

Definition downloadFromS3 (w : World) (env : Transcoder.Env)
    (bucket key : string) : M event string :=
  call (S3GetObject bucket key) (getObject w) ;;;
  let filePath := "original-" +++ path_basename key in
  call (WriteFile filePath (Transcoder.succeeded (writeFile w filePath)))
       (writeFile w filePath) ;;;
  ret (Transcoder.path_resolve env filePath).

Definition uploadToS3 (w : World) (filePath bucket key : string)
    : M event unit :=
  call (S3PutObject filePath bucket key) (put w key).

Definition transcodeVideo (w : World) (inputPath outputPath : string)
    (width height : Z) : M event unit :=
  call (Ffmpeg inputPath outputPath width height) (transcode w outputPath).

(** [cleanupFiles]: every file is unlinked, a failure is logged and
    dropped. *)
Definition cleanupFiles (w : World) (files : list string) : list event :=
  map (fun file => Unlink file (Transcoder.succeeded (unlink w file))) files.

Definition outputPath (p : S3Paths) (resolution : Resolution) : string :=
  "video-" +++ filename p +++ "-" +++ name resolution +++ ".mp4".

(** One promise of [RESOLUTIONS.map(async ({ name, width, height }) => ...)],
    after its synchronous start, which has pushed [outputPath] onto
    [filesToCleanup]. *)
Definition processVariant (w : World) (env : Transcoder.Env) (s3Paths : S3Paths)
    (originalVideoPath : string) (resolution : Resolution) : M event unit :=
  let destinationKey := getTranscodedKey s3Paths (name resolution) in
  try_catch
    (exists_ <- checkFileExists w (Transcoder.AWS_S3_PROD_BUCKET env)
                  destinationKey ;;
     if (exists_ : bool) then ret tt
     else
       transcodeVideo w originalVideoPath (outputPath s3Paths resolution)
         (width resolution) (height resolution) ;;;
       uploadToS3 w (outputPath s3Paths resolution)
         (Transcoder.AWS_S3_PROD_BUCKET env) destinationKey)
    (fun error => throw error).

(** The calls of one job, by phase: the download, the calls of each
    promise (concurrent; only the order inside each list is meaningful),
    and the cleanup of the [finally] block.  When a promise rejects the
    others are not cancelled: [fanout] lists what each calls if left to
    run, and the cleanup is then concurrent with them. *)
Record run : Type := {
  before : list event;
  fanout : list (list event);
  after : list event;
  returned : result bool
}.

Definition processVideo (w : World) (env : Transcoder.Env)
    (sourceKey : string) : run :=
  let s3Paths := generateS3Paths sourceKey in
  match downloadFromS3 w env (Transcoder.AWS_S3_TEMP_BUCKET env) sourceKey with
  | (tr, Throw e) =>
      {| before := tr; fanout := []; after := cleanupFiles w [];
         returned := Throw e |}
  | (tr, Ok originalVideoPath) =>
      let transcodePromises :=
        map (processVariant w env s3Paths originalVideoPath) RESOLUTIONS in
      let filesToCleanup :=
        originalVideoPath :: map (outputPath s3Paths) RESOLUTIONS in
      {| before := tr;
         fanout := map fst transcodePromises;
         after := cleanupFiles w filesToCleanup;
         returned :=
           match promise_all (map snd transcodePromises) with
           | Ok _ => Ok true
           | Throw e => Throw e
           end |}
  end.

End TranscoderMp4.

(* ================================================================== *)
(** ** The event dispatcher (src/consumer/src/index.ts) *)
(* ================================================================== *)

Module Consumer.
Import Js Regex.
Local Open Scope js_scope.

Definition MAX_RETRIES : nat := 3.
Definition BATCH_SIZE : nat := 5.
Definition VISIBILITY_TIMEOUT : Z := 900.

#[local] Set Warnings "-register-all".

(** What [JSON.parse] returns.  A number is kept as the text [String(n)]
    gives it; an object as its properties, looked up first match. *)
Inductive json : Type :=
| JNull
| JBool (b : bool)
| JNum (text : string)
| JStr (s : string)
| JArr (items : list json)
| JObj (props : list (string * json)).

(** A JS value read out of an event: [None] is [undefined]. *)
Definition jsval := option json.

Fixpoint lookup (k : string) (props : list (string * json)) : jsval :=
  match props with
  | [] => None
  | (k', v) :: props' => if String.eqb k k' then Some v else lookup k props'
  end.

(** [k in v], for the names the source asks about ([Service], [Event]):
    only an object can have them, and a primitive or [null] on the right of
    [in] is a TypeError. *)
Definition has_property (k : string) (v : json) : result bool :=
  match v with
  | JObj props =>
      Ok (match lookup k props with Some _ => true | None => false end)
  | JArr _ => Ok false
  | _ => Throw (TypeError "Cannot use 'in' operator")
  end.

(** [v.k] or the destructuring of [k] out of [v], for the names the source
    reads ([Event], [Records], [s3], [bucket], [object], [name], [key]):
    a TypeError on [undefined] and [null], [undefined] on anything that is
    not an object. *)
Definition prop (v : jsval) (k : string) : result jsval :=
  match v with
  | None | Some JNull => Throw (TypeError "Cannot read properties")
  | Some (JObj props) => Ok (lookup k props)
  | Some _ => Ok None
  end.

Fixpoint chars (s : string) : list json :=
  match s with
  | EmptyString => []
  | String c s' => JStr (String c EmptyString) :: chars s'
  end.

(** What [for (const x of v)] iterates: the items of an array, the
    characters of a string, a TypeError otherwise. *)
Definition iterate (v : jsval) : result (list json) :=
  match v with
  | Some (JArr items) => Ok items
  | Some (JStr s) => Ok (chars s)
  | _ => Throw (TypeError "event.Records is not iterable")
  end.

Fixpoint join (sep : string) (parts : list string) : string :=
  match parts with
  | [] => ""
  | [p] => p
  | p :: ps => p +++ sep +++ join sep ps
  end.

(** [String(v)], the coercion [RegExp.prototype.test] applies. *)
Fixpoint ToString_json (v : json) : string :=
  match v with
  | JNull => "null"
  | JBool true => "true"
  | JBool false => "false"
  | JNum text => text
  | JStr s => s
  | JArr items =>
      join "," (map (fun item =>
                       match item with
                       | JNull => ""
                       | _ => ToString_json item
                       end) items)
  | JObj _ => "[object Object]"
  end.

Definition ToString (v : jsval) : string :=
  match v with Some j => ToString_json j | None => "undefined" end.

Definition strict_equals_string (v : jsval) (s : string) : bool :=
  match v with Some (JStr s') => String.eqb s' s | _ => false end.

(** [/^courses\/[\w-]+\/videos\/[\w-]+\.(mp4|mov|avi)$/i] *)
Definition word_or_dash (c : ascii) : bool :=
  is_word c || Ascii.eqb c "-".

Definition keyPattern : regex :=
  Cat (ilit "courses/")
   (Cat (Plus (Class word_or_dash))
    (Cat (ilit "/videos/")
     (Cat (Plus (Class word_or_dash))
      (Cat (ilit ".")
           (Alt (ilit "mp4") (Alt (ilit "mov") (ilit "avi"))))))).

Definition validateS3Key (key : string) : bool := test keyPattern key.

Inductive event : Type :=
| RunTask (bucketName objectKey : jsval)
| Sleep (ms : Z)
| DeleteMessage (receiptHandle : string) (ok : bool)
| ChangeMessageVisibility (receiptHandle : string) (timeout : Z) (ok : bool).

Record Message : Type := {
  MessageId : string;
  Body : option string;
  ReceiptHandle : string
}.

(** The collaborators one message meets. *)
Record World : Type := {
  runTask : nat -> nat -> outcome;    (* by record index and attempt *)
  deleteMessage : outcome;
  changeMessageVisibility : outcome
}.

Definition succeeded (o : outcome) : bool :=
  match o with None => true | Some _ => false end.

Section Dispatcher.
(** [JSON.parse]; a SyntaxError is a [Throw]. *)
Variable JSON_parse : string -> result json.

Definition lift {A} (r : result A) : M event A := ([], r).

Definition validateAndParseEvent (body : string) : M event json :=
  try_catch
    (event <- lift (JSON_parse body) ;;
     hasService <- lift (has_property "Service" event) ;;
     hasEvent <- (if (hasService : bool)
                  then lift (has_property "Event" event)
                  else ret false) ;;
     (if (hasEvent : bool)
      then
        eventName <- lift (prop (Some event) "Event") ;;
        if strict_equals_string eventName "s3:TestEvent"
        then throw (Error "Test event received")
        else ret tt
      else ret tt) ;;;
     ret event)
    (fun error => throw error).

Definition launchEcsTask (w : World) (index : nat)
    (bucketName objectKey : jsval) (attempt : nat) : M event unit :=
  call (RunTask bucketName objectKey) (runTask w index attempt).

Definition retryWithBackoff {A} (operation : nat -> M event A) : M event A :=
  Retry.retryWithBackoff Sleep operation MAX_RETRIES.

(** [const { s3: { bucket: { name: bucketName }, object: { key: objectKey } } }
    = record] *)
Definition destructure (record : json) : result (jsval * jsval) :=
  match prop (Some record) "s3" with
  | Throw e => Throw e
  | Ok s3 =>
      match prop s3 "bucket" with
      | Throw e => Throw e
      | Ok bucket =>
          match prop bucket "name" with
          | Throw e => Throw e
          | Ok bucketName =>
              match prop s3 "object" with
              | Throw e => Throw e
              | Ok object =>
                  match prop object "key" with
                  | Throw e => Throw e
                  | Ok objectKey => Ok (bucketName, objectKey)
                  end
              end
          end
      end
  end.

(** The body of [for (const record of event.Records)], for the record at
    position [index]. *)
Definition processRecord (w : World) (index : nat) (record : json)
    : M event unit :=
  fields <- lift (destructure record) ;;
  let '(bucketName, objectKey) := fields in
  if negb (validateS3Key (ToString objectKey)) then ret tt
  else retryWithBackoff (launchEcsTask w index bucketName objectKey).

Fixpoint processRecords (w : World) (index : nat) (records : list json)
    : M event unit :=
  match records with
  | [] => ret tt
  | record :: records' =>
      processRecord w index record ;;;
      processRecords w (S index) records'
  end.

Definition sqs_call (ev : bool -> event) (o : outcome) : M event unit :=
  call (ev (succeeded o)) o.

(** The first statements of the [try] block of [processMessage], up to
    the records the loop runs over; they call no collaborator. *)
Definition readRecords (message : Message) : M event (list json) :=
  body <- match Body message with
          | None | Some EmptyString => throw (Error "Empty message body")
          | Some body => ret body
          end ;;
  event <- validateAndParseEvent body ;;
  Records <- lift (prop (Some event) "Records") ;;
  lift (iterate Records).

Definition processMessage (w : World) (message : Message) : M event unit :=
  try_catch
    (records <- readRecords message ;;
     processRecords w 0 records ;;;
     sqs_call (DeleteMessage (ReceiptHandle message)) (deleteMessage w))
    (fun error =>
       try_catch
         (sqs_call (ChangeMessageVisibility (ReceiptHandle message)
                      VISIBILITY_TIMEOUT)
                   (changeMessageVisibility w))
         (fun visibilityError => ret tt) ;;;
       throw error).


Fixpoint map_indexed {A B} (f : nat -> A -> B) (i : nat) (l : list A)
    : list B :=
  match l with
  | [] => []
  | a :: l' => f i a :: map_indexed f (S i) l'
  end.


End Dispatcher.

(** Where the queue leaves a message after [processMessage]. *)
Inductive message_state : Type :=
| Acknowledged
| VisibilityExtended
| Untouched.

Definition is_delete (ev : event) : bool :=
  match ev with DeleteMessage _ _ => true | _ => false end.

Definition is_deleted (ev : event) : bool :=
  match ev with DeleteMessage _ true => true | _ => false end.


Definition is_extended (ev : event) : bool :=
  match ev with ChangeMessageVisibility _ _ true => true | _ => false end.

Definition final_state (tr : list event) : message_state :=
  if existsb is_deleted tr then Acknowledged
  else if existsb is_extended tr then VisibilityExtended
  else Untouched.

(** *** validateEnvironment *)

Definition requiredEnvVars : list string :=
  ["AWS_ACCESS_KEY_ID"; "AWS_SECRET_ACCESS_KEY"; "AWS_SQS_URL";
   "AWS_ECS_TASK_DEFINITION"; "AWS_ECS_CLUSTER"; "AWS_ECS_SUBNETS";
   "AWS_ECS_SECURITY_GROUP"; "AWS_ECS_CONTAINER_NAME"; "AWS_S3_PROD_BUCKET"].

(** What is logged before [process.exit(1)], or [None] when the function
    returns. *)
Definition validateEnvironment (penv : environment) : option string :=
  let missing := filter (fun key => falsy (penv key)) requiredEnvVars in
  if (0 <? length missing)%nat
  then Some ("Missing required environment variables: "
             +++ String.concat ", " missing)
  else None.

End Consumer.

(* ================================================================== *)
(** ** The URL signing service
       (src/generate-url/src/services/video.service.ts and
        utils/cloudfront-url.ts) *)
(* ================================================================== *)

Module VideoService.
Import Js Regex.
Local Open Scope js_scope.
Local Open Scope Z_scope.

Definition DEFAULT_EXPIRES_IN : Z := 3600.

(** Times are time values: milliseconds since the epoch.  A [Date] holds
    one only within this bound; beyond it the date is invalid and
    [toISOString] throws a RangeError. *)
Definition MAX_TIME : Z := 8640000000000000.

Definition toISOString (t : Z) : result Z :=
  if (Z.abs t <=? MAX_TIME) then Ok t
  else Throw (Exn "RangeError" "Invalid time value").

Record GenerateUrlRequest : Type := {
  videoKey : string;
  expiresIn : option Z      (* seconds; [None] when absent *)
}.

Record ResponseData : Type := {
  url : string;
  data_expiresIn : Z;
  expiresAt : Z             (* the instant the ISO string denotes *)
}.

Record VideoResponse : Type := {
  success : bool;
  data : option ResponseData;
  error : option string
}.

Inductive event : Type :=
| GetSignedUrl (url : string) (dateLessThan : Z).

Record World : Type := {
  (** [new URL(videoKey, CLOUDFRONT_DOMAIN).toString()] *)
  resolveUrl : string -> result string;
  (** [new Date()] in [generateSignedUrl] *)
  signerClock : Z;
  (** the time value after [d.setSeconds(d.getSeconds() + n)] on a date
      holding [t]: [t + 1000 * n] unless local time shifts in between *)
  setSeconds : Z -> Z -> Z;
  (** [getSignedUrl] of @aws-sdk/cloudfront-signer *)
  getSignedUrl : string -> Z -> result string;
  (** [Date.now()] in [getExpiryDate] *)
  now : Z
}.

(** [/^[a-zA-Z0-9-_/]+$/]: after the range [0-9] the dash is literal. *)
Definition key_char (c : ascii) : bool :=
  let n := nat_of_ascii c in
  ((97 <=? n)%nat && (n <=? 122)%nat)
  || ((65 <=? n)%nat && (n <=? 90)%nat)
  || ((48 <=? n)%nat && (n <=? 57)%nat)
  || Ascii.eqb c "-" || Ascii.eqb c "_" || Ascii.eqb c "/".

Definition validKeyPattern : regex := Plus (Class key_char).

(** [Boolean(key && key.match(...))] *)
Definition isValidKey (key : string) : bool :=
  string_nonempty key && test validKeyPattern key.

(** [new Date(Date.now() + expiresIn * 1000).toISOString()] *)
Definition getExpiryDate (w : World) (expiresIn : Z) : result Z :=
  toISOString (now w + expiresIn * 1000).

Definition lift {A} (r : result A) : M event A := ([], r).

Definition generateSignedUrl (w : World) (videoKey : string) (expiresIn : Z)
    : M event string :=
  url <- lift (resolveUrl w videoKey) ;;
  let dateLessThan := setSeconds w (signerClock w) expiresIn in
  iso <- lift (toISOString dateLessThan) ;;
  (([GetSignedUrl url iso], getSignedUrl w url iso) : M event string).

Definition generateUrl (w : World) (params : GenerateUrlRequest)
    : M event VideoResponse :=
  let videoKey := videoKey params in
  let expiresIn :=
    match expiresIn params with Some n => n | None => DEFAULT_EXPIRES_IN end in
  if negb (isValidKey videoKey)
  then ret {| success := false; data := None;
              error := Some "Invalid videoKey format" |}
  else
    try_catch
      (signedUrl <- generateSignedUrl w videoKey expiresIn ;;
       expiresAt <- lift (getExpiryDate w expiresIn) ;;
       ret {| success := true;
              data := Some {| url := signedUrl; data_expiresIn := expiresIn;
                              expiresAt := expiresAt |};
              error := None |})
      (fun error =>
         ret {| success := false; data := None;
                error := Some "Failed to generate signed URL" |}).

(** *** generateStreamUrls *)

Definition SUPPORTED_QUALITIES : list string :=
  ["360p"; "480p"; "720p"; "1080p"]%string.

(** [list.includes(x)] on strings *)
Definition includes (l : list string) (x : string) : bool :=
  existsb (String.eqb x) l.

Record StreamRequest : Type := {
  courseId : string;
  videoId : string;
  quality : option string
}.

(** The [data] of a [VideoResponse] as [generateStreamUrls] fills it. *)
Record StreamData : Type := {
  masterPlaylist : string;
  qualityPlaylist : option string;
  data_quality : option string;
  stream_expiresIn : Z;
  stream_expiresAt : Z
}.

Record StreamResponse : Type := {
  stream_success : bool;
  stream_data : option StreamData;
  stream_error : option string
}.

(** The response of a run that ends well. *)
Definition stream_ok (masterPlaylistUrl : string)
    (qualityPlaylistUrl quality : option string) (expiresIn expiresAt : Z)
    : StreamResponse :=
  {| stream_success := true;
     stream_data :=
       Some {| masterPlaylist := masterPlaylistUrl;
               qualityPlaylist := qualityPlaylistUrl;
               data_quality := quality;
               stream_expiresIn := expiresIn;
               stream_expiresAt := expiresAt |};
     stream_error := None |}.

(** [w] is what the signing of the master playlist and [getExpiryDate]
    meet, [wq] what the signing of the quality playlist meets afterwards
    (its own clock reading and answers). *)
Definition generateStreamUrls (w wq : World) (params : StreamRequest)
    : M event StreamResponse :=
  let courseId := courseId params in
  let videoId := videoId params in
  let quality := quality params in
  if negb (isValidKey courseId) || negb (isValidKey videoId)
  then ret {| stream_success := false; stream_data := None;
              stream_error := Some "Invalid courseId or videoId format" |}
  else
    try_catch
      (let baseKey := courseId +++ "/hls/" +++ videoId in
       let expiresIn := DEFAULT_EXPIRES_IN in
       masterPlaylistUrl <-
         generateSignedUrl w (baseKey +++ "/master.m3u8") expiresIn ;;
       expiresAt <- lift (getExpiryDate w expiresIn) ;;
       match quality with
       | Some (String c q) =>
           if includes SUPPORTED_QUALITIES (String c q)
           then
             qualityPlaylistUrl <-
               generateSignedUrl wq
                 (baseKey +++ "/" +++ String c q +++ "/playlist.m3u8")
                 expiresIn ;;
             ret (stream_ok masterPlaylistUrl (Some qualityPlaylistUrl)
                    (Some (String c q)) expiresIn expiresAt)
           else ret (stream_ok masterPlaylistUrl None None expiresIn expiresAt)
       | _ => ret (stream_ok masterPlaylistUrl None None expiresIn expiresAt)
       end)
      (fun error =>
         ret {| stream_success := false; stream_data := None;
                stream_error := Some "Failed to generate streaming URLs" |}).

(** *** generatePlayerHtml *)

(** The three constant parts of the template literal of
    [generatePlayerHtml], around the two interpolations. *)
Definition page_head : string :=
  newline
  +++ "<!DOCTYPE html>" +++ newline
  +++ "<html>" +++ newline
  +++ "<head>" +++ newline
  +++ "    <title>HLS Player - ".

Definition page_middle : string :=
  "</title>" +++ newline
  +++ "    <link href=" +++ dquote
      +++ "https://vjs.zencdn.net/8.6.1/video-js.css" +++ dquote +++ " rel="
      +++ dquote +++ "stylesheet" +++ dquote +++ " />" +++ newline
  +++ "    <script src=" +++ dquote
      +++ "https://vjs.zencdn.net/8.6.1/video.min.js" +++ dquote
      +++ "></script>" +++ newline
  +++ "    <style>" +++ newline
  +++ "        body { margin: 0; background: #000; }" +++ newline
  +++ "        .video-container { " +++ newline
  +++ "            width: 100vw; " +++ newline
  +++ "            height: 100vh; " +++ newline
  +++ "            display: flex; " +++ newline
  +++ "            justify-content: center; " +++ newline
  +++ "            align-items: center; " +++ newline
  +++ "        }" +++ newline
  +++ "        .video-js { width: 100%; height: 100%; max-width: 1280px; max-height: 720px; }"
      +++ newline
  +++ "    </style>" +++ newline
  +++ "</head>" +++ newline
  +++ "<body>" +++ newline
  +++ "    <div class=" +++ dquote +++ "video-container" +++ dquote +++ ">"
      +++ newline
  +++ "        <video-js id=" +++ dquote +++ "player" +++ dquote +++ " "
      +++ newline
  +++ "            class=" +++ dquote
      +++ "vjs-default-skin vjs-big-play-centered" +++ dquote +++ " "
      +++ newline
  +++ "            controls " +++ newline
  +++ "            preload=" +++ dquote +++ "auto" +++ dquote +++ ">"
      +++ newline
  +++ "            <source src=" +++ dquote.

Definition page_tail : string :=
  dquote +++ " type=" +++ dquote +++ "application/x-mpegURL" +++ dquote
      +++ ">" +++ newline
  +++ "        </video-js>" +++ newline
  +++ "    </div>" +++ newline
  +++ "    <script>" +++ newline
  +++ "        const player = videojs('player', {" +++ newline
  +++ "            fluid: true," +++ newline
  +++ "            html5: {" +++ newline
  +++ "                hls: {" +++ newline
  +++ "                    enableLowInitialPlaylist: true," +++ newline
  +++ "                    smoothQualityChange: true," +++ newline
  +++ "                    overrideNative: true" +++ newline
  +++ "                }" +++ newline
  +++ "            }" +++ newline
  +++ "        });" +++ newline
  +++ "        player.play();" +++ newline
  +++ "    </script>" +++ newline
  +++ "</body>" +++ newline
  +++ "</html>".

Definition generatePlayerHtml (w : World) (courseId videoId : string)
    : M event string :=
  let baseKey := courseId +++ "/hls/" +++ videoId in
  masterPlaylistUrl <-
    generateSignedUrl w (baseKey +++ "/master.m3u8") DEFAULT_EXPIRES_IN ;;
  ret (page_head +++ courseId +++ "/" +++ videoId +++ page_middle
       +++ masterPlaylistUrl +++ page_tail).

End VideoService.

(* ================================================================== *)
(** ** The routes (src/generate-url/src/routes/url.ts) *)
(* ================================================================== *)

Module Routes.
Import Js VideoService.
Local Open Scope js_scope.

(** What is sent: a JSON body built by the route itself, the service's
    response as JSON, or a page with [Content-Type: text/html]. *)
Inductive payload : Type :=
| JsonError (error : string)            (* [{ success: false, error }] *)
| JsonUrl (result : VideoResponse)
| JsonStream (result : StreamResponse)
| Html (html : string).

Record response : Type := {
  status : Z;
  body : payload
}.

(** [!s] for a string that may be absent. *)
Definition absent (s : option string) : bool :=
  match s with
  | None => true
  | Some s => negb (string_nonempty s)
  end.

(** [!v] for a value of the request body; [None] is [undefined].  A
    number is falsy when it is zero, whose text is [0] whatever its
    sign. *)
Definition logical_not (v : Consumer.jsval) : bool :=
  match v with
  | None | Some Consumer.JNull | Some (Consumer.JBool false) => true
  | Some (Consumer.JBool true) => false
  | Some (Consumer.JNum text) => String.eqb text "0"
  | Some (Consumer.JStr s) => negb (string_nonempty s)
  | Some (Consumer.JArr _) | Some (Consumer.JObj _) => false
  end.

(** [POST /generate], for a parsed body whose [expiresIn] is a number or
    absent.  [videoKey] is whatever the body holds: the route checks only
    that it is truthy.  [isValidKey] then calls [key.match] on it, which
    only a string has; on any other truthy value the call throws a
    TypeError, outside every [try], and the error leaves the handler. *)
Definition post_generate (w : World) (videoKey : Consumer.jsval)
    (expiresIn : option Z) : M event response :=
  if logical_not videoKey
  then ret {| status := 400%Z; body := JsonError "videoKey is required" |}
  else
    match videoKey with
    | Some (Consumer.JStr key) =>
        result <- generateUrl w {| videoKey := key;
                                   expiresIn := expiresIn |} ;;
        ret {| status := if success result then 200%Z else 500%Z;
               body := JsonUrl result |}
    | _ => throw (TypeError "key.match is not a function")
    end.

(** [GET /stream/:courseId/:videoId], for a [quality] query parameter
    that is a string or absent. *)
Definition get_stream (w wq : World) (courseId videoId : string)
    (rawQuality : option string) : M event response :=
  if negb (string_nonempty courseId) || negb (string_nonempty videoId)
  then ret {| status := 400%Z;
              body := JsonError "courseId and videoId are required" |}
  else if negb (absent rawQuality)
          && negb (includes ["360p"; "480p"; "720p"; "1080p"]%string
                     (match rawQuality with Some q => q | None => "" end))
  then ret {| status := 400%Z;
              body := JsonError
                "Invalid quality value. Must be one of: 360p, 480p, 720p, 1080p" |}
  else
    result <- generateStreamUrls w wq
                {| courseId := courseId; videoId := videoId;
                   quality := rawQuality |} ;;
    ret {| status := if stream_success result then 200%Z else 500%Z;
           body := JsonStream result |}.

(** [GET /player/:courseId/:videoId] *)
Definition get_player (w : World) (courseId videoId : string)
    : M event response :=
  if negb (string_nonempty courseId) || negb (string_nonempty videoId)
  then ret {| status := 400%Z;
              body := JsonError "courseId and videoId are required" |}
  else
    try_catch
      (html <- generatePlayerHtml w courseId videoId ;;
       ret {| status := 200%Z; body := Html html |})
      (fun error =>
         ret {| status := 500%Z;
                body := JsonError "Failed to generate player page" |}).

(** *** The first revision of [POST /generate]
        (second document of src/consumer/src/index.ts) *)

(** What the first revision sends: [{ url }] or [{ error }]. *)
Inductive legacy_payload : Type :=
| LegacyUrl (url : string)
| LegacyError (error : string).

Record legacy_response : Type := {
  legacy_status : Z;
  legacy_body : legacy_payload
}.

(** [String(v)], the conversion [new URL(v, base)] applies to its first
    argument.  An array is joined with commas, [null] items giving the
    empty string.  No property of a parsed object is a function: an object
    with a [toString] of its own has nothing to call, and the conversion
    throws; any other object gives [[object Object]]. *)
Fixpoint coerce (v : Consumer.json) : result string :=
  match v with
  | Consumer.JNull => Ok "null"%string
  | Consumer.JBool true => Ok "true"%string
  | Consumer.JBool false => Ok "false"%string
  | Consumer.JNum text => Ok text
  | Consumer.JStr s => Ok s
  | Consumer.JArr items =>
      (fix parts (l : list Consumer.json) (done : list string)
         : result string :=
         match l with
         | [] => Ok (Consumer.join "," (rev done))
         | item :: l' =>
             match match item with
                   | Consumer.JNull => Ok ""%string
                   | _ => coerce item
                   end with
             | Ok part => parts l' (part :: done)
             | Throw e => Throw e
             end
         end) items []
  | Consumer.JObj props =>
      match Consumer.lookup "toString" props with
      | Some _ => Throw (TypeError "Cannot convert object to primitive value")
      | None => Ok "[object Object]"%string
      end
  end.

(** The first revision, for a parsed body whose [expiresIn] is a number
    or absent.  Everything happens inside the [try]. *)
Definition legacy_post_generate (w : World) (videoKey : Consumer.jsval)
    (expiresIn : option Z) : M event legacy_response :=
  try_catch
    (if logical_not videoKey
     then ret {| legacy_status := 400%Z;
                 legacy_body := LegacyError "videoKey is required" |}
     else
       key <- lift (match videoKey with
                    | Some v => coerce v
                    | None => Ok "undefined"%string
                    end) ;;
       signedUrl <-
         generateSignedUrl w key
           (match expiresIn with Some n => n | None => 3600%Z end) ;;
       ret {| legacy_status := 200%Z; legacy_body := LegacyUrl signedUrl |})
    (fun error =>
       ret {| legacy_status := 500%Z;
              legacy_body := LegacyError "Failed to generate signed URL" |}).

End Routes.

(* ================================================================== *)
(** ** What the specification says, and sample environments *)
(* ================================================================== *)

Module Spec.
Import Js.

(** *** Retry *)

(** The delay the specification gives after failed attempt [k >= 1]:
    [min(baseDelay * 2^(k-1), delayCeiling)]. *)
Definition spec_delay (baseDelay delayCeiling : Z) (k : nat) : Z :=
  Z.min (baseDelay * 2 ^ (Z.of_nat k - 1)) delayCeiling.

Section Schedule.
Variable Ev : Type.
Variable Sleep : Z -> Ev.
(** [calls k]: the calls the [k]-th attempt makes. *)
Variable calls : nat -> list Ev.
Variable delay : nat -> Z.

(** Attempts [k], [k+1], ... ([remaining] of them), each but the last
    followed by its delay. *)
Fixpoint retry_schedule (k remaining : nat) : list Ev :=
  match remaining with
  | 0 => []
  | S r =>
      calls k ++
      match r with
      | 0 => []
      | S _ => Sleep (delay k) :: retry_schedule (S k) r
      end
  end.
End Schedule.

(** What a bare retry loop does: it runs an attempt, or it waits. *)
Inductive probe : Type :=
| Attempt (k : nat)
| Pause (ms : Z).

(** An operation that fails on every attempt, with a different error each
    time. *)
Definition failing_operation (k : nat) : M probe unit :=
  ([Attempt k], Throw (Error (NilZero.string_of_uint (Nat.to_uint k)))).

(** *** URL signing *)

(** The expiry a request asks for: its own, or one hour. *)
Definition requested_expiry (params : VideoService.GenerateUrlRequest) : Z :=
  match VideoService.expiresIn params with
  | Some n => n
  | None => 3600
  end.

(** A key has a character outside [alphanumeric, -, _, /]. *)
Definition has_foreign_char (key : string) : Prop :=
  exists c, In c (list_ascii_of_string key) /\ VideoService.key_char c = false.

(** A signing environment at T = 1700000000000 ms in which every
    collaborator succeeds; the response is built 5 ms after the request. *)
Definition signing_world : VideoService.World :=
  {| VideoService.resolveUrl := fun k => Ok ("https://cdn.example.com/" +++ k);
     VideoService.signerClock := 1700000000003;
     VideoService.setSeconds := fun t n => (t + 1000 * n)%Z;
     VideoService.getSignedUrl := fun u _ => Ok (u +++ "?Signature=s");
     VideoService.now := 1700000000005 |}.

Definition invalid_key_response : VideoService.VideoResponse :=
  {| VideoService.success := false; VideoService.data := None;
     VideoService.error := Some "Invalid videoKey format" |}.

(** *** Source keys *)

(** An identifier as the validator takes it: non-empty, over letters,
    digits, [_] and [-]. *)
Definition ident (s : string) : Prop :=
  string_nonempty s = true /\ all_chars Consumer.word_or_dash s = true.

(** The keys the validator accepts, with the two identifiers they carry:
    [courses], [videos] and the extension in any letter case. *)
Definition key_shape (key cid fn : string) : Prop :=
  exists C V E,
    key = C +++ "/" +++ cid +++ "/" +++ V +++ "/" +++ fn +++ "." +++ E
    /\ Regex.lower C = "courses" /\ Regex.lower V = "videos"
    /\ In (Regex.lower E) ["mp4"; "mov"; "avi"]
    /\ ident cid /\ ident fn.

(** The pattern as the specification words it: the literal segments
    [courses] and [videos], a non-empty [courseId] and [filename] without
    separators, and an extension that is mp4, mov or avi in any letter
    case. *)
Definition spec_pattern (key cid fn : string) : Prop :=
  exists ext,
    key = "courses/" +++ cid +++ "/videos/" +++ fn +++ "." +++ ext
    /\ string_nonempty cid = true /\ string_nonempty fn = true
    /\ all_chars (not_sep slash) cid = true
    /\ all_chars (not_sep slash) fn = true
    /\ In (Regex.lower ext) ["mp4"; "mov"; "avi"].

(** A notification record whose [s3.bucket] is an object and whose
    [s3.object.key] is the string [key]. *)
Definition record_key (record : Consumer.json) (key : string) : Prop :=
  exists props s3props bprops oprops,
    record = Consumer.JObj props
    /\ Consumer.lookup "s3" props = Some (Consumer.JObj s3props)
    /\ Consumer.lookup "bucket" s3props = Some (Consumer.JObj bprops)
    /\ Consumer.lookup "object" s3props = Some (Consumer.JObj oprops)
    /\ Consumer.lookup "key" oprops = Some (Consumer.JStr key).

Definition s3_record (bucketName key : string) : Consumer.json :=
  Consumer.JObj
    [("s3", Consumer.JObj
              [("bucket", Consumer.JObj [("name", Consumer.JStr bucketName)]);
               ("object", Consumer.JObj [("key", Consumer.JStr key)])])].

(** A dispatcher environment in which every collaborator succeeds. *)
Definition calm_world : Consumer.World :=
  {| Consumer.runTask := fun _ _ => None;
     Consumer.deleteMessage := None;
     Consumer.changeMessageVisibility := None |}.

(** *** Queue messages *)

(** [JSON.stringify] for values whose strings need no escaping. *)
Fixpoint stringify (v : Consumer.json) : string :=
  match v with
  | Consumer.JNull => "null"
  | Consumer.JBool true => "true"
  | Consumer.JBool false => "false"
  | Consumer.JNum text => text
  | Consumer.JStr s => dquote +++ s +++ dquote
  | Consumer.JArr items => "[" +++ Consumer.join "," (map stringify items) +++ "]"
  | Consumer.JObj props =>
      "{" +++ Consumer.join ","
                (map (fun kv => dquote +++ fst kv +++ dquote +++ ":"
                                +++ stringify (snd kv)) props)
      +++ "}"
  end.

(** A parser that knows the given documents by their text and rejects
    everything else. *)
Definition table_parse (docs : list Consumer.json) (body : string)
    : result Consumer.json :=
  match find (fun d => String.eqb (stringify d) body) docs with
  | Some d => Ok d
  | None => Throw (Exn "SyntaxError" "Unexpected token")
  end.

(** A synthetic test notification: an object with [Service] and [Event]
    that is the S3 test event or carries no [Records]. *)
Definition is_test_notification (event : Consumer.json) : Prop :=
  exists props,
    event = Consumer.JObj props
    /\ Consumer.lookup "Service" props <> None
    /\ Consumer.lookup "Event" props <> None
    /\ (Consumer.lookup "Event" props = Some (Consumer.JStr "s3:TestEvent")
        \/ Consumer.lookup "Records" props = None).

(** The launch for the record at [index] succeeds within the attempts
    allowed. *)
Definition launched (w : Consumer.World) (index : nat) : Prop :=
  exists attempt,
    (1 <= attempt <= Consumer.MAX_RETRIES)%nat
    /\ Consumer.runTask w index attempt = None.

(** A record was skipped as invalid or dispatched successfully. *)
Definition record_settled (w : Consumer.World) (index : nat)
    (record : Consumer.json) : Prop :=
  exists bucketName objectKey,
    Consumer.destructure record = Ok (bucketName, objectKey)
    /\ (Consumer.validateS3Key (Consumer.ToString objectKey) = false
        \/ launched w index).


(** Calls made while dispatching records. *)
Definition dispatch_event (ev : Consumer.event) : bool :=
  match ev with
  | Consumer.RunTask _ _ | Consumer.Sleep _ => true
  | _ => false
  end.

Definition extension (w : Consumer.World) (message : Consumer.Message)
    : Consumer.event :=
  Consumer.ChangeMessageVisibility (Consumer.ReceiptHandle message)
    Consumer.VISIBILITY_TIMEOUT
    (Consumer.succeeded (Consumer.changeMessageVisibility w)).

Definition test_event : Consumer.json :=
  Consumer.JObj [("Service", Consumer.JStr "Amazon S3");
                 ("Event", Consumer.JStr "s3:TestEvent");
                 ("Bucket", Consumer.JStr "uploads")].

Definition upload_event (key : string) : Consumer.json :=
  Consumer.JObj [("Records", Consumer.JArr [s3_record "uploads" key])].

Definition sample_parse : string -> result Consumer.json :=
  table_parse [test_event;
               upload_event "courses/c1/videos/a.mp4";
               upload_event "courses/c1/videos/b.mov";
               upload_event "courses/c1/videos/notes.txt"].

Definition message_of (id : string) (doc : Consumer.json) : Consumer.Message :=
  {| Consumer.MessageId := id;
     Consumer.Body := Some (stringify doc);
     Consumer.ReceiptHandle := "rh-" +++ id |}.




(** *** The pipeline *)

Definition sample_env : Transcoder.Env :=
  {| Transcoder.AWS_S3_TEMP_BUCKET := "uploads";
     Transcoder.AWS_S3_PROD_BUCKET := "streams";
     Transcoder.cwd := "/app" |}.

Definition sample_key : string := "courses/c1/videos/v.mp4".

Definition hls_files : list string :=
  ["playlist.m3u8"; "segment_000.ts"; "segment_001.ts"].

(** A first run: the source downloads, ffmpeg ends, nothing is in the
    destination yet, every upload succeeds. *)
Definition fresh_world : Transcoder.World :=
  {| Transcoder.mkdtemp := Ok "a1B2c3";
     Transcoder.download := fun _ => Transcoder.Downloaded 1048576;
     Transcoder.mkdir := fun _ => None;
     Transcoder.encoder := fun _ => Transcoder.FfmpegEnds hls_files;
     Transcoder.head := fun _ _ => Some (Exn "NotFound" "NotFound");
     Transcoder.readdir := fun _ => Ok hls_files;
     Transcoder.put := fun _ _ => None;
     Transcoder.writeFile := fun _ => None;
     Transcoder.rm := fun _ => None |}.


(** S3 serves an empty object at every attempt. *)
Definition empty_download_world : Transcoder.World :=
  {| Transcoder.mkdtemp := Ok "a1B2c3";
     Transcoder.download := fun _ => Transcoder.Downloaded 0;
     Transcoder.mkdir := fun _ => None;
     Transcoder.encoder := fun _ => Transcoder.FfmpegEnds hls_files;
     Transcoder.head := fun _ _ => Some (Exn "NotFound" "NotFound");
     Transcoder.readdir := fun _ => Ok hls_files;
     Transcoder.put := fun _ _ => None;
     Transcoder.writeFile := fun _ => None;
     Transcoder.rm := fun _ => None |}.

(** The lines of a playlist. *)
Definition lines (text : string) : list string := split "010"%char text.

(** The lines of a playlist that are URIs: neither empty nor tags. *)
Definition uri_lines (text : string) : list string :=
  filter (fun l => string_nonempty l && negb (String.prefix "#" l)) (lines text).

(** The tag lines that introduce a variant stream. *)
Definition stream_inf_lines (text : string) : list string :=
  filter (String.prefix "#EXT-X-STREAM-INF:") (lines text).

(** Where a variant's own playlist lies relative to the master playlist. *)
Definition variant_uri (res : Transcoder.Resolution) : string :=
  Transcoder.name res +++ "/playlist.m3u8".

(** What the calls of a trace may be: [enc] bounds the variants the
    encoder is run for, [up] the keys uploaded. *)
Definition allowed (enc : Transcoder.Resolution -> Prop) (up : string -> Prop)
    (ev : Transcoder.event) : Prop :=
  (forall res, Transcoder.encoder_call ev = Some res -> enc res)
  /\ (forall key, Transcoder.upload_key ev = Some key -> up key).

Definition nothing {A : Type} : A -> Prop := fun _ => False.
Definition anything {A : Type} : A -> Prop := fun _ => True.

(** The keys under which the files of a variant are stored. *)
Definition variant_file_key (p : Transcoder.S3Paths)
    (res : Transcoder.Resolution) (key : string) : Prop :=
  exists file,
    key = Transcoder.getHLSBasePath p +++ "/" +++ Transcoder.name res
          +++ "/" +++ file.

(** The source is unreadable for the encoder. *)
Definition bad_source_world : Transcoder.World :=
  {| Transcoder.mkdtemp := Ok "a1B2c3";
     Transcoder.download := fun _ => Transcoder.Downloaded 1048576;
     Transcoder.mkdir := fun _ => None;
     Transcoder.encoder := fun _ =>
       Transcoder.FfmpegFails [] "ffmpeg exited with code 1" "moov atom not found";
     Transcoder.head := fun _ _ => Some (Exn "NotFound" "NotFound");
     Transcoder.readdir := fun _ => Ok hls_files;
     Transcoder.put := fun _ _ => None;
     Transcoder.writeFile := fun _ => None;
     Transcoder.rm := fun _ => None |}.


(** The keys the pipeline may upload to: the master playlist, and the files
    of the variants of the fan-out. *)
Definition pipeline_upload_key (p : Transcoder.S3Paths) (key : string) : Prop :=
  key = Transcoder.getMasterPlaylistKey p
  \/ exists res,
       In res [Transcoder.res_1080p; Transcoder.res_720p; Transcoder.res_480p]
       /\ variant_file_key p res key.

(** *** Further properties: retry, uploads *)

(** Attempt [k] of [operation] is the first to end well, with [v]. *)
Definition first_success {Ev A : Type} (operation : nat -> M Ev A)
    (k : nat) (v : A) : Prop :=
  (forall j, (1 <= j < k)%nat -> exists e, snd (operation j) = Throw e)
  /\ snd (operation k) = Ok v.

(** An operation that fails twice and then returns its attempt number. *)
Definition flaky_operation (k : nat) : M probe nat :=
  ([Attempt k],
   if (k <? 3)%nat then Throw (Error "ETIMEDOUT") else Ok k).

(** The content type [uploadHLSFiles] gives a file. *)
Definition upload_contentType (file : string) : string :=
  if Transcoder.endsWith file ".m3u8" then "application/x-mpegURL"
  else "video/MP2T".

Definition is_get (ev : Transcoder.event) : bool :=
  match ev with Transcoder.S3GetObject _ _ => true | _ => false end.

(** The third download attempt is the first to bring a non-empty file. *)
Definition slow_download_world : Transcoder.World :=
  {| Transcoder.mkdtemp := Ok "a1B2c3";
     Transcoder.download := fun k =>
       match k with
       | 1 => Transcoder.GetObjectFails (Exn "TimeoutError" "socket hang up")
       | 2 => Transcoder.Downloaded 0
       | _ => Transcoder.Downloaded 1048576
       end;
     Transcoder.mkdir := fun _ => None;
     Transcoder.encoder := fun _ => Transcoder.FfmpegEnds hls_files;
     Transcoder.head := fun _ _ => Some (Exn "NotFound" "NotFound");
     Transcoder.readdir := fun _ => Ok hls_files;
     Transcoder.put := fun _ _ => None;
     Transcoder.writeFile := fun _ => None;
     Transcoder.rm := fun _ => None |}.

(** The body stream of the second attempt fails. *)
Definition second_body_fails (attempt : nat) : bool := (attempt =? 2)%nat.

(** No body stream fails. *)
Definition sound_bodies (attempt : nat) : bool := false.

(** The first attempt cannot get the object; the later ones bring it. *)
Definition retried_download_world : Transcoder.World :=
  {| Transcoder.mkdtemp := Ok "a1B2c3";
     Transcoder.download := fun k =>
       match k with
       | 1 => Transcoder.GetObjectFails (Exn "TimeoutError" "socket hang up")
       | _ => Transcoder.Downloaded 1048576
       end;
     Transcoder.mkdir := fun _ => None;
     Transcoder.encoder := fun _ => Transcoder.FfmpegEnds hls_files;
     Transcoder.head := fun _ _ => Some (Exn "NotFound" "NotFound");
     Transcoder.readdir := fun _ => Ok hls_files;
     Transcoder.put := fun _ _ => None;
     Transcoder.writeFile := fun _ => None;
     Transcoder.rm := fun _ => None |}.

(** *** Further properties: the phases of a run *)

(** The two pauses three attempts can lead to. *)
Definition backoff_pause (ms : Z) : Prop := ms = 1000%Z \/ ms = 2000%Z.

(** What the sequential part may call after the workspace exists. *)
Definition start_event (ev : Transcoder.event) : Prop :=
  match ev with
  | Transcoder.S3GetObject _ _ | Transcoder.CreateWriteStream _ _
  | Transcoder.Stat _ | Transcoder.Mkdir _ _ | Transcoder.ExistsSync _
  | Transcoder.Ffprobe _ | Transcoder.Ffmpeg _ _ _ _ => True
  | Transcoder.Sleep ms => backoff_pause ms
  | _ => False
  end.

(** What a promise of the fan-out may call. *)
Definition variant_event (ev : Transcoder.event) : Prop :=
  match ev with
  | Transcoder.S3HeadObject _ _ | Transcoder.ExistsSync _
  | Transcoder.Ffprobe _ | Transcoder.Ffmpeg _ _ _ _
  | Transcoder.Readdir _ | Transcoder.S3PutObject _ _ _ _ => True
  | Transcoder.Sleep ms => backoff_pause ms
  | _ => False
  end.

(** What may be called after the join, before the cleanup. *)
Definition finish_event (ev : Transcoder.event) : Prop :=
  match ev with
  | Transcoder.WriteFile _ _ _ | Transcoder.S3PutObject _ _ _ _ => True
  | Transcoder.Sleep ms => backoff_pause ms
  | _ => False
  end.

(** The name under which [downloadFromS3] stores the source. *)
Definition downloaded_file (sourceKey : string) : string :=
  "original-" +++ path_basename sourceKey.

(** Some attempt among the first three brings a non-empty file. *)
Definition downloadable (w : Transcoder.World) : Prop :=
  exists k size,
    (1 <= k <= 3)%nat /\ Transcoder.download w k = Transcoder.Downloaded size
    /\ size <> 0%N.

(** A call that removes nothing from the disk. *)
Definition keeps_files (ev : Transcoder.event) : Prop :=
  match ev with Transcoder.Rm _ true => False | _ => True end.

(** The call puts the master playlist of [p]. *)
Definition puts_master (p : Transcoder.S3Paths) (ev : Transcoder.event) : Prop :=
  Transcoder.upload_key ev = Some (Transcoder.getMasterPlaylistKey p).

(** The destination cannot be probed: access is denied. *)
Definition denied_world : Transcoder.World :=
  {| Transcoder.mkdtemp := Ok "a1B2c3";
     Transcoder.download := fun _ => Transcoder.Downloaded 1048576;
     Transcoder.mkdir := fun _ => None;
     Transcoder.encoder := fun _ => Transcoder.FfmpegEnds hls_files;
     Transcoder.head := fun _ _ => Some (Exn "Forbidden" "Access Denied");
     Transcoder.readdir := fun _ => Ok hls_files;
     Transcoder.put := fun _ _ => None;
     Transcoder.writeFile := fun _ => None;
     Transcoder.rm := fun _ => None |}.

(** Every variable of [required] is set to a non-empty string. *)
Definition all_set (required : list string) (penv : environment) : Prop :=
  forall name, In name required ->
    exists c s, penv name = Some (String c s).

(** The variables of [required] that are not set, in the order of
    [required]. *)
Definition missing_of (required : list string) (penv : environment)
    : list string :=
  filter (fun name => falsy (penv name)) required.

(** The environment the dispatcher's container overrides give a task, and
    nothing else. *)
Definition override_env (bucketName prodBucket objectKey : string)
    : environment :=
  fun name =>
    if String.eqb name "AWS_S3_TEMP_BUCKET" then Some bucketName
    else if String.eqb name "AWS_S3_PROD_BUCKET" then Some prodBucket
    else if String.eqb name "AWS_S3_TEMP_KEY" then Some objectKey
    else None.

(** A complete environment for the transcoder. *)
Definition task_env : environment :=
  fun name =>
    if String.eqb name "AWS_REGION" then Some "ap-south-1"
    else override_env "uploads" "streams" sample_key name.

(** *** Further properties: the dispatcher *)

Definition is_launch (ev : Consumer.event) : bool :=
  match ev with Consumer.RunTask _ _ => true | _ => false end.

(** One notification for three uploads. *)
Definition three_uploads : Consumer.json :=
  Consumer.JObj
    [("Records",
      Consumer.JArr [s3_record "uploads" "courses/c1/videos/a.mp4";
                     s3_record "uploads" "courses/c1/videos/b.mov";
                     s3_record "uploads" "courses/c1/videos/c.avi"])].

(** ECS refuses every launch for the second record, and the queue refuses
    to extend the visibility. *)
Definition second_record_world : Consumer.World :=
  {| Consumer.runTask := fun index _ =>
       if (index =? 1)%nat
       then Some (Exn "ThrottlingException" "Rate exceeded") else None;
     Consumer.deleteMessage := None;
     Consumer.changeMessageVisibility :=
       Some (Exn "ReceiptHandleIsInvalid" "expired") |}.

(** Every launch succeeds, the delete command does not. *)
Definition delete_fails_world : Consumer.World :=
  {| Consumer.runTask := fun _ _ => None;
     Consumer.deleteMessage := Some (Exn "RequestThrottled" "slow down");
     Consumer.changeMessageVisibility := None |}.

(** *** Further properties: streaming URLs and routes *)

(** The key under which the signer is asked for the master playlist. *)
Definition stream_master_key (courseId videoId : string) : string :=
  (courseId +++ "/hls/" +++ videoId) +++ "/master.m3u8".

Definition stream_quality_key (courseId videoId quality : string) : string :=
  (courseId +++ "/hls/" +++ videoId) +++ "/" +++ quality +++ "/playlist.m3u8".

(** The date the signer is given for a URL of the default validity. *)
Definition default_deadline (w : VideoService.World) : Z :=
  VideoService.setSeconds w (VideoService.signerClock w)
    VideoService.DEFAULT_EXPIRES_IN.

(** The signing of [key] goes through in [w], and gives [signed]. *)
Definition signs (w : VideoService.World) (key url signed : string) : Prop :=
  VideoService.resolveUrl w key = Ok url
  /\ (Z.abs (default_deadline w) <= VideoService.MAX_TIME)%Z
  /\ VideoService.getSignedUrl w url (default_deadline w) = Ok signed.

(** The signer refuses everything. *)
Definition refusing_world : VideoService.World :=
  {| VideoService.resolveUrl := fun k => Ok ("https://cdn.example.com/" +++ k);
     VideoService.signerClock := 1700000000003;
     VideoService.setSeconds := fun t n => (t + 1000 * n)%Z;
     VideoService.getSignedUrl := fun _ _ =>
       Throw (Error "Invalid private key");
     VideoService.now := 1700000000005 |}.

(** The quality a stream request asks for, when it is a supported one. *)
Definition wanted_quality (params : VideoService.StreamRequest)
    : option string :=
  match VideoService.quality params with
  | Some q =>
      if VideoService.includes VideoService.SUPPORTED_QUALITIES q
      then Some q else None
  | None => None
  end.

Definition stream_failure : VideoService.StreamResponse :=
  {| VideoService.stream_success := false;
     VideoService.stream_data := None;
     VideoService.stream_error := Some "Failed to generate streaming URLs" |}.

(** *** Further properties: routes *)

(** Identifiers whose characters the player page would interpret. *)
Definition markup_id : string := "<b>x</b>".

(** *** Further properties: from the queue to the output *)

(** The prefix under which everything of a video is stored. *)
Definition output_prefix (cid fn : string) : string :=
  cid +++ "/hls/" +++ fn +++ "/".


(** *** Further properties: the master playlist *)

(** The tag line [generateMasterPlaylist] writes for a variant. *)
Definition stream_inf_line (v : Transcoder.Variant) : string :=
  "#EXT-X-STREAM-INF:BANDWIDTH="
  +++ number_to_string (Transcoder.bandwidth v)
  +++ ",RESOLUTION=" +++ Transcoder.resolution v
  +++ ",CODECS=" +++ dquote +++ "avc1.4d401f,mp4a.40.2" +++ dquote.

(** The URI line that follows it. *)
Definition uri_line (v : Transcoder.Variant) : string :=
  Transcoder.resolution v +++ "/playlist.m3u8".

(** A resolution string that fits on a line and is no tag. *)
Definition plain_resolution (v : Transcoder.Variant) : Prop :=
  all_chars (not_sep "010"%char) (Transcoder.resolution v) = true
  /\ String.prefix "#" (Transcoder.resolution v) = false.

(** The text written for a list of variants, after what is there. *)
Fixpoint entries (variants : list Transcoder.Variant) : string :=
  match variants with
  | [] => ""
  | v :: variants' =>
      stream_inf_line v +++ newline +++ uri_line v +++ newline
      +++ entries variants'
  end.

(** *** Further properties: deadlines, and keys outside the pattern *)

(** The date the signer is given for a request. *)
Definition deadline (w : VideoService.World)
    (params : VideoService.GenerateUrlRequest) : Z :=
  VideoService.setSeconds w (VideoService.signerClock w)
    (requested_expiry params).

(** The signing a request asks for goes through in [w], and gives
    [signed]. *)
Definition signs_request (w : VideoService.World)
    (params : VideoService.GenerateUrlRequest) (url signed : string) : Prop :=
  VideoService.resolveUrl w (VideoService.videoKey params) = Ok url
  /\ (Z.abs (deadline w params) <= VideoService.MAX_TIME)%Z
  /\ VideoService.getSignedUrl w url (deadline w params) = Ok signed.

(** The response is built 40 ms after the signer read its clock. *)
Definition late_world : VideoService.World :=
  {| VideoService.resolveUrl := fun k => Ok ("https://cdn.example.com/" +++ k);
     VideoService.signerClock := 1700000000000;
     VideoService.setSeconds := fun t n => (t + 1000 * n)%Z;
     VideoService.getSignedUrl := fun u _ => Ok (u +++ "?Signature=s");
     VideoService.now := 1700000000040 |}.

(** *** Further properties: the MP4 revision *)

(** A variant's file is missing from the destination. *)
Definition mp4_missing (w : TranscoderMp4.World) (env : Transcoder.Env)
    (key : string) : Prop :=
  exists msg,
    TranscoderMp4.head w (Transcoder.AWS_S3_PROD_BUCKET env) key
    = Some (Exn "NotFound" msg).

(** The destination is empty; [unlink] fails with ENOENT for a variant
    that was never encoded, here none. *)
Definition mp4_world : TranscoderMp4.World :=
  {| TranscoderMp4.getObject := None;
     TranscoderMp4.writeFile := fun _ => None;
     TranscoderMp4.head := fun _ _ => Some (Exn "NotFound" "NotFound");
     TranscoderMp4.transcode := fun output =>
       if String.eqb output "video-v-480p.mp4"
       then Some (Error "ffmpeg exited with code 1") else None;
     TranscoderMp4.put := fun _ => None;
     TranscoderMp4.unlink := fun _ => None |}.

(** *** Further properties: failures before and after the variants *)

(** The calls that set a job up: workspace, download, directories. *)
Definition setup_event (ev : Transcoder.event) : Prop :=
  match ev with
  | Transcoder.Mkdtemp _ | Transcoder.S3GetObject _ _
  | Transcoder.CreateWriteStream _ _ | Transcoder.Stat _
  | Transcoder.Sleep _ | Transcoder.Mkdir _ _ => True
  | _ => False
  end.

(** Some output directory cannot be created. *)
Definition mkdir_fails (w : Transcoder.World) (workDir : string) : Prop :=
  exists res e,
    In res Transcoder.RESOLUTIONS
    /\ Transcoder.mkdir w (workDir +++ "/" +++ Transcoder.name res) = Some e.

(** The disk is full when the master playlist is to be written. *)
Definition disk_full_world : Transcoder.World :=
  {| Transcoder.mkdtemp := Ok "a1B2c3";
     Transcoder.download := fun _ => Transcoder.Downloaded 1048576;
     Transcoder.mkdir := fun _ => None;
     Transcoder.encoder := fun _ => Transcoder.FfmpegEnds hls_files;
     Transcoder.head := fun _ _ => None;
     Transcoder.readdir := fun _ => Ok hls_files;
     Transcoder.put := fun _ _ => None;
     Transcoder.writeFile := fun _ => Some (Exn "ENOSPC" "no space left");
     Transcoder.rm := fun _ => None |}.

(** The directory of the 480p variant cannot be created. *)
Definition readonly_world : Transcoder.World :=
  {| Transcoder.mkdtemp := Ok "a1B2c3";
     Transcoder.download := fun _ => Transcoder.Downloaded 1048576;
     Transcoder.mkdir := fun dir =>
       if String.eqb dir "hls-a1B2c3/480p"
       then Some (Exn "EACCES" "permission denied") else None;
     Transcoder.encoder := fun _ => Transcoder.FfmpegEnds hls_files;
     Transcoder.head := fun _ _ => Some (Exn "NotFound" "NotFound");
     Transcoder.readdir := fun _ => Ok hls_files;
     Transcoder.put := fun _ _ => None;
     Transcoder.writeFile := fun _ => None;
     Transcoder.rm := fun _ => None |}.

End Spec.

(* ================================================================== *)
(** * Properties *)
(* ================================================================== *)

(** ** Strings *)

Section StringFacts.
Import Js.

Lemma append_empty_r (s : string) : s +++ "" = s.
Proof. induction s as [|c s IH]; simpl; [reflexivity | now rewrite IH]. Qed.

Lemma append_assoc (a b c : string) : (a +++ b) +++ c = a +++ b +++ c.
Proof. induction a as [|x a IH]; simpl; [reflexivity | now rewrite IH]. Qed.

Lemma append_empty_inv (a b : string) : a +++ b = "" -> a = "" /\ b = "".
Proof. destruct a; simpl; [auto | discriminate]. Qed.

Lemma append_cancel_l (a b c : string) : a +++ b = a +++ c -> b = c.
Proof.
  induction a as [|x a IH]; simpl; intros H; [exact H|].
  injection H as H. auto.
Qed.

Lemma all_chars_append p a b :
  all_chars p (a +++ b) = all_chars p a && all_chars p b.
Proof.
  induction a as [|x a IH]; simpl; [reflexivity|].
  now rewrite IH, andb_assoc.
Qed.

Lemma all_chars_In p s :
  all_chars p s = true <->
  (forall c, In c (list_ascii_of_string s) -> p c = true).
Proof.
  induction s as [|x s IH]; simpl.
  - split; [intros _ c [] | reflexivity].
  - rewrite andb_true_iff, IH. split.
    + intros [Hx Hs] c [<- | Hc]; auto.
    + intros H. split; [apply H; now left | intros c Hc; apply H; now right].
Qed.

(** Splitting glues back: a separator-free head is the first part. *)
Lemma split_head sep (a rest : string) :
  all_chars (not_sep sep) a = true ->
  split sep (a +++ String sep rest) = a :: split sep rest.
Proof.
  induction a as [|x a IH]; simpl; intros H.
  - now rewrite Ascii.eqb_refl.
  - apply andb_true_iff in H as [Hx Ha]. unfold not_sep in Hx.
    apply negb_true_iff in Hx. rewrite Hx, (IH Ha). reflexivity.
Qed.

Lemma split_no_sep sep (a : string) :
  all_chars (not_sep sep) a = true -> split sep a = [a].
Proof.
  induction a as [|x a IH]; simpl; intros H; [reflexivity|].
  apply andb_true_iff in H as [Hx Ha]. unfold not_sep in Hx.
  apply negb_true_iff in Hx. now rewrite Hx, (IH Ha).
Qed.

Lemma last_index_none c (s : string) :
  all_chars (not_sep c) s = true -> last_index c s = None.
Proof.
  induction s as [|x s IH]; simpl; intros H; [reflexivity|].
  apply andb_true_iff in H as [Hx Hs]. unfold not_sep in Hx.
  apply negb_true_iff in Hx. now rewrite (IH Hs), Hx.
Qed.

Lemma last_index_append c (a b : string) :
  all_chars (not_sep c) b = true ->
  last_index c (a +++ String c b) = Some (String.length a).
Proof.
  intros Hb. induction a as [|x a IH]; simpl.
  - now rewrite (last_index_none _ _ Hb), Ascii.eqb_refl.
  - now rewrite IH.
Qed.

Lemma substring_append (a b : string) :
  substring 0 (String.length a) (a +++ b) = a.
Proof.
  induction a as [|x a IH]; simpl.
  - now destruct b.
  - now rewrite IH.
Qed.

End StringFacts.

(** ** Regular expressions: the matcher decides the language *)

Section RegexFacts.
Import Js Regex.

Lemma matches_cat_inv r1 r2 s :
  Matches (Cat r1 r2) s ->
  exists s1 s2, s = s1 +++ s2 /\ Matches r1 s1 /\ Matches r2 s2.
Proof. intros H. inversion H; subst. eauto. Qed.

Lemma matches_alt_inv r1 r2 s :
  Matches (Alt r1 r2) s -> Matches r1 s \/ Matches r2 s.
Proof. intros H. inversion H; subst; auto. Qed.

Lemma matches_class_inv p s :
  Matches (Class p) s -> exists c, s = String c "" /\ p c = true.
Proof. intros H. inversion H; subst. eauto. Qed.

Lemma matches_eps_inv s : Matches Eps s -> s = "".
Proof. intros H. now inversion H. Qed.

(** A non-empty match of a star starts with a non-empty match of the
    body. *)
Lemma matches_star_cons r c s :
  Matches (Star r) (String c s) ->
  exists s1 s2, s = s1 +++ s2 /\ Matches r (String c s1) /\ Matches (Star r) s2.
Proof.
  intros H. remember (Star r) as r' eqn:Er. remember (String c s) as t eqn:Et.
  revert c s Et.
  induction H as [| | | | | |r0 s1 s2 H1 _ H2 IH2]; try discriminate.
  injection Er as ->. intros c s Et.
  destruct s1 as [|c1 s1]; simpl in Et.
  - apply (IH2 eq_refl _ _ Et).
  - injection Et as E1 E2. subst c1 s. exists s1, s2. auto.
Qed.

Lemma nullable_spec r : nullable r = true <-> Matches r "".
Proof.
  induction r as [| |p|r1 IH1 r2 IH2|r1 IH1 r2 IH2|r IH]; simpl.
  - split; [discriminate | intros H; inversion H].
  - split; [constructor | reflexivity].
  - split; [discriminate | intros H; inversion H].
  - rewrite andb_true_iff, IH1, IH2. split.
    + intros [H1 H2]. change "" with ("" +++ ""). now constructor.
    + intros H. apply matches_cat_inv in H as (s1 & s2 & E & H1 & H2).
      symmetry in E. apply append_empty_inv in E as [-> ->]. auto.
  - rewrite orb_true_iff, IH1, IH2. split.
    + intros [H|H]; [now apply MAltL | now apply MAltR].
    + apply matches_alt_inv.
  - split; [constructor | reflexivity].
Qed.

Lemma deriv_spec c r s : Matches (deriv c r) s <-> Matches r (String c s).
Proof.
  revert s.
  induction r as [| |p|r1 IH1 r2 IH2|r1 IH1 r2 IH2|r IH]; simpl; intros s.
  - split; intros H; inversion H.
  - split; intros H; inversion H.
  - destruct (p c) eqn:Hp; split; intros H.
    + apply matches_eps_inv in H as ->. now constructor.
    + inversion H; subst. constructor.
    + inversion H.
    + inversion H; subst. congruence.
  - assert (Hcat : forall t, Matches (Cat (deriv c r1) r2) t ->
                             Matches (Cat r1 r2) (String c t)).
    { intros t H. apply matches_cat_inv in H as (s1 & s2 & -> & H1 & H2).
      apply IH1 in H1. change (String c (s1 +++ s2)) with (String c s1 +++ s2).
      now constructor. }
    assert (Hinv : Matches (Cat r1 r2) (String c s) ->
                   Matches (Cat (deriv c r1) r2) s \/
                   (Matches r1 "" /\ Matches r2 (String c s))).
    { intros H. apply matches_cat_inv in H as (s1 & s2 & E & H1 & H2).
      destruct s1 as [|c1 s1]; simpl in E.
      - right. subst s2. auto.
      - injection E as <- ->. left. constructor; [now apply IH1 | exact H2]. }
    destruct (nullable r1) eqn:Hn; split; intros H.
    + apply matches_alt_inv in H as [H|H]; [now apply Hcat|].
      apply IH2 in H. apply nullable_spec in Hn.
      change (String c s) with ("" +++ String c s). now constructor.
    + apply Hinv in H as [H|[_ H]]; [now apply MAltL|].
      apply MAltR. now apply IH2.
    + now apply Hcat.
    + apply Hinv in H as [H|[H _]]; [exact H|].
      apply nullable_spec in H. congruence.
  - split; intros H.
    + apply matches_alt_inv in H as [H|H];
        [apply MAltL; now apply IH1 | apply MAltR; now apply IH2].
    + apply matches_alt_inv in H as [H|H];
        [apply MAltL; now apply IH1 | apply MAltR; now apply IH2].
  - split; intros H.
    + apply matches_cat_inv in H as (s1 & s2 & -> & H1 & H2).
      apply IH in H1. change (String c (s1 +++ s2)) with (String c s1 +++ s2).
      now constructor.
    + apply matches_star_cons in H as (s1 & s2 & -> & H1 & H2).
      constructor; [now apply IH | exact H2].
Qed.

Lemma test_spec r s : test r s = true <-> Matches r s.
Proof.
  revert r. induction s as [|c s IH]; intros r; simpl.
  - apply nullable_spec.
  - rewrite IH. apply deriv_spec.
Qed.

(** [[class]+] matches the non-empty strings over the class. *)
Lemma matches_star_class p s :
  Matches (Star (Class p)) s <-> all_chars p s = true.
Proof.
  induction s as [|c s IH]; simpl.
  - split; [reflexivity | constructor].
  - rewrite andb_true_iff, <- IH. split.
    + intros H. apply matches_star_cons in H as (s1 & s2 & -> & H1 & H2).
      apply matches_class_inv in H1 as (c' & E & Hp).
      injection E as E1 E2. subst c' s1. simpl. auto.
    + intros [Hp H]. change (String c s) with (String c "" +++ s).
      constructor; [now constructor | exact H].
Qed.

Lemma matches_plus_class p s :
  Matches (Plus (Class p)) s <->
  Js.string_nonempty s = true /\ all_chars p s = true.
Proof.
  unfold Plus. split.
  - intros H. apply matches_cat_inv in H as (s1 & s2 & -> & H1 & H2).
    apply matches_class_inv in H1 as (c & -> & Hp).
    apply matches_star_class in H2. simpl. now rewrite Hp, H2.
  - destruct s as [|c s]; simpl; intros [Hne H]; [discriminate|].
    apply andb_true_iff in H as [Hp H].
    change (String c s) with (String c "" +++ s).
    constructor; [now constructor | now apply matches_star_class].
Qed.

Lemma lower_append a b : lower (a +++ b) = lower a +++ lower b.
Proof. induction a as [|x a IH]; simpl; [reflexivity | now rewrite IH]. Qed.

(** A literal under the [i] flag matches the strings equal to it up to
    letter case. *)
Lemma matches_ilit lit s : Matches (ilit lit) s <-> lower s = lower lit.
Proof.
  revert s. induction lit as [|c lit IH]; simpl; intros s.
  - split.
    + intros H. apply matches_eps_inv in H as ->. reflexivity.
    + destruct s; [constructor | discriminate].
  - split.
    + intros H. apply matches_cat_inv in H as (s1 & s2 & -> & H1 & H2).
      apply matches_class_inv in H1 as (x & -> & Hx).
      apply Ascii.eqb_eq in Hx. apply IH in H2. simpl. now rewrite Hx, H2.
    + destruct s as [|x s]; simpl; [discriminate|].
      intros H. injection H as Hx Hs.
      change (String x s) with (String x "" +++ s).
      constructor; [|now apply IH].
      constructor. now apply Ascii.eqb_eq.
Qed.
End RegexFacts.

(** ** Retry *)

Section RetryFacts.
Import Js Retry Spec.
Variables (Ev A : Type) (Sleep : Z -> Ev).
Variable operation : nat -> M Ev A.
Variable calls : nat -> list Ev.
Variable fails : nat -> exn.
Hypothesis always_fails : forall k, operation k = (calls k, Throw (fails k)).

Lemma spec_delay_backoff base ceiling k :
  (1 <= k)%nat -> backoff base ceiling (k - 1) = spec_delay base ceiling k.
Proof.
  intros Hk. unfold backoff, spec_delay.
  replace (Z.of_nat (k - 1)) with (Z.of_nat k - 1)%Z by lia. reflexivity.
Qed.

Lemma withRetry_loop_fails base maxRetries remaining attempt lastError :
  (1 <= attempt)%nat -> (attempt + remaining = S maxRetries)%nat ->
  withRetry_loop Sleep operation base maxRetries remaining attempt lastError
  = (retry_schedule Sleep calls (spec_delay base 10000) attempt remaining,
     Throw (match remaining with 0 => lastError | S _ => fails maxRetries end)).
Proof.
  revert attempt lastError.
  induction remaining as [|r IH]; intros attempt lastError H1 Hsum.
  - reflexivity.
  - cbn [withRetry_loop retry_schedule]. rewrite always_fails.
    unfold try_catch. destruct (Nat.eqb_spec attempt maxRetries) as [E|N].
    + assert (r = 0%nat) by lia. subst r attempt. reflexivity.
    + destruct r as [|r']; [lia|].
      unfold bind, emit. rewrite IH by lia.
      rewrite spec_delay_backoff by lia. reflexivity.
Qed.

Lemma retryWithBackoff_loop_fails retries remaining i :
  (i + remaining = retries)%nat ->
  retryWithBackoff_loop Sleep operation retries remaining i
  = (retry_schedule Sleep calls (spec_delay 1000 5000) (S i) remaining,
     Throw (match remaining with
            | 0 => Error "Retry failed"
            | S _ => fails retries
            end)).
Proof.
  revert i. induction remaining as [|r IH]; intros i Hsum.
  - reflexivity.
  - cbn [retryWithBackoff_loop retry_schedule].
    replace (i + 1)%nat with (S i) by lia. rewrite always_fails.
    unfold try_catch. destruct (Nat.eqb_spec i (retries - 1)) as [E|N].
    + assert (r = 0%nat) by lia. subst r.
      replace retries with (S i) by lia. reflexivity.
    + destruct r as [|r']; [lia|].
      unfold bind, emit. rewrite IH by lia.
      rewrite <- (spec_delay_backoff 1000 5000 (k := S i)) by lia.
      replace (S i - 1)%nat with i by lia. reflexivity.
Qed.

(** C5.  An operation that fails on every attempt is attempted exactly
    [maxAttempts] times, attempt [k] (for [k < maxAttempts]) is followed
    by a delay of [min(baseDelay * 2^(k-1), delayCeiling)], and when at
    least one attempt ran the error raised is the one of the last
    attempt.  This holds for [withRetry] (base [RETRY_DELAY], ceiling
    10000) and for [retryWithBackoff] (base 1000, ceiling 5000). *)
Theorem retry_exhaustion (baseDelay : Z) (maxAttempts : nat) :
  fst (withRetry Sleep operation baseDelay maxAttempts)
    = retry_schedule Sleep calls (spec_delay baseDelay 10000) 1 maxAttempts
  /\ fst (retryWithBackoff Sleep operation maxAttempts)
    = retry_schedule Sleep calls (spec_delay 1000 5000) 1 maxAttempts
  /\ ((1 <= maxAttempts)%nat ->
      snd (withRetry Sleep operation baseDelay maxAttempts)
        = Throw (fails maxAttempts)
      /\ snd (retryWithBackoff Sleep operation maxAttempts)
        = Throw (fails maxAttempts)).
Proof.
  unfold withRetry, retryWithBackoff.
  rewrite withRetry_loop_fails, retryWithBackoff_loop_fails by lia.
  repeat split; destruct maxAttempts; simpl; try reflexivity; lia.
Qed.
End RetryFacts.

(** The executors on an operation whose [k]-th attempt fails with error
    [k]: three attempts of [withRetry], five of [retryWithBackoff]. *)
Lemma retry_exhaustion_witness :
  Retry.withRetry Spec.Pause Spec.failing_operation 1000 3
  = ([Spec.Attempt 1; Spec.Pause 1000; Spec.Attempt 2; Spec.Pause 2000;
      Spec.Attempt 3],
     Js.Throw (Js.Error "3"))
  /\ Retry.retryWithBackoff Spec.Pause Spec.failing_operation 5
     = ([Spec.Attempt 1; Spec.Pause 1000; Spec.Attempt 2; Spec.Pause 2000;
         Spec.Attempt 3; Spec.Pause 4000; Spec.Attempt 4; Spec.Pause 5000;
         Spec.Attempt 5],
        Js.Throw (Js.Error "5")).
Proof.
  pose proof (@retry_exhaustion Spec.probe unit Spec.Pause
                Spec.failing_operation (fun k => [Spec.Attempt k])
                (fun k => Js.Error (NilZero.string_of_uint (Nat.to_uint k)))
                (fun k => eq_refl)) as H.
  destruct (H 1000%Z 3%nat) as (H1 & _ & H3).
  destruct (H 1000%Z 5%nat) as (_ & H2 & H4).
  split.
  - destruct (H3 ltac:(lia)) as [E _].
    rewrite (surjective_pairing (Retry.withRetry _ _ _ _)), H1, E. reflexivity.
  - destruct (H4 ltac:(lia)) as [_ E].
    rewrite (surjective_pairing (Retry.retryWithBackoff _ _ _)), H2, E. reflexivity.
Defined.

(** ** URL signing *)

Section VideoServiceFacts.
Import Js Regex VideoService Spec.
Local Open Scope Z_scope.
#[local] Arguments Z.mul : simpl never.
#[local] Arguments Z.add : simpl never.

Lemma isValidKey_chars key :
  isValidKey key = string_nonempty key && all_chars key_char key.
Proof.
  unfold isValidKey. destruct (string_nonempty key) eqn:Hne; [|reflexivity].
  simpl. apply eq_true_iff_eq. unfold validKeyPattern.
  rewrite test_spec, matches_plus_class, Hne. tauto.
Qed.

Lemma foreign_char_invalid key : has_foreign_char key -> isValidKey key = false.
Proof.
  intros (c & Hin & Hc). rewrite isValidKey_chars.
  apply andb_false_iff. right. apply not_true_is_false. intros H.
  rewrite all_chars_In in H. specialize (H c Hin). congruence.
Qed.


Lemma generateUrl_data (w : World) (params : GenerateUrlRequest) tr resp d :
  generateUrl w params = (tr, Ok resp) -> data resp = Some d ->
  data_expiresIn d = requested_expiry params
  /\ expiresAt d = now w + 1000 * requested_expiry params.
Proof.
  unfold generateUrl, requested_expiry. change 3600 with DEFAULT_EXPIRES_IN.
  generalize (match expiresIn params with
              | Some n => n
              | None => DEFAULT_EXPIRES_IN
              end).
  intros e.
  destruct (negb (isValidKey (videoKey params))).
  { unfold ret. intros [= <- <-]. discriminate. }
  unfold try_catch, bind, generateSignedUrl, lift, getExpiryDate, toISOString, ret.
  destruct (resolveUrl w (videoKey params)) as [u|]; simpl.
  2:{ intros [= <- <-]. discriminate. }
  destruct (Z.abs (setSeconds w (signerClock w) e) <=? MAX_TIME); simpl.
  2:{ intros [= <- <-]. discriminate. }
  destruct (getSignedUrl w u _); simpl.
  2:{ intros [= <- <-]. discriminate. }
  destruct (Z.abs (now w + e * 1000) <=? MAX_TIME); simpl.
  2:{ intros [= <- <-]. discriminate. }
  intros [= <- <-]. cbn [data]. intros [= <-].
  cbn [data_expiresIn expiresAt]. split; [reflexivity | lia].
Qed.

(** C10.  [generateUrl].  A request without [expiresIn] is served as one
    for [DEFAULT_EXPIRES_IN], 3600 seconds.  Whenever the response carries
    data, its [expiresIn] is the requested validity and its [expiresAt] is
    the reading of the clock plus that many seconds, hence within one
    second of [T + expiresIn] for every instant [T] within one second of
    that reading.  A key with a character outside letters, digits, [-],
    [_] and [/] gets the invalid-key response before anything is signed.
    A valid key whose URL resolves, whose dates are in range and which the
    signer accepts gets the success response with the signed URL, after
    exactly one call of the signer. *)
Theorem generateUrl_contract (w : World) (params : GenerateUrlRequest) :
  (expiresIn params = None ->
   generateUrl w params
   = generateUrl w {| videoKey := videoKey params;
                      expiresIn := Some DEFAULT_EXPIRES_IN |}
   /\ DEFAULT_EXPIRES_IN = 3600)
  /\ (forall tr resp d,
        generateUrl w params = (tr, Ok resp) -> data resp = Some d ->
        data_expiresIn d = requested_expiry params
        /\ expiresAt d = now w + 1000 * requested_expiry params
        /\ forall T, Z.abs (now w - T) < 1000 ->
                     Z.abs (expiresAt d - (T + 1000 * requested_expiry params))
                     < 1000)
  /\ (has_foreign_char (videoKey params) ->
      generateUrl w params = ([], Ok invalid_key_response))
  /\ (forall u signed,
        isValidKey (videoKey params) = true ->
        resolveUrl w (videoKey params) = Ok u ->
        let dateLessThan :=
          setSeconds w (signerClock w) (requested_expiry params) in
        Z.abs dateLessThan <= MAX_TIME ->
        getSignedUrl w u dateLessThan = Ok signed ->
        Z.abs (now w + 1000 * requested_expiry params) <= MAX_TIME ->
        generateUrl w params
        = ([GetSignedUrl u dateLessThan],
           Ok {| success := true;
                 data := Some {| url := signed;
                                 data_expiresIn := requested_expiry params;
                                 expiresAt :=
                                   now w + 1000 * requested_expiry params |};
                 error := None |})).
Proof.
  split; [|split; [|split]].
  - intros H. split; [|reflexivity]. unfold generateUrl. simpl. now rewrite H.
  - intros tr resp d H H0.
    destruct (generateUrl_data _ _ H H0) as [E1 E2].
    repeat split; [exact E1 | exact E2 |].
    intros T HT. rewrite E2. lia.
  - intros Hbad. unfold generateUrl.
    now rewrite (foreign_char_invalid Hbad).
  - intros u signed Hvalid Hurl dateLessThan Hd Hsign Hnow.
    subst dateLessThan. revert Hd Hsign Hnow.
    unfold generateUrl, requested_expiry. change 3600 with DEFAULT_EXPIRES_IN.
    generalize (match expiresIn params with
                | Some n => n
                | None => DEFAULT_EXPIRES_IN
                end).
    intros e Hd Hsign Hnow.
    rewrite Hvalid. simpl.
    unfold generateSignedUrl, getExpiryDate, toISOString, lift, bind, try_catch, ret.
    rewrite Hurl.
    apply Z.leb_le in Hd. rewrite Hd, Hsign.
    replace (now w + e * 1000) with (now w + 1000 * e) by lia.
    apply Z.leb_le in Hnow. rewrite Hnow. reflexivity.
Qed.
End VideoServiceFacts.

(** A request for sixty seconds made at T = 1700000000000 ms and answered
    5 ms later, and a request whose key has a space. *)
Lemma generateUrl_contract_witness :
  let req := {| VideoService.videoKey := "c1/hls/v/1080p/playlist";
                VideoService.expiresIn := Some 60%Z |} in
  let bad := {| VideoService.videoKey := "c1/hls/my video";
                VideoService.expiresIn := None |} in
  VideoService.generateUrl Spec.signing_world req
  = ([VideoService.GetSignedUrl
        "https://cdn.example.com/c1/hls/v/1080p/playlist" 1700000060003],
     Js.Ok {| VideoService.success := true;
              VideoService.data :=
                Some {| VideoService.url :=
                          "https://cdn.example.com/c1/hls/v/1080p/playlist?Signature=s";
                        VideoService.data_expiresIn := 60;
                        VideoService.expiresAt := 1700000060005 |};
              VideoService.error := None |})
  /\ (Z.abs (1700000060005 - (1700000000000 + 1000 * 60)) < 1000)%Z
  /\ VideoService.generateUrl Spec.signing_world bad
     = ([], Js.Ok Spec.invalid_key_response)
  /\ VideoService.generateUrl Spec.signing_world bad
     = VideoService.generateUrl Spec.signing_world
         {| VideoService.videoKey := "c1/hls/my video";
            VideoService.expiresIn := Some 3600%Z |}.
Proof.
  intros req bad.
  destruct (generateUrl_contract Spec.signing_world req) as (_ & Hdata & _ & Hok).
  destruct (generateUrl_contract Spec.signing_world bad) as (Hdef & _ & Hbad & _).
  assert (E := Hok "https://cdn.example.com/c1/hls/v/1080p/playlist"%string
                   "https://cdn.example.com/c1/hls/v/1080p/playlist?Signature=s"%string).
  assert (Hv : VideoService.isValidKey (VideoService.videoKey req) = true)
    by (vm_compute; reflexivity).
  specialize (E Hv eq_refl). cbv zeta in E.
  assert (Hd : (Z.abs (VideoService.setSeconds Spec.signing_world
                         (VideoService.signerClock Spec.signing_world)
                         (Spec.requested_expiry req))
                <= VideoService.MAX_TIME)%Z)
    by (vm_compute; discriminate).
  specialize (E Hd eq_refl).
  assert (Hn : (Z.abs (VideoService.now Spec.signing_world
                       + 1000 * Spec.requested_expiry req)
                <= VideoService.MAX_TIME)%Z)
    by (vm_compute; discriminate).
  specialize (E Hn).
  split; [exact E|]. split.
  - destruct (Hdata _ _ _ E eq_refl) as (_ & _ & Hnear).
    apply (Hnear 1700000000000%Z). vm_compute. reflexivity.
  - split.
    + apply Hbad. exists " "%char. split; [simpl; tauto | reflexivity].
    + exact (proj1 (Hdef eq_refl)).
Defined.

(** ** Source keys: validation and parsing *)

Section KeyFacts.
Import Js Regex Consumer Spec.

(** Only a lower-case letter is the folding of another character. *)
Lemma to_lower_fixed_inv (c x : ascii) :
  (97 <=? nat_of_ascii c)%nat && (nat_of_ascii c <=? 122)%nat = false ->
  to_lower x = c -> x = c.
Proof.
  intros Hc. unfold to_lower.
  destruct ((65 <=? nat_of_ascii x)%nat && (nat_of_ascii x <=? 90)%nat) eqn:Hx;
    [|auto].
  intros <-. exfalso.
  apply andb_true_iff in Hx as [H1 H2].
  apply Nat.leb_le in H1, H2.
  rewrite nat_ascii_embedding in Hc by lia.
  apply andb_false_iff in Hc as [Hc|Hc]; apply Nat.leb_gt in Hc; lia.
Qed.

Lemma lower_split s a b :
  lower s = a +++ b ->
  exists s1 s2, s = s1 +++ s2 /\ lower s1 = a /\ lower s2 = b.
Proof.
  revert s. induction a as [|x a IH]; simpl; intros s H.
  - exists "", s. auto.
  - destruct s as [|y s]; simpl in H; [discriminate|].
    injection H as Hy Hs. apply IH in Hs as (s1 & s2 & -> & H1 & H2).
    exists (String y s1), s2. simpl. now rewrite Hy, H1.
Qed.

Lemma lower_single s c :
  (97 <=? nat_of_ascii c)%nat && (nat_of_ascii c <=? 122)%nat = false ->
  lower s = String c "" -> s = String c "".
Proof.
  intros Hc. destruct s as [|x [|y s]]; simpl; try discriminate.
  intros [= H]. now rewrite (to_lower_fixed_inv _ Hc H).
Qed.

(** Lower-casing neither adds nor removes a separator that has no case. *)
Lemma lower_not_sep c s :
  to_lower c = c ->
  all_chars (not_sep c) (lower s) = true -> all_chars (not_sep c) s = true.
Proof.
  intros Hc. induction s as [|x s IH]; simpl; [reflexivity|].
  rewrite !andb_true_iff. intros [Hx Hs]. split; [|auto].
  unfold not_sep in *. apply negb_true_iff in Hx. apply negb_true_iff.
  destruct (Ascii.eqb_spec x c) as [->|]; [|reflexivity].
  rewrite Hc, Ascii.eqb_refl in Hx. discriminate.
Qed.

Lemma word_or_dash_not_sep c s :
  word_or_dash c = false ->
  all_chars word_or_dash s = true -> all_chars (not_sep c) s = true.
Proof.
  intros Hc. induction s as [|x s IH]; simpl; [reflexivity|].
  rewrite !andb_true_iff. intros [Hx Hs]. split; [|auto].
  unfold not_sep. apply negb_true_iff.
  destruct (Ascii.eqb_spec x c) as [->|]; [congruence | reflexivity].
Qed.

Lemma extension_not_sep c E :
  In (lower E) ["mp4"; "mov"; "avi"] -> to_lower c = c ->
  all_chars (not_sep c) "mp4movavi" = true ->
  all_chars (not_sep c) E = true.
Proof.
  intros Hin Hc Hall. apply lower_not_sep; [exact Hc|].
  simpl in Hall. rewrite !andb_true_iff in Hall.
  destruct Hin as [<-|[<-|[<-|[]]]]; simpl; rewrite !andb_true_iff; tauto.
Qed.

Lemma matches_extension E :
  Matches (Alt (ilit "mp4") (Alt (ilit "mov") (ilit "avi"))) E
  <-> In (lower E) ["mp4"; "mov"; "avi"].
Proof.
  split.
  - intros H. apply matches_alt_inv in H as [H|H];
      [|apply matches_alt_inv in H as [H|H]];
      apply matches_ilit in H; rewrite H; simpl; auto.
  - intros [H|[H|[H|[]]]]; symmetry in H.
    + apply MAltL. now apply matches_ilit.
    + apply MAltR, MAltL. now apply matches_ilit.
    + apply MAltR, MAltR. now apply matches_ilit.
Qed.

Lemma ident_plus s : Matches (Plus (Class word_or_dash)) s <-> ident s.
Proof. apply matches_plus_class. Qed.

(** The validator accepts exactly the keys of [key_shape]. *)
Lemma validateS3Key_shape key :
  validateS3Key key = true <-> exists cid fn, key_shape key cid fn.
Proof.
  unfold validateS3Key. rewrite test_spec. unfold keyPattern. split.
  - intros H.
    apply matches_cat_inv in H as (s1 & k1 & -> & H1 & H).
    apply matches_cat_inv in H as (cid & k2 & -> & Hcid & H).
    apply matches_cat_inv in H as (s3 & k3 & -> & H3 & H).
    apply matches_cat_inv in H as (fn & k4 & -> & Hfn & H).
    apply matches_cat_inv in H as (s5 & E & -> & H5 & HE).
    apply matches_ilit in H1, H3, H5. simpl in H1, H3, H5.
    apply (lower_split s1 "courses" "/") in H1 as (C & sl & -> & HC & Hsl).
    apply lower_single in Hsl; [subst sl | reflexivity].
    apply (lower_split s3 "/" "videos/") in H3 as (sl & s3' & -> & Hsl & H3).
    apply lower_single in Hsl; [subst sl | reflexivity].
    apply (lower_split s3' "videos" "/") in H3 as (V & sl & -> & HV & Hsl).
    apply lower_single in Hsl; [subst sl | reflexivity].
    apply lower_single in H5; [subst s5 | reflexivity].
    exists cid, fn, C, V, E. rewrite !append_assoc. simpl.
    repeat split; try assumption.
    + now apply matches_extension.
    + apply ident_plus in Hcid. apply Hcid.
    + apply ident_plus in Hcid. apply Hcid.
    + apply ident_plus in Hfn. apply Hfn.
    + apply ident_plus in Hfn. apply Hfn.
  - intros (cid & fn & C & V & E & -> & HC & HV & HE & Hcid & Hfn).
    replace (C +++ "/" +++ cid +++ "/" +++ V +++ "/" +++ fn +++ "." +++ E)
      with ((C +++ "/") +++ cid +++ ("/" +++ V +++ "/") +++ fn +++ "." +++ E)
      by (rewrite !append_assoc; reflexivity).
    constructor; [apply matches_ilit; rewrite lower_append, HC; reflexivity|].
    constructor; [now apply ident_plus|].
    constructor;
      [apply matches_ilit; simpl; rewrite lower_append, HV; reflexivity|].
    constructor; [now apply ident_plus|].
    constructor; [now apply matches_ilit | now apply matches_extension].
Qed.

Lemma literal_not_sep c lit s :
  lower s = lit -> to_lower c = c ->
  all_chars (not_sep c) lit = true -> all_chars (not_sep c) s = true.
Proof. intros <- Hc H. now apply lower_not_sep. Qed.

(** Parsing a key of five separator-free parts, the last one without a dot
    and neither it nor the file name empty, gives back the second and the
    fourth. *)
Lemma generateS3Paths_parts (C cid V fn E : string) :
  all_chars (not_sep slash) C = true ->
  all_chars (not_sep slash) cid = true ->
  all_chars (not_sep slash) V = true ->
  all_chars (not_sep slash) fn = true ->
  all_chars (not_sep slash) E = true ->
  all_chars (not_sep dot) E = true ->
  string_nonempty fn = true -> string_nonempty E = true ->
  Transcoder.generateS3Paths
    (C +++ "/" +++ cid +++ "/" +++ V +++ "/" +++ fn +++ "." +++ E)
  = {| Transcoder.courseId := Some cid; Transcoder.filename := fn |}.
Proof.
  intros SC Scid SV Sfn SE DE Nfn NE.
  unfold Transcoder.generateS3Paths.
  change (C +++ "/" +++ cid +++ "/" +++ V +++ "/" +++ fn +++ "." +++ E)
    with (C +++ String slash (cid +++ String slash (V +++ String slash
            (fn +++ String dot E)))).
  rewrite !split_head by assumption.
  rewrite split_no_sep
    by (rewrite all_chars_append; simpl; now rewrite Sfn, SE).
  cbn [nth_error last_part last]. f_equal.
  unfold path_parse_name. rewrite last_index_append by assumption.
  destruct fn as [|x fn]; [discriminate|]. cbn [String.length].
  replace (String.eqb (String x fn +++ String dot E) "..") with false.
  - change (S (String.length fn)) with (String.length (String x fn)).
    apply substring_append.
  - symmetry. apply String.eqb_neq. simpl. intros H. injection H as _ H.
    destruct fn as [|y fn]; simpl in H.
    + injection H as H. subst E. discriminate.
    + injection H as _ H. destruct fn; discriminate.
Qed.

Lemma extension_nonempty E :
  In (lower E) ["mp4"; "mov"; "avi"] -> string_nonempty E = true.
Proof. destruct E; simpl; [intros [H|[H|[H|[]]]]; discriminate | reflexivity]. Qed.

(** Parsing an accepted key gives back its two identifiers. *)
Lemma generateS3Paths_shape key cid fn :
  key_shape key cid fn ->
  Transcoder.generateS3Paths key
  = {| Transcoder.courseId := Some cid; Transcoder.filename := fn |}.
Proof.
  intros (C & V & E & -> & HC & HV & HE & [Hc1 Hc2] & [Hf1 Hf2]).
  apply generateS3Paths_parts.
  - apply (literal_not_sep _ HC); reflexivity.
  - apply word_or_dash_not_sep; [reflexivity | assumption].
  - apply (literal_not_sep _ HV); reflexivity.
  - apply word_or_dash_not_sep; [reflexivity | assumption].
  - apply extension_not_sep; [assumption | reflexivity | reflexivity].
  - apply extension_not_sep; [assumption | reflexivity | reflexivity].
  - assumption.
  - now apply extension_nonempty.
Qed.

(** So does parsing a key of the pattern as the specification words it. *)
Lemma generateS3Paths_spec_pattern key cid fn :
  spec_pattern key cid fn ->
  Transcoder.generateS3Paths key
  = {| Transcoder.courseId := Some cid; Transcoder.filename := fn |}.
Proof.
  intros (E & -> & Ncid & Nfn & Scid & Sfn & HE).
  change ("courses/" +++ cid +++ "/videos/" +++ fn +++ "." +++ E)
    with ("courses" +++ "/" +++ cid +++ "/" +++ "videos" +++ "/" +++ fn
          +++ "." +++ E).
  apply generateS3Paths_parts; try assumption; try reflexivity.
  - apply extension_not_sep; [assumption | reflexivity | reflexivity].
  - apply extension_not_sep; [assumption | reflexivity | reflexivity].
  - now apply extension_nonempty.
Qed.

Lemma processRecord_rejected w index record key :
  record_key record key -> validateS3Key key = false ->
  processRecord w index record = ([], Ok tt).
Proof.
  intros (props & s3props & bprops & oprops & -> & H1 & H2 & H3 & H4) Hv.
  unfold processRecord, destructure, lift, bind. simpl. rewrite H1. simpl.
  rewrite H2, H3. simpl. rewrite H4. simpl.
  now rewrite Hv.
Qed.

(** C9 (amended).  Parsing recovers exactly [courseId] and [filename] from
    every key of the pattern [courses/courseId/videos/filename.ext] as the
    specification words it, and from every key the validator accepts.  The
    validator accepts exactly the keys [C/courseId/V/filename.E] with [C],
    [V], [E] equal to [courses], [videos] and one of [mp4], [mov], [avi] up
    to letter case and with [courseId], [filename] non-empty over letters,
    digits, [_] and [-]; a record whose key it rejects makes no call at
    all, so no task is launched for it. *)
Theorem key_validation_and_parsing (key : string) :
  (forall cid fn, spec_pattern key cid fn \/ key_shape key cid fn ->
     Transcoder.generateS3Paths key
     = {| Transcoder.courseId := Some cid; Transcoder.filename := fn |})
  /\ (validateS3Key key = true <-> exists cid fn, key_shape key cid fn)
  /\ (validateS3Key key = false ->
      forall w index record, record_key record key ->
      processRecord w index record = ([], Ok tt)).
Proof.
  split; [|split].
  - intros cid fn [H|H];
      [now apply generateS3Paths_spec_pattern | now apply generateS3Paths_shape].
  - apply validateS3Key_shape.
  - intros Hv w index record Hr. now apply (processRecord_rejected w index Hr).
Qed.
End KeyFacts.

(** A mixed-case key with a dotted file name is parsed; an accepted key is
    parsed; a key with a space is rejected and launches nothing. *)
Lemma key_validation_and_parsing_witness :
  Transcoder.generateS3Paths "courses/c.1/videos/lesson.final.MP4"
  = {| Transcoder.courseId := Some "c.1";
       Transcoder.filename := "lesson.final" |}
  /\ Transcoder.generateS3Paths "Courses/c-1/videos/lesson_01.mov"
     = {| Transcoder.courseId := Some "c-1";
          Transcoder.filename := "lesson_01" |}
  /\ Consumer.processRecord Spec.calm_world 0
       (Spec.s3_record "uploads" "courses/c 1/videos/lesson.mp4")
     = ([], Js.Ok tt).
Proof.
  split; [|split].
  - destruct (key_validation_and_parsing "courses/c.1/videos/lesson.final.MP4")
      as (H & _ & _).
    apply H. left. exists "MP4". repeat split; simpl; auto.
  - destruct (key_validation_and_parsing "Courses/c-1/videos/lesson_01.mov")
      as (H & _ & _).
    apply H. right. exists "Courses", "videos", "mov".
    repeat split; simpl; auto.
  - destruct (key_validation_and_parsing "courses/c 1/videos/lesson.mp4")
      as (_ & _ & H).
    apply H; [vm_compute; reflexivity|].
    unfold Spec.record_key, Spec.s3_record. repeat eexists; reflexivity.
Defined.

(** C9 as stated fails: a key whose fixed segments are in upper case does
    not match the pattern of the specification, yet the validator accepts
    it and a task is launched for its record. *)
Lemma key_case_counterexample :
  let key := "COURSES/c1/VIDEOS/v.mp4" in
  (~ exists cid fn, Spec.spec_pattern key cid fn)
  /\ Consumer.validateS3Key key = true
  /\ Consumer.processRecord Spec.calm_world 0 (Spec.s3_record "uploads" key)
     = ([Consumer.RunTask (Some (Consumer.JStr "uploads"))
                          (Some (Consumer.JStr key))], Js.Ok tt).
Proof.
  cbv zeta. split; [|split].
  - intros (cid & fn & ext & H & _). discriminate H.
  - vm_compute. reflexivity.
  - vm_compute. reflexivity.
Qed.

(** ** The dispatcher: acknowledgement and visibility *)

Section DispatcherFacts.
Import Js Regex Consumer Spec.
Variable JSON_parse : string -> result json.

Lemma validateAndParseEvent_silent body :
  fst (validateAndParseEvent JSON_parse body) = [].
Proof.
  unfold validateAndParseEvent, try_catch, bind, lift, ret, throw.
  destruct (JSON_parse body) as [event|]; [|reflexivity].
  destruct (has_property "Service" event) as [[]|]; [| |reflexivity].
  - destruct (has_property "Event" event) as [[]|]; [| |reflexivity].
    + destruct (prop (Some event) "Event") as [v|]; [|reflexivity].
      now destruct (strict_equals_string v "s3:TestEvent").
    + reflexivity.
  - reflexivity.
Qed.

Lemma readRecords_silent message : fst (readRecords JSON_parse message) = [].
Proof.
  unfold readRecords.
  destruct (Body message) as [[|c body]|]; try reflexivity.
  unfold bind at 1. unfold ret at 1.
  pose proof (validateAndParseEvent_silent (String c body)) as H.
  unfold bind at 1.
  destruct (validateAndParseEvent JSON_parse (String c body)) as [tr [event|]];
    simpl in H; subst tr; [|reflexivity].
  unfold bind, lift.
  destruct (prop (Some event) "Records"); [|reflexivity].
  now destruct (iterate _).
Qed.

Lemma launch_retry w index bucketName objectKey :
  let m := retryWithBackoff (launchEcsTask w index bucketName objectKey) in
  (snd m = Ok tt <-> launched w index)
  /\ forallb dispatch_event (fst m) = true.
Proof.
  unfold launched, retryWithBackoff, Retry.retryWithBackoff, launchEcsTask,
    call, MAX_RETRIES.
  cbn [Retry.retryWithBackoff_loop Nat.add].
  destruct (runTask w index 1) as [e1|] eqn:E1;
    [|cbn; split; [split; [intros _; exists 1%nat; split; [lia|assumption]|reflexivity]
                  |reflexivity]].
  destruct (runTask w index 2) as [e2|] eqn:E2;
    [|cbn; split; [split; [intros _; exists 2%nat; split; [lia|assumption]|reflexivity]
                  |reflexivity]].
  destruct (runTask w index 3) as [e3|] eqn:E3;
    [|cbn; split; [split; [intros _; exists 3%nat; split; [lia|assumption]|reflexivity]
                  |reflexivity]].
  cbn. split; [|reflexivity]. split; [discriminate|].
  intros (attempt & Hr & H).
  assert (attempt = 1 \/ attempt = 2 \/ attempt = 3)%nat as [->|[->| ->]]
    by lia; congruence.
Qed.

Lemma processRecord_settled w index record :
  let m := processRecord w index record in
  (snd m = Ok tt <-> record_settled w index record)
  /\ forallb dispatch_event (fst m) = true.
Proof.
  unfold processRecord, record_settled, bind, lift.
  destruct (destructure record) as [[bucketName objectKey]|e].
  - destruct (validateS3Key (ToString objectKey)) eqn:Hv; cbn [negb].
    + destruct (launch_retry w index bucketName objectKey) as [Hl Hev].
      destruct (retryWithBackoff _) as [tr r]. cbn [fst snd app] in *.
      split; [|exact Hev]. rewrite Hl. split.
      * intros H. exists bucketName, objectKey. auto.
      * intros (b & k & [= <- <-] & [H|H]); [congruence | exact H].
    + cbn. split; [|reflexivity]. split; [|reflexivity].
      intros _. exists bucketName, objectKey. auto.
  - cbn. split; [|reflexivity]. split; [discriminate|].
    intros (b & k & H & _). discriminate.
Qed.

Lemma processRecords_settled w records : forall index,
  let m := processRecords w index records in
  (snd m = Ok tt <->
   forall j record, nth_error records j = Some record ->
                    record_settled w (index + j) record)
  /\ forallb dispatch_event (fst m) = true.
Proof.
  induction records as [|record records IH]; intros index.
  - cbn. split; [|reflexivity]. split; [|reflexivity].
    intros _ [|j] record H; discriminate.
  - cbn [processRecords]. unfold bind.
    destruct (processRecord_settled w index record) as [Hr Hev].
    destruct (processRecord w index record) as [tr [[]|e]]; cbn [fst snd] in *.
    + destruct (IH (S index)) as [Hrs Hevs].
      destruct (processRecords w (S index) records) as [tr' r'].
      cbn [fst snd] in *. split.
      * rewrite Hrs. split.
        -- intros H [|j] rec Hj.
           ++ injection Hj as <-. rewrite Nat.add_0_r. now apply Hr.
           ++ replace (index + S j)%nat with (S index + j)%nat by lia.
              now apply H.
        -- intros H j rec Hj.
           replace (S index + j)%nat with (index + S j)%nat by lia.
           now apply H.
      * now rewrite forallb_app, Hev, Hevs.
    + split; [|exact Hev]. split; [discriminate|].
      intros H. specialize (H 0%nat record eq_refl).
      rewrite Nat.add_0_r in H. apply Hr in H. discriminate.
Qed.

(** The three ways [processMessage] ends. *)
Lemma processMessage_cases w message :
  processMessage JSON_parse w message
  = match snd (readRecords JSON_parse message) with
    | Throw e => ([extension w message], Throw e)
    | Ok records =>
        match processRecords w 0 records with
        | (tr, Throw e) => (tr ++ [extension w message], Throw e)
        | (tr, Ok _) =>
            match deleteMessage w with
            | None =>
                (tr ++ [DeleteMessage (ReceiptHandle message) true], Ok tt)
            | Some e =>
                (tr ++ [DeleteMessage (ReceiptHandle message) false;
                        extension w message], Throw e)
            end
        end
    end.
Proof.
  unfold processMessage.
  pose proof (readRecords_silent message) as Hs.
  destruct (readRecords JSON_parse message) as [tr0 [records|e]];
    cbn [fst snd] in *; subst tr0.
  - unfold bind at 1.
    destruct (processRecords w 0 records) as [tr [[]|e]].
    + unfold bind, sqs_call, call, try_catch, extension, throw, ret.
      destruct (deleteMessage w) as [e|]; cbn.
      * destruct (changeMessageVisibility w); cbn;
          rewrite <- ?app_assoc; reflexivity.
      * reflexivity.
    + unfold bind, sqs_call, call, try_catch, extension, throw, ret.
      destruct (changeMessageVisibility w); cbn;
        rewrite ?app_nil_r; reflexivity.
  - unfold bind, sqs_call, call, try_catch, extension, throw, ret.
    destruct (changeMessageVisibility w); cbn; reflexivity.
Qed.

Lemma dispatch_no_delete tr :
  forallb dispatch_event tr = true ->
  existsb is_delete tr = false /\ existsb is_deleted tr = false
  /\ existsb is_extended tr = false.
Proof.
  induction tr as [|ev tr IH]; cbn; [auto|].
  rewrite andb_true_iff. intros [Hev Htr].
  destruct (IH Htr) as (H1 & H2 & H3). rewrite H1, H2, H3.
  destruct ev; try discriminate; auto.
Qed.



(** C3 (amended).  For a synthetic test notification [processMessage]
    launches nothing and does not delete: its only call is the visibility
    extension by 900 s, and it ends in an error, which for the S3 test
    event is [Test event received]; the message is left
    visibility-extended when that call succeeds. *)
Theorem test_notification_outcome w message body event :
  Body message = Some body -> body <> ""%string ->
  JSON_parse body = Ok event -> is_test_notification event ->
  exists e,
    processMessage JSON_parse w message = ([extension w message], Throw e)
    /\ (prop (Some event) "Event" = Ok (Some (JStr "s3:TestEvent")) ->
        e = Error "Test event received")
    /\ final_state (fst (processMessage JSON_parse w message))
       = if succeeded (changeMessageVisibility w)
         then VisibilityExtended else Untouched.
Proof.
  intros Hbody Hne Hparse (props & -> & HS & HE & Hkind).
  assert (Hread : exists e,
    snd (readRecords JSON_parse message) = Throw e
    /\ (prop (Some (JObj props)) "Event" = Ok (Some (JStr "s3:TestEvent")) ->
        e = Error "Test event received")).
  { unfold readRecords. rewrite Hbody.
    destruct body as [|c body]; [now elim Hne|].
    unfold validateAndParseEvent, bind, lift, try_catch, ret, throw.
    rewrite Hparse. cbn [has_property prop].
    destruct (lookup "Service" props) as [sv|]; [|now elim HS].
    destruct (lookup "Event" props) as [ev|] eqn:Eev; [|now elim HE].
    destruct (strict_equals_string (Some ev) "s3:TestEvent") eqn:Est; cbn.
    - eexists. split; [reflexivity | reflexivity].
    - destruct Hkind as [H|H].
      + injection H as ->. cbn in Est. discriminate.
      + rewrite H. cbn. eexists. split; [reflexivity|].
        intros [= ->]. cbn in Est. discriminate. }
  destruct Hread as (e & Hread & He). exists e.
  rewrite processMessage_cases, Hread. split; [reflexivity|]. split; [exact He|].
  cbn. unfold final_state, extension. cbn.
  now destruct (succeeded (changeMessageVisibility w)).
Qed.
End DispatcherFacts.

(** The S3 test event, with collaborators that all succeed. *)
Lemma test_notification_outcome_witness :
  exists e,
    Consumer.processMessage Spec.sample_parse Spec.calm_world
      (Spec.message_of "t1" Spec.test_event)
    = ([Consumer.ChangeMessageVisibility "rh-t1" 900 true], Js.Throw e)
    /\ e = Js.Error "Test event received".
Proof.
  destruct (@test_notification_outcome Spec.sample_parse Spec.calm_world
              (Spec.message_of "t1" Spec.test_event)
              (Spec.stringify Spec.test_event) Spec.test_event)
    as (e & H & He & _).
  - reflexivity.
  - discriminate.
  - reflexivity.
  - exists [("Service", Consumer.JStr "Amazon S3");
            ("Event", Consumer.JStr "s3:TestEvent");
            ("Bucket", Consumer.JStr "uploads")].
    repeat split; try discriminate. now left.
  - exists e. split; [exact H | apply He; reflexivity].
Defined.

(** C3 as stated fails: the S3 test event is not acknowledged; the message
    is left visibility-extended and [processMessage] ends in an error. *)
Lemma test_event_counterexample :
  let m := Consumer.processMessage Spec.sample_parse Spec.calm_world
             (Spec.message_of "t1" Spec.test_event) in
  Spec.is_test_notification Spec.test_event
  /\ existsb Consumer.is_delete (fst m) = false
  /\ Consumer.final_state (fst m) = Consumer.VisibilityExtended
  /\ snd m = Js.Throw (Js.Error "Test event received").
Proof.
  cbv zeta. split.
  - exists [("Service", Consumer.JStr "Amazon S3");
            ("Event", Consumer.JStr "s3:TestEvent");
            ("Bucket", Consumer.JStr "uploads")].
    repeat split; try discriminate. now left.
  - vm_compute. auto.
Qed.



(** ** The pipeline *)

Section ManifestFacts.
Import Js Transcoder Spec.

(** C8 (the code at the configured variants).  The master playlist has
    four stream entries, in the configured order, with bandwidths
    5000000, 2800000, 1400000 and 800000; but the URI under each entry is
    [WIDTHxHEIGHT/playlist.m3u8], not the variant's own
    [NAME/playlist.m3u8] under which [getVariantPlaylistKey] and
    [uploadHLSFiles] store the variant: for no source key does any URI of
    the manifest resolve to the playlist key of any variant. *)
Theorem master_playlist_uris :
  let text := generateMasterPlaylist masterVariants in
  stream_inf_lines text
  = [ "#EXT-X-STREAM-INF:BANDWIDTH=5000000,RESOLUTION=1920x1080,CODECS="
        +++ dquote +++ "avc1.4d401f,mp4a.40.2" +++ dquote;
      "#EXT-X-STREAM-INF:BANDWIDTH=2800000,RESOLUTION=1280x720,CODECS="
        +++ dquote +++ "avc1.4d401f,mp4a.40.2" +++ dquote;
      "#EXT-X-STREAM-INF:BANDWIDTH=1400000,RESOLUTION=854x480,CODECS="
        +++ dquote +++ "avc1.4d401f,mp4a.40.2" +++ dquote;
      "#EXT-X-STREAM-INF:BANDWIDTH=800000,RESOLUTION=640x360,CODECS="
        +++ dquote +++ "avc1.4d401f,mp4a.40.2" +++ dquote ]
  /\ uri_lines text
     = ["1920x1080/playlist.m3u8"; "1280x720/playlist.m3u8";
        "854x480/playlist.m3u8"; "640x360/playlist.m3u8"]
  /\ map variant_uri RESOLUTIONS
     = ["1080p/playlist.m3u8"; "720p/playlist.m3u8";
        "480p/playlist.m3u8"; "360p/playlist.m3u8"]
  /\ forall sourceKey uri res,
       In uri (uri_lines text) -> In res RESOLUTIONS ->
       getHLSBasePath (generateS3Paths sourceKey) +++ "/" +++ uri
       <> getVariantPlaylistKey (generateS3Paths sourceKey) (name res).
Proof.
  cbv zeta. split; [vm_compute; reflexivity|].
  split; [vm_compute; reflexivity|]. split; [reflexivity|].
  intros sourceKey uri res Huri Hres.
  replace (uri_lines (generateMasterPlaylist masterVariants))
    with ["1920x1080/playlist.m3u8"; "1280x720/playlist.m3u8";
          "854x480/playlist.m3u8"; "640x360/playlist.m3u8"] in Huri
    by (vm_compute; reflexivity).
  unfold getHLSBasePath, getVariantPlaylistKey.
  rewrite !append_assoc. intros E.
  apply append_cancel_l in E. cbn [String.append] in E.
  injection E as E. apply append_cancel_l in E.
  cbn in Huri, Hres.
  destruct Huri as [<-|[<-|[<-|[<-|[]]]]];
    destruct Hres as [<-|[<-|[<-|[<-|[]]]]]; discriminate E.
Qed.
End ManifestFacts.

Section TraceFacts.
Import Js.
Variable Ev : Type.
Variable P : Ev -> Prop.

Lemma bind_Forall {A B} (m : M Ev A) (f : A -> M Ev B) :
  Forall P (fst m) ->
  (forall a, snd m = Ok a -> Forall P (fst (f a))) ->
  Forall P (fst (bind m f)).
Proof.
  destruct m as [tr [a|e]]; cbn; intros Hm Hf; [|exact Hm].
  specialize (Hf a eq_refl). destruct (f a) as [tr' r]. cbn in *.
  apply Forall_app. auto.
Qed.

Lemma try_catch_Forall {A} (m : M Ev A) (h : exn -> M Ev A) :
  Forall P (fst m) ->
  (forall e, snd m = Throw e -> Forall P (fst (h e))) ->
  Forall P (fst (try_catch m h)).
Proof.
  destruct m as [tr [a|e]]; cbn; intros Hm Hh; [exact Hm|].
  specialize (Hh e eq_refl). destruct (h e) as [tr' r]. cbn in *.
  apply Forall_app. auto.
Qed.

Lemma bind_ok_inv {A B} (m : M Ev A) (f : A -> M Ev B) b :
  snd (bind m f) = Ok b -> exists a, snd m = Ok a /\ snd (f a) = Ok b.
Proof.
  destruct m as [tr [a|e]]; cbn; [|discriminate].
  destruct (f a) as [tr' r] eqn:E. cbn. intros ->. exists a.
  now rewrite E.
Qed.

Lemma bind_of_ok {A B} (m : M Ev A) (f : A -> M Ev B) a :
  snd m = Ok a -> bind m f = (fst m ++ fst (f a), snd (f a)).
Proof.
  destruct m as [tr r]; cbn; intros ->. now destruct (f a).
Qed.

Lemma withRetry_loop_Forall {A} (Sleep : Z -> Ev) (op : nat -> M Ev A)
    base maxRetries remaining attempt lastError :
  (forall k, Forall P (fst (op k))) -> (forall d, P (Sleep d)) ->
  Forall P (fst (Retry.withRetry_loop Sleep op base maxRetries remaining
                   attempt lastError)).
Proof.
  intros Hop Hsleep. revert attempt lastError.
  induction remaining as [|r IH]; intros attempt lastError;
    cbn [Retry.withRetry_loop].
  - constructor.
  - apply try_catch_Forall; [apply Hop|].
    intros e _. destruct (attempt =? maxRetries)%nat; [constructor|].
    apply bind_Forall; [cbn; auto | intros _ _; apply IH].
Qed.

Lemma try_catch_In {A} (m : M Ev A) (h : exn -> M Ev A) ev :
  In ev (fst m) -> In ev (fst (try_catch m h)).
Proof.
  destruct m as [tr [a|e]]; cbn; [auto|].
  destruct (h e) as [tr' r]. cbn. intros H. apply in_or_app. now left.
Qed.

Lemma parallel_like_Forall {A} (ms : list (M Ev A)) :
  Forall (fun m => Forall P (fst m)) ms -> Forall P (concat (map fst ms)).
Proof.
  induction 1 as [|m ms Hm _ IH]; cbn; [constructor|].
  apply Forall_app. auto.
Qed.
End TraceFacts.

(** ** The pipeline: what each phase may call *)

Lemma allowed_weaken (enc enc' : Transcoder.Resolution -> Prop)
    (up up' : string -> Prop) tr :
  (forall res, enc res -> enc' res) -> (forall key, up key -> up' key) ->
  Forall (Spec.allowed enc up) tr -> Forall (Spec.allowed enc' up') tr.
Proof.
  intros He Hu. apply Forall_impl. intros ev [H1 H2].
  split; intros x Hx; auto.
Qed.

Lemma allowed_plain enc up ev :
  Transcoder.encoder_call ev = None -> Transcoder.upload_key ev = None ->
  Spec.allowed enc up ev.
Proof. intros H1 H2. split; intros x Hx; congruence. Qed.

(** A literal trace of calls that neither encode nor upload. *)
Ltac plain_trace :=
  repeat (constructor; [now apply allowed_plain|]); constructor.

Section PipelineFacts.
Import Js Transcoder Spec.
Variables (w : World) (env : Env).

Lemma withRetry_allowed {A} enc up (op : nat -> M event A) :
  (forall k, Forall (allowed enc up) (fst (op k))) ->
  Forall (allowed enc up) (fst (withRetry op)).
Proof.
  intros Hop. apply withRetry_loop_Forall; [exact Hop|].
  intros d. now apply allowed_plain.
Qed.

Lemma downloadFromS3_allowed bucket key :
  Forall (allowed nothing nothing) (fst (downloadFromS3 w env bucket key)).
Proof.
  apply withRetry_allowed. intros k.
  destruct (download w k); cbn; plain_trace.
Qed.

Lemma for_each_Forall {A} (P : event -> Prop) (xs : list A) body :
  (forall x, In x xs -> Forall P (fst (body x))) ->
  Forall P (fst (for_each xs body)).
Proof.
  induction xs as [|x xs IH]; cbn; intros H; [constructor|].
  apply bind_Forall; [apply H; now left|].
  intros _ _. apply IH. intros y Hy. apply H. now right.
Qed.

Lemma transcodeToHLS_allowed input outputDir res :
  Forall (allowed (eq res) nothing)
         (fst (transcodeToHLS w input outputDir res)).
Proof.
  unfold transcodeToHLS. destruct (encoder w res); cbn;
    repeat (constructor;
            [first [now apply allowed_plain
                   | split; intros x Hx; cbn in Hx; congruence]|]);
    constructor.
Qed.

Lemma transcodeToHLS_ok input outputDir res :
  snd (transcodeToHLS w input outputDir res) = Ok tt ->
  exists written,
    encoder w res = FfmpegEnds written
    /\ fst (transcodeToHLS w input outputDir res)
       = [ExistsSync input; Ffprobe input;
          Ffmpeg input outputDir res written].
Proof.
  unfold transcodeToHLS. destruct (encoder w res); cbn; try discriminate.
  intros _. eauto.
Qed.

Lemma uploadToS3_allowed filePath bucket key contentType :
  Forall (allowed nothing (eq key))
         (fst (uploadToS3 w filePath bucket key contentType)).
Proof.
  apply withRetry_allowed. intros k. cbn. constructor; [|constructor].
  split; intros x Hx; cbn in Hx; congruence.
Qed.

Lemma uploadHLSFiles_allowed outputDir res bucket p :
  Forall (allowed nothing (variant_file_key p res))
         (fst (uploadHLSFiles w outputDir res bucket (getHLSBasePath p))).
Proof.
  unfold uploadHLSFiles. apply bind_Forall.
  - cbn. plain_trace.
  - intros files _. apply for_each_Forall. intros chunk _.
    apply bind_Forall; [|intros; constructor].
    unfold parallel. cbn [fst]. apply parallel_like_Forall.
    apply Forall_map, Forall_forall. intros file _.
    eapply allowed_weaken; [| |apply uploadToS3_allowed]; [auto|].
    intros key <-. now exists file.
Qed.

Lemma checkFileExists_spec bucket key :
  fst (checkFileExists w bucket key) = [S3HeadObject bucket key]
  /\ (head w bucket key = None -> snd (checkFileExists w bucket key) = Ok true).
Proof.
  unfold checkFileExists, try_catch, bind, call, ret, throw.
  destruct (head w bucket key) as [[n m|]|]; cbn.
  - destruct (String.eqb n "NotFound"); cbn; split; discriminate || reflexivity.
  - split; discriminate || reflexivity.
  - split; reflexivity.
Qed.

Lemma processVariant_allowed p input workDir res :
  Forall (allowed (eq res) (variant_file_key p res))
         (fst (processVariant w env p input workDir res)).
Proof.
  unfold processVariant. apply try_catch_Forall; [|intros; constructor].
  apply bind_Forall.
  - rewrite (proj1 (checkFileExists_spec _ _)).
    constructor; [now apply allowed_plain | constructor].
  - intros [|] _; [constructor|].
    apply bind_Forall.
    + eapply allowed_weaken; [| |apply transcodeToHLS_allowed];
        [auto | intros key []].
    + intros _ _. eapply allowed_weaken; [| |apply uploadHLSFiles_allowed];
        [intros res' [] | auto].
Qed.


Lemma processVideo_start_allowed sourceKey workDir :
  Forall (allowed (eq testResolution) nothing)
         (fst (processVideo_start w env sourceKey workDir)).
Proof.
  unfold processVideo_start. apply bind_Forall.
  - eapply allowed_weaken; [| |apply downloadFromS3_allowed];
      [intros res [] | auto].
  - intros path _. apply bind_Forall.
    + apply for_each_Forall. intros res _. cbn. plain_trace.
    + intros _ _. apply bind_Forall; [|intros; constructor].
      apply try_catch_Forall; [apply transcodeToHLS_allowed|].
      intros; constructor.
Qed.

(** When the sequential part ends well the canary has been encoded, and
    it is the only encoder call so far. *)
Lemma processVideo_start_ok sourceKey workDir path :
  snd (processVideo_start w env sourceKey workDir) = Ok path ->
  exists written,
    encoder w testResolution = FfmpegEnds written
    /\ filter is_encoder_call (fst (processVideo_start w env sourceKey workDir))
       = [Ffmpeg path workDir testResolution written].
Proof.
  unfold processVideo_start. intros H.
  apply bind_ok_inv in H as (path' & Hdl & H).
  rewrite (bind_of_ok _ _ Hdl). cbn [fst].
  apply bind_ok_inv in H as ([] & Hmk & H).
  rewrite (bind_of_ok _ _ Hmk) in *. cbn [fst snd] in *.
  apply bind_ok_inv in H as ([] & Hcan & H). cbn in H. injection H as <-.
  rewrite (bind_of_ok _ _ Hcan). cbn [fst ret app].
  assert (Ht : snd (transcodeToHLS w path' workDir testResolution) = Ok tt).
  { revert Hcan. unfold try_catch.
    destruct (transcodeToHLS w path' workDir testResolution) as [tr [[]|e]];
      cbn; [reflexivity | discriminate]. }
  destruct (transcodeToHLS_ok _ _ _ Ht) as (written & Henc & Htr).
  exists written. split; [exact Henc|].
  assert (Hq : forall tr, Forall (allowed nothing nothing) tr ->
                          filter is_encoder_call tr = []).
  { induction 1 as [|ev tr [Hev _] _ IH]; cbn; [reflexivity|].
    unfold is_encoder_call. destruct (encoder_call ev) as [res|] eqn:E;
      [destruct (Hev res eq_refl) | exact IH]. }
  rewrite !filter_app, (Hq _ (downloadFromS3_allowed _ _)).
  rewrite Hq.
  2:{ apply for_each_Forall. intros res _. cbn. plain_trace. }
  unfold try_catch.
  destruct (transcodeToHLS w path' workDir testResolution) as [tr [[]|e]];
    cbn in Htr, Ht; [|discriminate].
  cbn [fst]. rewrite Htr. reflexivity.
Qed.

Lemma uploadToS3_ok filePath bucket key contentType :
  snd (uploadToS3 w filePath bucket key contentType) = Ok tt ->
  In (S3PutObject filePath bucket key contentType)
     (fst (uploadToS3 w filePath bucket key contentType)).
Proof.
  intros _. unfold uploadToS3, withRetry, Retry.withRetry, CONFIG_MAX_RETRIES.
  cbn [Retry.withRetry_loop]. apply try_catch_In. cbn. auto.
Qed.

Lemma processVideo_finish_allowed p workDir :
  Forall (allowed nothing (eq (getMasterPlaylistKey p)))
         (fst (processVideo_finish w env p workDir)).
Proof.
  unfold processVideo_finish. apply bind_Forall.
  - cbn. plain_trace.
  - intros _ _. apply bind_Forall; [apply uploadToS3_allowed|].
    intros; constructor.
Qed.

Lemma processVideo_finish_ok p workDir b :
  snd (processVideo_finish w env p workDir) = Ok b ->
  b = true
  /\ In (WriteFile (workDir +++ "/master.m3u8")
           (generateMasterPlaylist masterVariants) true)
        (fst (processVideo_finish w env p workDir))
  /\ In (S3PutObject (workDir +++ "/master.m3u8") (AWS_S3_PROD_BUCKET env)
           (getMasterPlaylistKey p) default_contentType)
        (fst (processVideo_finish w env p workDir)).
Proof.
  unfold processVideo_finish. intros H.
  apply bind_ok_inv in H as ([] & Hwr & H).
  rewrite (bind_of_ok _ _ Hwr). cbn [fst].
  apply bind_ok_inv in H as ([] & Hup & H). cbn in H. injection H as <-.
  rewrite (bind_of_ok _ _ Hup). cbn [fst].
  split; [reflexivity|]. split.
  - apply in_or_app. left. revert Hwr. unfold fs_call, call.
    destruct (writeFile w _); cbn; [discriminate | auto].
  - apply in_or_app. right. apply in_or_app. left.
    now apply uploadToS3_ok.
Qed.
End PipelineFacts.

Section RunFacts.
Import Js Transcoder Spec.
Variables (w : World) (env : Env) (sourceKey : string).


Lemma fanout_tasks_allowed input workDir (enc : Resolution -> Prop)
    (up : string -> Prop) :
  let p := generateS3Paths sourceKey in
  (forall res, In res remainingResolutions ->
     Forall (allowed enc up)
       (fst (processVariant w env p input workDir res))) ->
  Forall (allowed enc up)
    (concat (map fst (map (processVariant w env p input workDir)
                          remainingResolutions))).
Proof.
  cbv zeta.
  intros H. apply parallel_like_Forall. apply Forall_map, Forall_forall.
  exact H.
Qed.

(** The phases of a run, and what each may call. *)
Lemma run_phases :
  let r := processVideo w env sourceKey in
  let p := generateS3Paths sourceKey in
  Forall (allowed (eq testResolution) nothing) (before r)
  /\ Forall (allowed (fun res => In res remainingResolutions)
                     (fun key => exists res, In res remainingResolutions
                                             /\ variant_file_key p res key))
            (concat (fanout r))
  /\ Forall (allowed nothing (eq (getMasterPlaylistKey p))) (after r).
Proof.
  cbv zeta.
  unfold processVideo.
  destruct (mkdtemp w) as [suffix|e]; cbn [before fanout after];
    [|repeat split; constructor].
  pose proof (processVideo_start_allowed w env sourceKey
                (CONFIG_TEMP_DIR_PREFIX +++ suffix)) as Hstart.
  assert (Hclean : Forall (allowed nothing (eq (getMasterPlaylistKey
                                                  (generateS3Paths sourceKey))))
                          (cleanup w (CONFIG_TEMP_DIR_PREFIX +++ suffix))).
  { constructor; [now apply allowed_plain | constructor]. }
  assert (Hdir : allowed (eq testResolution) nothing
                         (Mkdtemp (CONFIG_TEMP_DIR_PREFIX +++ suffix)))
    by now apply allowed_plain.
  destruct (processVideo_start w env sourceKey _) as [tr [path|e]];
    cbn [fst] in Hstart; cbn [before fanout after].
  - assert (Hfan : Forall (allowed (fun res => In res remainingResolutions)
                      (fun key => exists res, In res remainingResolutions
                         /\ variant_file_key (generateS3Paths sourceKey)
                              res key))
              (concat (map fst
                 (map (processVariant w env (generateS3Paths sourceKey) path
                         (CONFIG_TEMP_DIR_PREFIX +++ suffix))
                      remainingResolutions)))).
    { apply fanout_tasks_allowed. intros res Hres.
      eapply allowed_weaken; [| |apply processVariant_allowed].
      - now intros res' <-.
      - intros key Hkey. now exists res. }
    destruct (promise_all _) as [l|e]; cbn [before fanout after].
    + pose proof (processVideo_finish_allowed w env (generateS3Paths sourceKey)
                    (CONFIG_TEMP_DIR_PREFIX +++ suffix)) as Hfin.
      destruct (processVideo_finish w env _ _) as [tr' r'];
        cbn [fst before fanout after] in *.
      repeat split; [now constructor | exact Hfan |].
      apply Forall_app. auto.
    + repeat split; [now constructor | exact Hfan | exact Hclean].
  - repeat split; [now constructor | constructor | exact Hclean].
Qed.

(** When the fan-out starts the canary has been encoded, and it is the
    only encoder call of the sequential part. *)
Lemma fanout_after_canary :
  let r := processVideo w env sourceKey in
  let p := generateS3Paths sourceKey in
  fanout r <> [] ->
  exists input workDir written,
    encoder w testResolution = FfmpegEnds written
    /\ filter is_encoder_call (before r)
       = [Ffmpeg input workDir testResolution written]
    /\ fanout r = map fst (map (processVariant w env p input workDir)
                               remainingResolutions).
Proof.
  cbv zeta.
  unfold processVideo.
  destruct (mkdtemp w) as [suffix|e]; cbn [fanout before]; [|congruence].
  pose proof (processVideo_start_ok w env sourceKey
                (CONFIG_TEMP_DIR_PREFIX +++ suffix)) as Hok.
  destruct (processVideo_start w env sourceKey _) as [tr [path|e]];
    cbn [fst snd] in Hok; cbn [fanout before]; [|congruence].
  destruct (Hok path eq_refl) as (written & Henc & Hfil).
  intros _. exists path, (CONFIG_TEMP_DIR_PREFIX +++ suffix), written.
  destruct (promise_all _) as [l|e]; [destruct (processVideo_finish _ _ _ _)|];
    cbn [fanout before filter is_encoder_call encoder_call]; auto.
Qed.

Lemma canary_failure_aborts :
  let r := processVideo w env sourceKey in
  (forall written, encoder w testResolution <> FfmpegEnds written) ->
  fanout r = [] /\ exists e, returned r = Throw e.
Proof.
  cbv zeta.
  intros Hfail. unfold processVideo.
  destruct (mkdtemp w) as [suffix|e]; cbn [fanout returned]; [|eauto].
  pose proof (processVideo_start_ok w env sourceKey
                (CONFIG_TEMP_DIR_PREFIX +++ suffix)) as Hok.
  destruct (processVideo_start w env sourceKey _) as [tr [path|e]];
    cbn [fst snd] in Hok; cbn [fanout returned]; [|eauto].
  destruct (Hok path eq_refl) as (written & Henc & _).
  now elim (Hfail written).
Qed.


Lemma prefix_cancel (a b c : string) :
  String.prefix (a +++ b) (a +++ c) = String.prefix b c.
Proof.
  induction a as [|x a IH]; cbn; [reflexivity|].
  destruct (ascii_dec x x) as [_|N]; [exact IH | now elim N].
Qed.

(** No key the pipeline uploads to lies under the canary's directory. *)
Lemma upload_key_not_canary key :
  let p := generateS3Paths sourceKey in
  pipeline_upload_key p key ->
  String.prefix (getVariantBasePath p (name testResolution) +++ "/") key
  = false.
Proof.
  cbv zeta.
  unfold getVariantBasePath, pipeline_upload_key, variant_file_key,
    getMasterPlaylistKey, getHLSBasePath.
  intros [->|(res & Hres & file & ->)]; rewrite !append_assoc;
    rewrite prefix_cancel; cbn [String.append];
    change (String "/" (String "h" (String "l" (String "s" (String "/" ?x)))))
      with ("/hls/" +++ x).
  - rewrite !prefix_cancel. reflexivity.
  - rewrite !prefix_cancel.
    destruct Hres as [<-|[<-|[<-|[]]]]; reflexivity.
Qed.

(** A run that ends well returns [true] and has written and uploaded
    the master playlist. *)
Lemma success_uploads_master b :
  let r := processVideo w env sourceKey in
  let p := generateS3Paths sourceKey in
  returned r = Ok b ->
  b = true
  /\ exists workDir,
       In (WriteFile (workDir +++ "/master.m3u8")
             (generateMasterPlaylist masterVariants) true) (after r)
       /\ In (S3PutObject (workDir +++ "/master.m3u8")
                (AWS_S3_PROD_BUCKET env) (getMasterPlaylistKey p)
                default_contentType) (after r).
Proof.
  cbv zeta.
  unfold processVideo.
  destruct (mkdtemp w) as [suffix|e]; cbn [returned after]; [|discriminate].
  destruct (processVideo_start w env sourceKey _) as [tr [path|e]];
    cbn [returned after]; [|discriminate].
  destruct (promise_all _) as [l|e]; cbn [returned after]; [|discriminate].
  pose proof (@processVideo_finish_ok w env (generateS3Paths sourceKey)
                (CONFIG_TEMP_DIR_PREFIX +++ suffix) b) as Hfin.
  destruct (processVideo_finish w env (generateS3Paths sourceKey) _)
    as [tr' r'];
    cbn [fst snd returned after] in *.
  intros ->. destruct (Hfin eq_refl) as (Hb & H1 & H2).
  split; [exact Hb|]. exists (CONFIG_TEMP_DIR_PREFIX +++ suffix).
  split; apply in_or_app; now left.
Qed.

(** C7.  The canary is the last and lowest profile, 360p.  Outside the
    fan-out the encoder runs for the canary only; the fan-out, where the
    other variants are encoded, starts only after the canary's encoder
    call has ended well in the sequential part before it; and when the
    canary's encoding does not end well there is no fan-out at all, the
    job ends in an error and no call of the run is an encoder call for
    another variant. *)
Theorem canary_first :
  let r := processVideo w env sourceKey in
  testResolution = res_360p
  /\ Forall (fun res => (height testResolution <= height res)%Z) RESOLUTIONS
  /\ Forall (allowed (eq testResolution) anything) (before r ++ after r)
  /\ (fanout r <> [] ->
      exists input workDir written,
        encoder w testResolution = FfmpegEnds written
        /\ filter is_encoder_call (before r)
           = [Ffmpeg input workDir testResolution written])
  /\ ((forall written, encoder w testResolution <> FfmpegEnds written) ->
      fanout r = []
      /\ (exists e, returned r = Throw e)
      /\ Forall (allowed (eq testResolution) anything) (all_events r)).
Proof.
  cbv zeta.
  destruct run_phases as (Hb & _ & Ha).
  assert (Hba : Forall (allowed (eq testResolution) anything)
                       (before (processVideo w env sourceKey)
                        ++ after (processVideo w env sourceKey))).
  { apply Forall_app. split.
    - eapply allowed_weaken; [| |exact Hb]; [auto | intros key []].
    - eapply allowed_weaken; [| |exact Ha];
        [intros res [] | intros key _; exact I]. }
  split; [reflexivity|]. split.
  { repeat constructor; cbn; lia. }
  split; [exact Hba|]. split.
  - intros Hne. destruct (fanout_after_canary Hne)
      as (input & workDir & written & Henc & Hfil & _).
    eauto.
  - intros Hfail. destruct (canary_failure_aborts Hfail) as [Hfan Hret].
    split; [exact Hfan|]. split; [exact Hret|].
    unfold all_events. rewrite Hfan. exact Hba.
Qed.

(** C2.  The fan-out runs over [RESOLUTIONS] without its last element,
    that is 1080p, 720p and 480p.  Every upload of a run goes to the master
    playlist key or to a file key of one of these three; the sequential
    part, which encodes the canary, uploads nothing; no key uploaded lies
    under the 360p directory; and a run that ends well has written the
    master playlist and has uploaded it to the master key.  That playlist
    has one stream entry and one URI per configured variant, in order:
    1920x1080, 1280x720, 854x480 and, for the canary, 640x360, whose entry
    is [#EXT-X-STREAM-INF:BANDWIDTH=800000,RESOLUTION=640x360,...] followed
    by [640x360/playlist.m3u8]. *)
Theorem canary_never_uploaded :
  let r := processVideo w env sourceKey in
  let p := generateS3Paths sourceKey in
  remainingResolutions = [res_1080p; res_720p; res_480p]
  /\ Forall (allowed anything (pipeline_upload_key p)) (all_events r)
  /\ Forall (allowed anything nothing) (before r)
  /\ (forall ev key,
        In ev (all_events r) -> upload_key ev = Some key ->
        String.prefix (getVariantBasePath p (name testResolution) +++ "/") key
        = false)
  /\ (forall b, returned r = Ok b ->
      exists workDir,
        In (WriteFile (workDir +++ "/master.m3u8")
              (generateMasterPlaylist masterVariants) true) (after r)
        /\ In (S3PutObject (workDir +++ "/master.m3u8")
                 (AWS_S3_PROD_BUCKET env) (getMasterPlaylistKey p)
                 default_contentType) (after r))
  /\ map resolution masterVariants
     = ["1920x1080"; "1280x720"; "854x480"; "640x360"]%string
  /\ length (stream_inf_lines (generateMasterPlaylist masterVariants)) = 4%nat
  /\ stream_inf_lines (generateMasterPlaylist masterVariants)
     = [ "#EXT-X-STREAM-INF:BANDWIDTH=5000000,RESOLUTION=1920x1080,CODECS="
           +++ dquote +++ "avc1.4d401f,mp4a.40.2" +++ dquote;
         "#EXT-X-STREAM-INF:BANDWIDTH=2800000,RESOLUTION=1280x720,CODECS="
           +++ dquote +++ "avc1.4d401f,mp4a.40.2" +++ dquote;
         "#EXT-X-STREAM-INF:BANDWIDTH=1400000,RESOLUTION=854x480,CODECS="
           +++ dquote +++ "avc1.4d401f,mp4a.40.2" +++ dquote;
         "#EXT-X-STREAM-INF:BANDWIDTH=800000,RESOLUTION=640x360,CODECS="
           +++ dquote +++ "avc1.4d401f,mp4a.40.2" +++ dquote ]
  /\ uri_lines (generateMasterPlaylist masterVariants)
     = ["1920x1080/playlist.m3u8"; "1280x720/playlist.m3u8";
        "854x480/playlist.m3u8"; "640x360/playlist.m3u8"]%string.
Proof.
  cbv zeta.
  destruct run_phases as (Hb & Hf & Ha).
  assert (Hall : Forall (allowed anything
                           (pipeline_upload_key (generateS3Paths sourceKey)))
                        (all_events (processVideo w env sourceKey))).
  { unfold all_events. rewrite !Forall_app. repeat split.
    - eapply allowed_weaken; [| |exact Hb]; [intros; exact I | intros key []].
    - eapply allowed_weaken; [| |exact Hf]; [intros; exact I|].
      intros key (res & Hres & Hkey). right. now exists res.
    - eapply allowed_weaken; [| |exact Ha]; [intros res [] |].
      intros key <-. now left. }
  split; [reflexivity|]. split; [exact Hall|]. split.
  { eapply allowed_weaken; [| |exact Hb]; [intros; exact I | auto]. }
  split.
  { intros ev key Hin Hkey. apply upload_key_not_canary.
    rewrite Forall_forall in Hall. now apply (Hall ev Hin). }
  split;
    [|split; [reflexivity|]; split; [vm_compute; reflexivity|];
      split; vm_compute; reflexivity].
  intros b Hret. now destruct (success_uploads_master Hret).
Qed.



End RunFacts.

(** A source that ffmpeg cannot read: the job stops at the canary, with
    one encoder call. *)
Lemma canary_first_witness :
  let r := Transcoder.processVideo Spec.bad_source_world Spec.sample_env
             Spec.sample_key in
  Transcoder.fanout r = []
  /\ Transcoder.returned r
     = Js.Throw (Js.Error
         ("Test transcoding failed: Transcoding failed: ffmpeg exited with code 1"
          +++ Js.newline +++ "Stderr: moov atom not found"))
  /\ filter Transcoder.is_encoder_call (Transcoder.all_events r)
     = [Transcoder.Ffmpeg "/app/original-v.mp4" "hls-a1B2c3"
          Transcoder.res_360p []].
Proof.
  cbv zeta.
  destruct (canary_first Spec.bad_source_world Spec.sample_env Spec.sample_key)
    as (_ & _ & _ & _ & Habort).
  destruct Habort as (Hfan & _ & _); [intros written; discriminate|].
  split; [exact Hfan|]. split; vm_compute; reflexivity.
Defined.

(** A first run: the files of 1080p, 720p and 480p and the master playlist
    are uploaded, nothing of 360p. *)
Lemma canary_never_uploaded_witness :
  let r := Transcoder.processVideo Spec.fresh_world Spec.sample_env
             Spec.sample_key in
  Transcoder.returned r = Js.Ok true
  /\ (exists workDir,
        In (Transcoder.S3PutObject (workDir +++ "/master.m3u8") "streams"
              "c1/hls/v/master.m3u8" "application/x-mpegURL")
           (Transcoder.after r))
  /\ map Transcoder.upload_key
         (filter Transcoder.is_upload (Transcoder.all_events r))
     = map Some
         ["c1/hls/v/1080p/playlist.m3u8"; "c1/hls/v/1080p/segment_000.ts";
          "c1/hls/v/1080p/segment_001.ts";
          "c1/hls/v/720p/playlist.m3u8"; "c1/hls/v/720p/segment_000.ts";
          "c1/hls/v/720p/segment_001.ts";
          "c1/hls/v/480p/playlist.m3u8"; "c1/hls/v/480p/segment_000.ts";
          "c1/hls/v/480p/segment_001.ts";
          "c1/hls/v/master.m3u8"].
Proof.
  cbv zeta.
  assert (Hret : Transcoder.returned
                   (Transcoder.processVideo Spec.fresh_world Spec.sample_env
                      Spec.sample_key) = Js.Ok true)
    by (vm_compute; reflexivity).
  destruct (canary_never_uploaded Spec.fresh_world Spec.sample_env
              Spec.sample_key) as (_ & _ & _ & _ & Hmaster & _).
  split; [exact Hret|]. split.
  - destruct (Hmaster true Hret) as (workDir & _ & Hput). now exists workDir.
  - vm_compute. reflexivity.
Defined.



Section CleanupFacts.
Import Js Transcoder Spec.

(** C4 (the code at a download that yields an empty file on every
    attempt).  The job makes its three attempts, each creating
    [original-v.mp4] in the working directory of the process, ends in
    [Downloaded file is empty], and its only cleanup is the removal of
    the workspace directory: the downloaded file is still on disk. *)
Theorem download_failure_leaves_source_file :
  let r := processVideo empty_download_world sample_env sample_key in
  returned r = Throw (Error "Downloaded file is empty")
  /\ all_events r
     = [Mkdtemp "hls-a1B2c3";
        S3GetObject "uploads" sample_key;
        CreateWriteStream "original-v.mp4" true; Stat "original-v.mp4";
        Sleep 1000;
        S3GetObject "uploads" sample_key;
        CreateWriteStream "original-v.mp4" true; Stat "original-v.mp4";
        Sleep 2000;
        S3GetObject "uploads" sample_key;
        CreateWriteStream "original-v.mp4" true; Stat "original-v.mp4";
        Rm "hls-a1B2c3" true]
  /\ disk_after [] (all_events r) = ["original-v.mp4"%string].
Proof. cbv zeta. repeat split; vm_compute; reflexivity. Qed.
End CleanupFacts.

Section CleanupGeneral.
Import Js Transcoder Spec.

Lemma disk_after_failed_download (file workDir bucket key : string) (ok : bool) :
  String.eqb file workDir = false -> under workDir file = false ->
  disk_after []
    [Mkdtemp workDir;
     S3GetObject bucket key; CreateWriteStream file true; Stat file;
     Sleep 1000;
     S3GetObject bucket key; CreateWriteStream file true; Stat file;
     Sleep 2000;
     S3GetObject bucket key; CreateWriteStream file true; Stat file;
     Rm workDir ok]
  = if ok then [file] else [file; workDir].
Proof.
  intros Hne Hu. unfold disk_after. cbn [fold_left disk_step].
  unfold disk_add.
  repeat (cbn [existsb orb]; rewrite ?Hne, ?String.eqb_refl).
  destruct ok; [|reflexivity].
  cbn [filter]. rewrite Hu. unfold under. rewrite String.eqb_refl.
  reflexivity.
Qed.

(** The same for every source key and every environment in which the
    download yields an empty file each time: the workspace goes (when
    [rm] succeeds), the downloaded file stays. *)
Lemma empty_download_leaves_file (w : World) (env : Env)
    (sourceKey suffix : string) :
  mkdtemp w = Ok suffix ->
  (forall k, download w k = Downloaded 0) ->
  let r := processVideo w env sourceKey in
  let file := "original-" +++ path_basename sourceKey in
  let workDir := CONFIG_TEMP_DIR_PREFIX +++ suffix in
  returned r = Throw (Error "Downloaded file is empty")
  /\ disk_after [] (all_events r)
     = if succeeded (rm w workDir) then [file] else [file; workDir].
Proof.
  intros Hmk Hdl. cbv zeta. unfold processVideo. rewrite Hmk.
  unfold processVideo_start, downloadFromS3, withRetry, Retry.withRetry,
    CONFIG_MAX_RETRIES.
  cbn [Retry.withRetry_loop]. rewrite !Hdl.
  cbn [N.eqb try_catch bind emit throw Nat.eqb app fst snd returned
         all_events before fanout after concat].
  split; [reflexivity|]. unfold cleanup.
  apply disk_after_failed_download; reflexivity.
Qed.
End CleanupGeneral.

(* ================================================================== *)
(** * Further properties of the code *)
(* ================================================================== *)

(** ** Retry: the first success ends the loop *)

Section RetrySuccess.
Import Js Retry Spec.
Variables (Ev A : Type) (Sleep : Z -> Ev).
Variable operation : nat -> M Ev A.

Lemma withRetry_loop_success base maxRetries k v : forall n attempt remaining lastError,
  (1 <= attempt)%nat -> (attempt + n = k)%nat -> (k <= maxRetries)%nat ->
  (attempt + remaining = S maxRetries)%nat ->
  (forall j, (attempt <= j < k)%nat -> exists e, snd (operation j) = Throw e) ->
  snd (operation k) = Ok v ->
  withRetry_loop Sleep operation base maxRetries remaining attempt lastError
  = (retry_schedule Sleep (fun j => fst (operation j))
       (spec_delay base 10000) attempt (S n), Ok v).
Proof.
  induction n as [|n IH]; intros attempt remaining lastError H1 Hk Hmax Hrem Hfail Hok.
  - assert (attempt = k) by lia. subst attempt.
    destruct remaining as [|r]; [lia|]. cbn [withRetry_loop retry_schedule].
    revert Hok. destruct (operation k) as [tr res]. cbn. intros ->.
    now rewrite app_nil_r.
  - destruct remaining as [|r]; [lia|]. cbn [withRetry_loop retry_schedule].
    destruct (Hfail attempt ltac:(lia)) as [e He]. revert He.
    destruct (operation attempt) as [tr res] eqn:Eop. cbn. intros ->.
    unfold try_catch. destruct (Nat.eqb_spec attempt maxRetries) as [E|_]; [lia|].
    unfold bind, emit.
    rewrite (IH (S attempt) r e) by (try lia; try assumption; intros j Hj; apply Hfail; lia).
    rewrite spec_delay_backoff by lia. reflexivity.
Qed.

Lemma retryWithBackoff_loop_success retries k v : forall n i remaining,
  (S i + n = k)%nat -> (k <= retries)%nat -> (i + remaining = retries)%nat ->
  (forall j, (S i <= j < k)%nat -> exists e, snd (operation j) = Throw e) ->
  snd (operation k) = Ok v ->
  retryWithBackoff_loop Sleep operation retries remaining i
  = (retry_schedule Sleep (fun j => fst (operation j))
       (spec_delay 1000 5000) (S i) (S n), Ok v).
Proof.
  induction n as [|n IH]; intros i remaining Hk Hmax Hrem Hfail Hok.
  - assert (E : k = S i) by lia. clear Hk. subst k.
    destruct remaining as [|r]; [lia|]. cbn [retryWithBackoff_loop retry_schedule].
    replace (i + 1)%nat with (S i) by lia.
    revert Hok. destruct (operation (S i)) as [tr res]. cbn. intros ->.
    now rewrite app_nil_r.
  - destruct remaining as [|r]; [lia|]. cbn [retryWithBackoff_loop retry_schedule].
    replace (i + 1)%nat with (S i) by lia.
    destruct (Hfail (S i) ltac:(lia)) as [e He]. revert He.
    destruct (operation (S i)) as [tr res] eqn:Eop. cbn. intros ->.
    unfold try_catch. destruct (Nat.eqb_spec i (retries - 1)) as [E|_]; [lia|].
    unfold bind, emit.
    rewrite (IH (S i) r) by (try lia; try assumption; intros j Hj; apply Hfail; lia).
    rewrite <- (spec_delay_backoff 1000 5000 (k := S i)) by lia.
    replace (S i - 1)%nat with i by lia. reflexivity.
Qed.

Lemma withRetry_loop_ok_inv base maxRetries v : forall remaining attempt lastError,
  snd (withRetry_loop Sleep operation base maxRetries remaining attempt lastError)
  = Ok v ->
  exists k, (attempt <= k < attempt + remaining)%nat
    /\ (forall j, (attempt <= j < k)%nat -> exists e, snd (operation j) = Throw e)
    /\ snd (operation k) = Ok v.
Proof.
  induction remaining as [|r IH]; intros attempt lastError; cbn [withRetry_loop].
  - discriminate.
  - destruct (operation attempt) as [tr [a|e]] eqn:Eop; unfold try_catch.
    + cbn. intros [= ->]. exists attempt. rewrite Eop. repeat split; [lia..|]. 
      intros j Hj. lia.
    + destruct (attempt =? maxRetries)%nat; [cbn; discriminate|].
      unfold bind, emit.
      destruct (withRetry_loop Sleep operation base maxRetries r (S attempt) e)
        as [tr' res] eqn:El.
      cbn. intros ->.
      destruct (IH (S attempt) e) as (k & Hk & Hfail & Hok); [now rewrite El|].
      exists k. repeat split; [lia..| |exact Hok].
      intros j Hj. destruct (Nat.eq_dec j attempt) as [->|N].
      * exists e. now rewrite Eop.
      * apply Hfail. lia.
Qed.

Lemma retryWithBackoff_loop_ok_inv retries v : forall remaining i,
  snd (retryWithBackoff_loop Sleep operation retries remaining i) = Ok v ->
  exists k, (S i <= k < S i + remaining)%nat
    /\ (forall j, (S i <= j < k)%nat -> exists e, snd (operation j) = Throw e)
    /\ snd (operation k) = Ok v.
Proof.
  induction remaining as [|r IH]; intros i; cbn [retryWithBackoff_loop].
  - discriminate.
  - replace (i + 1)%nat with (S i) by lia.
    destruct (operation (S i)) as [tr [a|e]] eqn:Eop; unfold try_catch.
    + cbn. intros [= ->]. exists (S i). rewrite Eop. repeat split; [lia..|].
      intros j Hj. lia.
    + destruct (i =? retries - 1)%nat; [cbn; discriminate|].
      unfold bind, emit.
      destruct (retryWithBackoff_loop Sleep operation retries r (S i))
        as [tr' res] eqn:El.
      cbn. intros ->.
      destruct (IH (S i)) as (k & Hk & Hfail & Hok); [now rewrite El|].
      exists k. repeat split; [lia..| |exact Hok].
      intros j Hj. destruct (Nat.eq_dec j (S i)) as [->|N].
      * exists e. now rewrite Eop.
      * apply Hfail. lia.
Qed.

(** X1.  Both executors return a value exactly when one of the first
    [maxAttempts] attempts ends well, and then they return the value of the
    first such attempt [k], having made attempts 1 to [k] with the delay
    [min(1000 * 2^(j-1), ceiling)] after each failed attempt [j < k] and
    nothing after attempt [k]. *)
Theorem retry_first_success (baseDelay : Z) (maxAttempts : nat) (v : A) :
  (forall k, (1 <= k <= maxAttempts)%nat -> first_success operation k v ->
     withRetry Sleep operation baseDelay maxAttempts
     = (retry_schedule Sleep (fun j => fst (operation j))
          (spec_delay baseDelay 10000) 1 k, Ok v)
     /\ retryWithBackoff Sleep operation maxAttempts
        = (retry_schedule Sleep (fun j => fst (operation j))
             (spec_delay 1000 5000) 1 k, Ok v))
  /\ (snd (withRetry Sleep operation baseDelay maxAttempts) = Ok v ->
      exists k, (1 <= k <= maxAttempts)%nat /\ first_success operation k v)
  /\ (snd (retryWithBackoff Sleep operation maxAttempts) = Ok v ->
      exists k, (1 <= k <= maxAttempts)%nat /\ first_success operation k v).
Proof.
  split; [|split].
  - intros k Hk [Hfail Hok]. unfold withRetry, retryWithBackoff.
    destruct k as [|n]; [lia|]. split.
    + apply (withRetry_loop_success baseDelay (k := S n));
        try lia; try assumption.
    + apply (retryWithBackoff_loop_success (k := S n));
        try lia; try assumption.
  - unfold withRetry. intros H.
    apply withRetry_loop_ok_inv in H as (k & Hk & Hfail & Hok).
    exists k. split; [lia|]. split; [|exact Hok].
    intros j Hj. apply Hfail. lia.
  - unfold retryWithBackoff. intros H.
    apply retryWithBackoff_loop_ok_inv in H as (k & Hk & Hfail & Hok).
    exists k. split; [lia|]. split; [|exact Hok].
    intros j Hj. apply Hfail. lia.
Qed.
End RetrySuccess.

(** An operation that ends well at its third attempt, under both
    executors. *)
Lemma retry_first_success_witness :
  Retry.withRetry Spec.Pause Spec.flaky_operation 1000 3
  = ([Spec.Attempt 1; Spec.Pause 1000; Spec.Attempt 2; Spec.Pause 2000;
      Spec.Attempt 3], Js.Ok 3)
  /\ Retry.retryWithBackoff Spec.Pause Spec.flaky_operation 5
     = ([Spec.Attempt 1; Spec.Pause 1000; Spec.Attempt 2; Spec.Pause 2000;
         Spec.Attempt 3], Js.Ok 3).
Proof.
  assert (F : Spec.first_success Spec.flaky_operation 3 3).
  { split; [|reflexivity]. intros j Hj.
    assert (j = 1 \/ j = 2)%nat as [->| ->] by lia; eexists; reflexivity. }
  destruct (retry_first_success Spec.Pause Spec.flaky_operation 1000 3 3)
    as (H3 & _).
  destruct (retry_first_success Spec.Pause Spec.flaky_operation 1000 5 3)
    as (H5 & _).
  split.
  - exact (proj1 (H3 3 ltac:(lia) F)).
  - exact (proj2 (H5 3 ltac:(lia) F)).
Defined.

(** ** Uploads of a variant *)

Section UploadFacts.
Import Js Transcoder Spec.

Lemma chunks_loop_partition {A} (n : nat) : forall fuel (files : list A),
  (1 <= n)%nat -> (length files <= fuel)%nat ->
  concat (chunks_loop fuel n files) = files
  /\ Forall (fun chunk => (1 <= length chunk <= n)%nat)
            (chunks_loop fuel n files).
Proof.
  induction fuel as [|fuel IH]; intros files Hn Hlen.
  - destruct files; [cbn; auto | cbn in Hlen; lia].
  - destruct files as [|f files]; [cbn; auto|].
    cbn [chunks_loop concat].
    destruct (IH (skipn n (f :: files)) Hn) as [Hcat Hall].
    { rewrite length_skipn. cbn [length] in *. lia. }
    split.
    + rewrite Hcat. apply firstn_skipn.
    + constructor; [|exact Hall].
      rewrite length_firstn. cbn [length]. lia.
Qed.

(** X2.  The slices [uploadHLSFiles] cuts the directory listing into put
    the files back in order when joined, and each holds at least one and
    at most [size] files; with [CONFIG_UPLOAD_CONCURRENCY] that is at most
    five uploads in flight. *)
Theorem chunks_partition {A} (size : nat) (files : list A) :
  (1 <= size)%nat ->
  concat (chunks size files) = files
  /\ Forall (fun chunk => (1 <= length chunk <= size)%nat) (chunks size files)
  /\ CONFIG_UPLOAD_CONCURRENCY = 5%nat.
Proof.
  intros Hn. unfold chunks.
  destruct (chunks_loop_partition (fuel := length files) files Hn (le_n _)).
  auto.
Qed.

Lemma for_each_ok_incl {A} (xs : list A) (body : A -> M event unit) :
  snd (for_each xs body) = Ok tt ->
  forall x, In x xs -> incl (fst (body x)) (fst (for_each xs body)).
Proof.
  induction xs as [|y xs IH]; cbn [for_each]; intros Hok x Hx; [destruct Hx|].
  apply bind_ok_inv in Hok as ([] & Hy & Hrest).
  rewrite (bind_of_ok _ _ Hy). cbn [fst].
  destruct Hx as [->|Hx].
  - apply incl_appl, incl_refl.
  - apply incl_appr. now apply IH.
Qed.

Lemma bind_ret_fst {A} (m : M event A) :
  fst (bind m (fun _ => ret tt)) = fst m.
Proof. destruct m as [tr [a|e]]; cbn; [apply app_nil_r | reflexivity]. Qed.

Lemma uploadToS3_first filePath bucket key contentType (w : World) :
  In (S3PutObject filePath bucket key contentType)
     (fst (uploadToS3 w filePath bucket key contentType)).
Proof.
  unfold uploadToS3, withRetry, Retry.withRetry, CONFIG_MAX_RETRIES.
  cbn [Retry.withRetry_loop]. apply try_catch_In. cbn. auto.
Qed.

(** X3.  When [uploadHLSFiles] ends well, every file the directory listing
    returned has been put: from [outputDir/name/file] to the key
    [s3BasePath/name/file], as [application/x-mpegURL] when its name ends
    in [.m3u8] and as [video/MP2T] otherwise.  For [playlist.m3u8] that key
    is the one the existence check of a later run probes. *)
Theorem uploadHLSFiles_complete (w : World) (outputDir : string)
    (resolution : Resolution) (bucket : string) (p : S3Paths)
    (files : list string) :
  readdir w (outputDir +++ "/" +++ name resolution) = Ok files ->
  snd (uploadHLSFiles w outputDir resolution bucket (getHLSBasePath p)) = Ok tt ->
  (forall file, In file files ->
     In (S3PutObject (outputDir +++ "/" +++ name resolution +++ "/" +++ file)
           bucket
           (getHLSBasePath p +++ "/" +++ name resolution +++ "/" +++ file)
           (upload_contentType file))
        (fst (uploadHLSFiles w outputDir resolution bucket (getHLSBasePath p))))
  /\ getHLSBasePath p +++ "/" +++ name resolution +++ "/" +++ "playlist.m3u8"
     = getVariantPlaylistKey p (name resolution)
  /\ upload_contentType "playlist.m3u8" = "application/x-mpegURL"%string.
Proof.
  intros Hdir Hok. split; [|split; [|reflexivity]].
  - intros file Hfile. unfold uploadHLSFiles in *. rewrite Hdir in *.
    apply bind_ok_inv in Hok as (files' & Hf & Hok). cbn [snd] in Hf.
    injection Hf as <-.
    match goal with
    | |- In _ (fst (bind ?m ?f)) =>
        rewrite (bind_of_ok m f (a := files) eq_refl)
    end.
    cbn [fst]. apply in_or_app. right.
    destruct (chunks_loop_partition (fuel := length files)
                (n := CONFIG_UPLOAD_CONCURRENCY) files)
      as (Hcat & _); [unfold CONFIG_UPLOAD_CONCURRENCY; lia | apply le_n |].
    change (chunks_loop (length files) CONFIG_UPLOAD_CONCURRENCY files)
      with (chunks CONFIG_UPLOAD_CONCURRENCY files) in Hcat.
    rewrite <- Hcat in Hfile. apply in_concat in Hfile as (chunk & Hchunk & Hin).
    apply (for_each_ok_incl _ _ Hok chunk Hchunk).
    rewrite bind_ret_fst. unfold parallel. cbn [fst].
    apply in_concat. eexists. split.
    + apply in_map, in_map, Hin.
    + apply uploadToS3_first.
  - unfold getVariantPlaylistKey, getHLSBasePath. now rewrite !append_assoc.
Qed.
End UploadFacts.

(** Twelve files go up in slices of five, five and two. *)
Lemma chunks_partition_witness :
  map (@length nat) (Transcoder.chunks 5 (seq 0 12)) = [5; 5; 2]%nat
  /\ concat (Transcoder.chunks 5 (seq 0 12)) = seq 0 12.
Proof.
  split; [reflexivity|].
  exact (proj1 (chunks_partition (size := 5) (seq 0 12) ltac:(lia))).
Defined.

(** The files of 720p in a first run. *)
Lemma uploadHLSFiles_complete_witness :
  In (Transcoder.S3PutObject "hls-a1B2c3/720p/segment_001.ts" "streams"
        "c1/hls/v/720p/segment_001.ts" "video/MP2T")
     (fst (Transcoder.uploadHLSFiles Spec.fresh_world "hls-a1B2c3"
             Transcoder.res_720p "streams"
             (Transcoder.getHLSBasePath
                (Transcoder.generateS3Paths Spec.sample_key)))).
Proof.
  destruct (@uploadHLSFiles_complete Spec.fresh_world "hls-a1B2c3"
              Transcoder.res_720p "streams"
              (Transcoder.generateS3Paths Spec.sample_key) Spec.hls_files
              eq_refl eq_refl) as (H & _).
  apply (H "segment_001.ts"%string). cbn. tauto.
Defined.

(** ** The phases of a run *)

Section PhaseFacts.
Import Js Transcoder Spec.
Variables (w : World) (env : Env).

Lemma withRetry_pauses {A} (P : event -> Prop) (op : nat -> M event A) :
  (forall k, Forall P (fst (op k))) ->
  P (Sleep 1000) -> P (Sleep 2000) ->
  Forall P (fst (withRetry op)).
Proof.
  intros Hop H1 H2. unfold withRetry, Retry.withRetry, CONFIG_MAX_RETRIES.
  cbn [Retry.withRetry_loop Nat.eqb].
  apply try_catch_Forall; [apply Hop|]. intros e1 _.
  apply bind_Forall; [cbn; repeat constructor; exact H1|]. intros _ _.
  apply try_catch_Forall; [apply Hop|]. intros e2 _.
  apply bind_Forall; [cbn; repeat constructor; exact H2|]. intros _ _.
  apply try_catch_Forall; [apply Hop|]. intros e3 _. constructor.
Qed.

Lemma downloadFromS3_start bucket key :
  Forall start_event (fst (downloadFromS3 w env bucket key)).
Proof.
  apply withRetry_pauses; [|now left | now right].
  intros k. destruct (download w k); cbn; repeat constructor.
Qed.

Lemma transcodeToHLS_both input outputDir res :
  Forall (fun ev => start_event ev /\ variant_event ev)
         (fst (transcodeToHLS w input outputDir res)).
Proof.
  unfold transcodeToHLS. destruct (encoder w res); cbn; repeat constructor.
Qed.

Lemma processVideo_start_events sourceKey workDir :
  Forall start_event (fst (processVideo_start w env sourceKey workDir)).
Proof.
  unfold processVideo_start. apply bind_Forall; [apply downloadFromS3_start|].
  intros path _. apply bind_Forall.
  - apply for_each_Forall. intros res _. cbn. repeat constructor.
  - intros _ _. apply bind_Forall; [|intros; constructor].
    apply try_catch_Forall; [|intros; constructor].
    eapply Forall_impl; [|apply transcodeToHLS_both]. now intros ev [H _].
Qed.

Lemma uploadToS3_events (P : event -> Prop) filePath bucket key contentType :
  P (S3PutObject filePath bucket key contentType) ->
  P (Sleep 1000) -> P (Sleep 2000) ->
  Forall P (fst (uploadToS3 w filePath bucket key contentType)).
Proof.
  intros Hput H1 H2. apply withRetry_pauses; [|exact H1 | exact H2].
  intros k. cbn. repeat constructor. exact Hput.
Qed.

Lemma processVariant_events p input workDir res :
  Forall variant_event (fst (processVariant w env p input workDir res)).
Proof.
  unfold processVariant. apply try_catch_Forall; [|intros; constructor].
  apply bind_Forall.
  - rewrite (proj1 (checkFileExists_spec _ _ _)). repeat constructor.
  - intros [|] _; [constructor|]. apply bind_Forall.
    + eapply Forall_impl; [|apply transcodeToHLS_both]. now intros ev [_ H].
    + intros _ _. unfold uploadHLSFiles. apply bind_Forall.
      * cbn. repeat constructor.
      * intros files _. apply for_each_Forall. intros chunk _.
        apply bind_Forall; [|intros; constructor].
        unfold parallel. cbn [fst]. apply parallel_like_Forall.
        apply Forall_map, Forall_forall. intros file _.
        apply uploadToS3_events; cbn; [exact I | now left | now right].
Qed.

Lemma processVideo_finish_events p workDir :
  Forall finish_event (fst (processVideo_finish w env p workDir)).
Proof.
  unfold processVideo_finish. apply bind_Forall.
  - cbn. repeat constructor.
  - intros _ _. apply bind_Forall; [|intros; constructor].
    apply uploadToS3_events; cbn; [exact I | now left | now right].
Qed.
End PhaseFacts.

(** ** Attempts that never settle *)

Section SettlementFacts.
Import Js Retry.
Variables (Ev A : Type) (Sleep : Z -> Ev).
Variable op : nat -> M Ev A.
Variable op' : nat -> M Ev (option A).
Variable stalled : nat -> bool.
Variable calls : nat -> list Ev.
Hypothesis Hstall : forall k, stalled k = true -> op' k = (calls k, Ok None).
Hypothesis Hlive : forall k, stalled k = false ->
  op' k = (fst (op k),
           match snd (op k) with Ok v => Ok (Some v) | Throw e => Throw e end).

(** The loop over attempts that may stall, against the loop over the
    same attempts when they settle. *)
Lemma withRetry_loop_settlement base maxRetries :
  forall remaining attempt lastError,
  (attempt + remaining = S maxRetries)%nat ->
  let m' := withRetry_loop Sleep op' base maxRetries remaining attempt
              lastError in
  let m := withRetry_loop Sleep op base maxRetries remaining attempt
             lastError in
  match snd m' with
  | Ok None =>
      exists k tr,
        (attempt <= k <= maxRetries)%nat /\ stalled k = true
        /\ (forall j, (attempt <= j < k)%nat ->
              stalled j = false /\ exists e, snd (op j) = Throw e)
        /\ fst m' = tr ++ calls k
  | Ok (Some v) =>
      m = (fst m', Ok v)
      /\ exists k, (attempt <= k <= maxRetries)%nat /\ snd (op k) = Ok v
           /\ forall j, (attempt <= j <= k)%nat -> stalled j = false
  | Throw e =>
      m = (fst m', Throw e)
      /\ forall j, (attempt <= j <= maxRetries)%nat ->
           stalled j = false /\ exists e', snd (op j) = Throw e'
  end.
Proof.
  induction remaining as [|r IH]; intros attempt lastError Hrem; cbv zeta.
  - cbn. split; [reflexivity|]. intros j Hj. lia.
  - cbn [withRetry_loop]. destruct (stalled attempt) eqn:Hs.
    + rewrite (@Hstall _ Hs). cbn. exists attempt, []. repeat split; try lia; try exact Hs.
    + rewrite (@Hlive _ Hs). destruct (op attempt) as [tr [v|e]] eqn:Eop;
        cbn [fst snd try_catch].
      * split; [reflexivity|]. exists attempt. rewrite Eop.
        repeat split; try lia. intros j Hj.
        assert (j = attempt) by lia. now subst.
      * destruct (Nat.eqb_spec attempt maxRetries) as [E|N].
        -- cbn. split; [reflexivity|]. intros j Hj.
           assert (j = attempt) by lia. subst j. rewrite Eop.
           split; [exact Hs | now exists e].
        -- specialize (IH (S attempt) e ltac:(lia)). cbv zeta in IH.
           unfold bind, emit.
           destruct (withRetry_loop Sleep op' base maxRetries r (S attempt) e)
             as [tr1' [[v|]|e1]];
             destruct (withRetry_loop Sleep op base maxRetries r (S attempt) e)
               as [tr1 r1]; cbn [fst snd] in *.
           ++ destruct IH as [[= -> ->] (k & Hk & Hok & Hno)].
              split; [reflexivity|]. exists k. repeat split; try lia;
                [exact Hok|].
              intros j Hj. destruct (Nat.eq_dec j attempt) as [->|Hne];
                [exact Hs | apply Hno; lia].
           ++ destruct IH as (k & tr0 & Hk & Hst & Hbefore & ->).
              exists k, (tr ++ Sleep (backoff base 10000 (attempt - 1)) :: tr0).
              repeat split; try lia; try exact Hst.
              ** destruct (Nat.eq_dec j attempt) as [->|Hne];
                   [exact Hs | apply Hbefore; lia].
              ** destruct (Nat.eq_dec j attempt) as [->|Hne];
                   [rewrite Eop; now exists e | apply Hbefore; lia].
              ** cbn. now rewrite <- app_assoc.
           ++ destruct IH as [[= -> ->] Hall].
              split; [reflexivity|]. intros j Hj.
              destruct (Nat.eq_dec j attempt) as [->|Hne];
                [rewrite Eop; split; [exact Hs | now exists e]
                | apply Hall; lia].
Qed.
End SettlementFacts.

(** ** The download *)

Section DownloadFacts.
Import Js Retry Transcoder Spec.
Variables (w : World) (env : Env) (bucket key : string).

Lemma withRetry_loop_count {Ev A} (Sleep : Z -> Ev) (f : Ev -> bool)
    (op : nat -> M Ev A) (c : nat) base maxRetries :
  (forall k, (length (filter f (fst (op k))) <= c)%nat) ->
  (forall d, f (Sleep d) = false) ->
  forall remaining attempt lastError,
    (length (filter f (fst (withRetry_loop Sleep op base maxRetries remaining
                              attempt lastError)))
     <= c * remaining)%nat.
Proof.
  intros Hop Hsleep. induction remaining as [|r IH]; intros attempt lastError;
    cbn [withRetry_loop]; [cbn; lia|].
  specialize (Hop attempt). unfold try_catch.
  destruct (op attempt) as [tr [a|e]]; cbn [fst] in *; [lia|].
  destruct (attempt =? maxRetries)%nat.
  - cbn. rewrite app_nil_r. lia.
  - unfold bind, emit. specialize (IH (S attempt) e).
    destruct (withRetry_loop Sleep op base maxRetries r (S attempt) e)
      as [tr' res].
    cbn [fst] in *. rewrite filter_app, length_app. cbn [app filter].
    rewrite Hsleep. lia.
Qed.

Lemma withRetry_loop_reaches {Ev A} (Sleep : Z -> Ev) (op : nat -> M Ev A)
    base maxRetries : forall remaining attempt lastError k,
  (attempt + remaining = S maxRetries)%nat ->
  (attempt <= k < attempt + remaining)%nat ->
  (exists v, snd (op k) = Ok v) ->
  exists v, snd (withRetry_loop Sleep op base maxRetries remaining attempt
                   lastError) = Ok v.
Proof.
  induction remaining as [|r IH]; intros attempt lastError k Hrem Hk Hv; [lia|].
  cbn [withRetry_loop]. unfold try_catch.
  destruct (op attempt) as [tr [a|e]] eqn:Eop; [now exists a|].
  destruct (Nat.eqb_spec attempt maxRetries) as [E|N].
  - assert (k = attempt) by lia. subst k. rewrite Eop in Hv.
    destruct Hv as [v Hv]. discriminate.
  - assert (k <> attempt).
    { intros ->. rewrite Eop in Hv. destruct Hv as [v Hv]. discriminate. }
    unfold bind, emit.
    destruct (IH (S attempt) e k) as [v Hok]; [lia | lia | exact Hv |].
    destruct (withRetry_loop Sleep op base maxRetries r (S attempt) e)
      as [tr' res].
    cbn in *. now exists v.
Qed.

Lemma retry_schedule_incl {Ev} (Sleep : Z -> Ev) calls delay : forall n a k,
  (a <= k < a + n)%nat ->
  incl (calls k) (retry_schedule Sleep calls delay a n).
Proof.
  induction n as [|n IH]; intros a k Hk; [lia|].
  cbn [retry_schedule]. destruct (Nat.eq_dec k a) as [->|N].
  - apply incl_appl, incl_refl.
  - apply incl_appr. destruct n as [|n']; [lia|].
    apply incl_tl. apply IH. lia.
Qed.

Lemma downloadFromS3_closure k path :
  let closure := fun attempt =>
    let filePath := "original-" +++ path_basename key in
    match download w attempt with
    | GetObjectFails e => ([S3GetObject bucket key], Throw e)
    | StreamFails opened e =>
        ([S3GetObject bucket key; CreateWriteStream filePath opened], Throw e)
    | StatFails e =>
        ([S3GetObject bucket key; CreateWriteStream filePath true;
          Stat filePath], Throw e)
    | Downloaded size =>
        ([S3GetObject bucket key; CreateWriteStream filePath true;
          Stat filePath],
         if (size =? 0)%N then Throw (Error "Downloaded file is empty")
         else Ok (path_resolve env filePath))
    end in
  snd (closure k) = Ok path <->
  (exists size, download w k = Downloaded size /\ size <> 0%N)
  /\ path = cwd env +++ "/" +++ downloaded_file key.
Proof.
  cbv zeta. unfold path_resolve, downloaded_file.
  destruct (download w k) as [e|o e|e|[|size]]; cbn; split;
    try discriminate;
    try (intros [(size' & Hs & Hne) _]; try discriminate Hs;
         injection Hs as <-; now elim Hne).
  - intros [= <-]. split; [|reflexivity]. eexists. split; [reflexivity|].
    discriminate.
  - intros [_ ->]. reflexivity.
Qed.

(** A download that ends well has created the file it returns. *)
Lemma downloadFromS3_ok path :
  snd (downloadFromS3 w env bucket key) = Ok path ->
  path = cwd env +++ "/" +++ downloaded_file key
  /\ In (CreateWriteStream (downloaded_file key) true)
        (fst (downloadFromS3 w env bucket key)).
Proof.
  unfold downloadFromS3, withRetry.
  match goal with
  | |- context [Retry.withRetry Sleep ?op] => set (closure := op)
  end.
  intros Hok. pose proof Hok as Hok'. unfold Retry.withRetry in Hok'.
  apply withRetry_loop_ok_inv in Hok' as (k & Hk & Hfail & Hk_ok).
  pose proof (proj1 (downloadFromS3_closure k path) Hk_ok)
    as [(size & Hs & Hne) Hpath].
  split; [exact Hpath|].
  unfold Retry.withRetry.
  destruct k as [|n]; [lia|].
  rewrite (@withRetry_loop_success _ _ Sleep closure CONFIG_RETRY_DELAY
             CONFIG_MAX_RETRIES (S n) path n 1%nat CONFIG_MAX_RETRIES
             ExnUndefined);
    unfold CONFIG_MAX_RETRIES in *; try lia; try assumption.
  cbn [fst].
  apply (@retry_schedule_incl _ Sleep (fun j => fst (closure j)) _
           (S n) 1%nat (S n)); [lia|].
  cbn beta. unfold closure. rewrite Hs. cbn. auto.
Qed.

Lemma download_attempt_cases (body_fails : nat -> bool) :
  let closure := fun attempt =>
    let filePath := "original-" +++ path_basename key in
    match download w attempt with
    | GetObjectFails e => ([S3GetObject bucket key], Throw e)
    | StreamFails opened e =>
        ([S3GetObject bucket key; CreateWriteStream filePath opened], Throw e)
    | StatFails e =>
        ([S3GetObject bucket key; CreateWriteStream filePath true;
          Stat filePath], Throw e)
    | Downloaded size =>
        ([S3GetObject bucket key; CreateWriteStream filePath true;
          Stat filePath],
         if (size =? 0)%N then Throw (Error "Downloaded file is empty")
         else Ok (path_resolve env filePath))
    end in
  (forall k, stalls w body_fails k = true ->
     download_attempt w env body_fails bucket key k
     = ([S3GetObject bucket key;
         CreateWriteStream (downloaded_file key) true], Ok None))
  /\ (forall k, stalls w body_fails k = false ->
      download_attempt w env body_fails bucket key k
      = (fst (closure k),
         match snd (closure k) with
         | Ok v => Ok (Some v)
         | Throw e => Throw e
         end)).
Proof.
  cbv zeta. unfold download_attempt, downloaded_file. split; intros k Hs;
    rewrite Hs; [reflexivity|].
  destruct (download w k) as [e|o e|e|size]; try reflexivity.
  cbn [fst snd]. now destruct (size =? 0)%N.
Qed.

(** The download with the body streams, against [downloadFromS3]. *)
Lemma downloadFromS3_settlement_cases (body_fails : nat -> bool) :
  let m := downloadFromS3_settlement w env body_fails bucket key in
  match snd m with
  | Unsettled =>
      exists k tr,
        (1 <= k <= 3)%nat /\ stalls w body_fails k = true
        /\ (forall j, (1 <= j < k)%nat ->
              stalls w body_fails j = false
              /\ forall size, download w j = Downloaded size -> size = 0%N)
        /\ fst m = tr ++ [S3GetObject bucket key;
                          CreateWriteStream (downloaded_file key) true]
  | Settled (Ok path) =>
      downloadFromS3 w env bucket key = (fst m, Ok path)
      /\ exists k size,
           (1 <= k <= 3)%nat /\ download w k = Downloaded size
           /\ size <> 0%N
           /\ forall j, (1 <= j <= k)%nat -> stalls w body_fails j = false
  | Settled (Throw e) =>
      downloadFromS3 w env bucket key = (fst m, Throw e)
      /\ forall j, (1 <= j <= 3)%nat ->
           stalls w body_fails j = false
           /\ forall size, download w j = Downloaded size -> size = 0%N
  end.
Proof.
  cbv zeta. destruct (download_attempt_cases body_fails) as [Hst Hlive].
  cbv zeta in Hst, Hlive.
  pose proof (@withRetry_loop_settlement _ _ Sleep _ _ _ _ Hst Hlive
                CONFIG_RETRY_DELAY CONFIG_MAX_RETRIES
                CONFIG_MAX_RETRIES 1%nat ExnUndefined eq_refl) as H.
  cbv zeta in H.
  assert (Hfail : forall j,
            (exists e,
               snd (let filePath := "original-" +++ path_basename key in
                    match download w j with
                    | GetObjectFails e => ([S3GetObject bucket key], Throw e)
                    | StreamFails opened e =>
                        ([S3GetObject bucket key;
                          CreateWriteStream filePath opened], Throw e)
                    | StatFails e =>
                        ([S3GetObject bucket key;
                          CreateWriteStream filePath true; Stat filePath],
                         Throw e)
                    | Downloaded size =>
                        ([S3GetObject bucket key;
                          CreateWriteStream filePath true; Stat filePath],
                         if (size =? 0)%N
                         then Throw (Error "Downloaded file is empty")
                         else Ok (path_resolve env filePath))
                    end) = Throw e) ->
            forall size, download w j = Downloaded size -> size = 0%N).
  { intros j [e He] size Hd. rewrite Hd in He. cbn in He.
    destruct size; [reflexivity | discriminate He]. }
  unfold downloadFromS3_settlement, downloadFromS3, withRetry,
    Retry.withRetry, CONFIG_MAX_RETRIES in *.
  destruct (Retry.withRetry_loop Sleep
              (download_attempt w env body_fails bucket key) _ _ _ _ _)
    as [tr' [[path|]|e]]; cbn [fst snd settle] in *.
  - destruct H as [Heq (k & Hk & Hok & Hno)]. split; [exact Heq|].
    apply downloadFromS3_closure in Hok as [(size & Hs & Hne) _].
    exists k, size. auto.
  - destruct H as (k & tr & Hk & Hs & Hbefore & Htr).
    exists k, tr. repeat split; try lia; try assumption.
    + now apply Hbefore.
    + apply Hfail. now apply Hbefore.
  - destruct H as [Heq Hall]. split; [exact Heq|]. intros j Hj.
    split; [now apply Hall | apply Hfail; now apply Hall].
Qed.

(** X5.  The download asks S3 for the object at most three times.  It
    ends well exactly when one of the first three attempts leaves a
    non-empty file and no body stream has failed up to that attempt; it
    then returns the absolute path of [original-<basename of the key>] in
    the working directory of the process, a file it has created there.
    An empty file is a failed attempt like any other.  The download
    never settles exactly when the body stream fails in an attempt that
    is reached: that attempt has then got the object and opened the
    file, and no call follows, no retry either.  Whenever the download
    settles its calls and its result are those of [downloadFromS3], as
    they are when no body stream fails. *)
Theorem downloadFromS3_outcome (body_fails : nat -> bool) :
  let m := downloadFromS3_settlement w env body_fails bucket key in
  let file := downloaded_file key in
  (length (filter is_get (fst m)) <= 3)%nat
  /\ ((exists path, snd m = Settled (Ok path)) <->
      exists k size,
        (1 <= k <= 3)%nat /\ download w k = Downloaded size /\ size <> 0%N
        /\ forall j, (1 <= j <= k)%nat -> stalls w body_fails j = false)
  /\ (forall path, snd m = Settled (Ok path) ->
      path = cwd env +++ "/" +++ file
      /\ In (CreateWriteStream file true) (fst m))
  /\ (snd m = Unsettled <->
      exists k,
        (1 <= k <= 3)%nat /\ stalls w body_fails k = true
        /\ forall j, (1 <= j < k)%nat ->
             stalls w body_fails j = false
             /\ forall size, download w j = Downloaded size -> size = 0%N)
  /\ (snd m = Unsettled ->
      exists tr, fst m = tr ++ [S3GetObject bucket key;
                                CreateWriteStream file true])
  /\ (forall r, snd m = Settled r ->
      downloadFromS3 w env bucket key = (fst m, r))
  /\ ((forall k, body_fails k = false) ->
      m = (fst (downloadFromS3 w env bucket key),
           Settled (snd (downloadFromS3 w env bucket key)))).
Proof.
  cbv zeta. pose proof (downloadFromS3_settlement_cases body_fails) as H.
  cbv zeta in H.
  assert (Hcount : (length (filter is_get
                      (fst (downloadFromS3_settlement w env body_fails
                              bucket key))) <= 3)%nat).
  { unfold downloadFromS3_settlement, withRetry, Retry.withRetry.
    pose proof (withRetry_loop_count Sleep is_get
                  (download_attempt w env body_fails bucket key) (c := 1)
                  CONFIG_RETRY_DELAY CONFIG_MAX_RETRIES) as Hc.
    specialize (Hc (fun k =>
      ltac:(unfold download_attempt;
            destruct (stalls w body_fails k); [cbn; lia|];
            destruct (download w k); cbn; lia))
      (fun d => eq_refl) CONFIG_MAX_RETRIES 1%nat ExnUndefined).
    destruct (Retry.withRetry_loop _ _ _ _ _ _ _) as [tr r].
    exact Hc. }
  split; [exact Hcount|]. clear Hcount.
  destruct (downloadFromS3_settlement w env body_fails bucket key)
    as [tr [[path|e]|]] eqn:Em; cbn [fst snd] in *.
  - destruct H as [Heq (k & size & Hk & Hd & Hne & Hno)].
    split; [split; [intros _; exists k, size; auto | intros _; eauto]|].
    split.
    { intros path' [= <-].
      assert (Hok : snd (downloadFromS3 w env bucket key) = Ok path)
        by now rewrite Heq.
      apply downloadFromS3_ok in Hok. now rewrite Heq in Hok. }
    split.
    { split; [discriminate|]. intros (k' & Hk' & Hs' & Hbefore).
      destruct (Nat.le_gt_cases k' k) as [Hle|Hgt].
      - rewrite (Hno k') in Hs' by lia. discriminate Hs'.
      - destruct (Hbefore k ltac:(lia)) as [_ Hzero].
        now elim Hne; apply Hzero. }
    split; [discriminate|]. split; [now intros r [= <-]|].
    intros _. now rewrite Heq.
  - destruct H as [Heq Hall].
    split.
    { split; [intros [path Hp]; discriminate Hp|].
      intros (k & size & Hk & Hd & Hne & _).
      destruct (Hall k Hk) as [_ Hzero]. now elim Hne; apply Hzero. }
    split; [discriminate|]. split.
    { split; [discriminate|]. intros (k & Hk & Hs & _).
      destruct (Hall k Hk) as [Hno _]. rewrite Hno in Hs. discriminate Hs. }
    split; [discriminate|]. split; [now intros r [= <-]|].
    intros _. now rewrite Heq.
  - destruct H as (k & tr0 & Hk & Hs & Hbefore & Htr).
    split.
    { split; [intros [path Hp]; discriminate Hp|].
      intros (k' & size & Hk' & Hd & Hne & Hno).
      destruct (Nat.le_gt_cases k k') as [Hle|Hgt].
      - rewrite (Hno k) in Hs by lia. discriminate Hs.
      - destruct (Hbefore k' ltac:(lia)) as [_ Hzero].
        now elim Hne; apply (Hzero size). }
    split; [discriminate|]. split.
    { split; [intros _; exists k; auto | reflexivity]. }
    split; [intros _; now exists tr0|]. split; [discriminate|].
    intros Hnone. unfold stalls in Hs. rewrite Hnone in Hs. discriminate Hs.
Qed.
End DownloadFacts.

(** The third attempt is the first to bring a non-empty file; and a
    second attempt whose body stream fails is the last. *)
Lemma downloadFromS3_outcome_witness :
  Transcoder.downloadFromS3_settlement Spec.slow_download_world
    Spec.sample_env Spec.sound_bodies "uploads" Spec.sample_key
  = ([Transcoder.S3GetObject "uploads" Spec.sample_key;
      Transcoder.Sleep 1000;
      Transcoder.S3GetObject "uploads" Spec.sample_key;
      Transcoder.CreateWriteStream "original-v.mp4" true;
      Transcoder.Stat "original-v.mp4";
      Transcoder.Sleep 2000;
      Transcoder.S3GetObject "uploads" Spec.sample_key;
      Transcoder.CreateWriteStream "original-v.mp4" true;
      Transcoder.Stat "original-v.mp4"],
     Transcoder.Settled (Js.Ok "/app/original-v.mp4"))
  /\ In (Transcoder.CreateWriteStream "original-v.mp4" true)
        (fst (Transcoder.downloadFromS3_settlement Spec.slow_download_world
                Spec.sample_env Spec.sound_bodies "uploads" Spec.sample_key))
  /\ Transcoder.downloadFromS3_settlement Spec.retried_download_world
       Spec.sample_env Spec.second_body_fails "uploads" Spec.sample_key
     = ([Transcoder.S3GetObject "uploads" Spec.sample_key;
         Transcoder.Sleep 1000;
         Transcoder.S3GetObject "uploads" Spec.sample_key;
         Transcoder.CreateWriteStream "original-v.mp4" true],
        Transcoder.Unsettled).
Proof.
  split; [reflexivity|]. split.
  - destruct (downloadFromS3_outcome Spec.slow_download_world Spec.sample_env
                "uploads" Spec.sample_key Spec.sound_bodies)
      as (_ & _ & H & _).
    exact (proj2 (H "/app/original-v.mp4"%string eq_refl)).
  - destruct (downloadFromS3_outcome Spec.retried_download_world
                Spec.sample_env "uploads" Spec.sample_key
                Spec.second_body_fails) as (_ & _ & _ & H & _).
    assert (Hu : snd (Transcoder.downloadFromS3_settlement
                        Spec.retried_download_world Spec.sample_env
                        Spec.second_body_fails "uploads" Spec.sample_key)
                 = Transcoder.Unsettled).
    { apply H. exists 2%nat. split; [lia|]. split; [reflexivity|].
      intros j Hj. assert (j = 1%nat) by lia. subst j.
      split; [reflexivity | discriminate]. }
    revert Hu. vm_compute. reflexivity.
Defined.

(** ** The shape of a job *)

Section JobFacts.
Import Js Transcoder Spec.
Variables (w : World) (env : Env).

Lemma downloadFromS3_settlement_events (P : event -> Prop)
    (body_fails : nat -> bool) bucket key :
  (forall b k, P (S3GetObject b k)) ->
  (forall p ok, P (CreateWriteStream p ok)) ->
  (forall p, P (Stat p)) ->
  P (Sleep 1000) -> P (Sleep 2000) ->
  Forall P (fst (downloadFromS3_settlement w env body_fails bucket key)).
Proof.
  intros Hget Hcreate Hstat H1 H2. unfold downloadFromS3_settlement.
  pose proof (@withRetry_pauses _ P
                (download_attempt w env body_fails bucket key)) as H.
  destruct (withRetry _) as [tr r]. cbn [fst] in *.
  apply H; [|exact H1 | exact H2].
  intros k. unfold download_attempt.
  destruct (stalls w body_fails k); [cbn; repeat constructor; auto|].
  destruct (download w k); cbn; repeat constructor; auto.
Qed.

(** X4.  A job whose workspace could not be created calls nothing else.
    Any other job creates the workspace first.  When its download never
    settles, the job has only made the calls of the download after that,
    the last of them the opening of the file, and the workspace is not
    removed.  Otherwise the job is a run of [processVideo], which removes
    the workspace last, once; in between, the sequential part only
    downloads, creates directories and encodes, the promises of the
    fan-out only probe, encode, list and put, and the part after the join
    only writes the master playlist and puts it; every pause of the job
    is 1000 or 2000 ms. *)
Theorem run_shape (body_fails : nat -> bool) (sourceKey : string) :
  let download :=
    downloadFromS3_settlement w env body_fails (AWS_S3_TEMP_BUCKET env)
      sourceKey in
  match mkdtemp w with
  | Throw e =>
      exists r,
        processVideo_job w env body_fails sourceKey = Finished r
        /\ all_events r = [] /\ returned r = Throw e
  | Ok suffix =>
      let workDir := CONFIG_TEMP_DIR_PREFIX +++ suffix in
      match processVideo_job w env body_fails sourceKey with
      | Stalled calls =>
          snd download = Unsettled
          /\ calls = Mkdtemp workDir :: fst download
          /\ Forall start_event (fst download)
          /\ (forall path ok, ~ In (Rm path ok) calls)
          /\ exists tr,
               fst download
               = tr ++ [S3GetObject (AWS_S3_TEMP_BUCKET env) sourceKey;
                        CreateWriteStream (downloaded_file sourceKey) true]
      | Finished r =>
          snd download <> Unsettled
          /\ r = processVideo w env sourceKey
          /\ exists start finish,
               before r = Mkdtemp workDir :: start
               /\ after r = finish ++ [Rm workDir (succeeded (rm w workDir))]
               /\ Forall start_event start
               /\ Forall (Forall variant_event) (fanout r)
               /\ Forall finish_event finish
      end
  end.
Proof.
  cbv zeta. unfold processVideo_job.
  destruct (mkdtemp w) as [suffix|e] eqn:Hmk.
  2:{ eexists. split; [reflexivity|]. unfold processVideo. rewrite Hmk.
      split; reflexivity. }
  pose proof (@downloadFromS3_settlement_events start_event body_fails
                (AWS_S3_TEMP_BUCKET env) sourceKey
                (fun _ _ => I) (fun _ _ => I) (fun _ => I)
                (or_introl eq_refl) (or_intror eq_refl)) as Hdl.
  pose proof (downloadFromS3_settlement_cases w env (AWS_S3_TEMP_BUCKET env)
                sourceKey body_fails) as Hcases.
  cbv zeta in Hcases.
  destruct (downloadFromS3_settlement w env body_fails _ sourceKey)
    as [trd [res|]]; cbn [fst snd] in *.
  - split; [discriminate|]. split; [reflexivity|].
    unfold processVideo. rewrite Hmk.
    pose proof (processVideo_start_events w env sourceKey
                  (CONFIG_TEMP_DIR_PREFIX +++ suffix)) as Hstart.
    destruct (processVideo_start w env sourceKey _) as [tr [path|e]];
      cbn [fst] in Hstart.
    + assert (Hfan : Forall (Forall variant_event)
                (map fst (map (processVariant w env (generateS3Paths sourceKey)
                                 path (CONFIG_TEMP_DIR_PREFIX +++ suffix))
                              remainingResolutions))).
      { rewrite map_map. apply Forall_map, Forall_forall. intros res' _.
        apply processVariant_events. }
      destruct (promise_all _) as [l|e].
      * pose proof (processVideo_finish_events w env (generateS3Paths sourceKey)
                      (CONFIG_TEMP_DIR_PREFIX +++ suffix)) as Hfin.
        destruct (processVideo_finish w env _ _) as [tr' r'].
        cbn [fst before fanout after] in *. exists tr, tr'. auto.
      * cbn [before fanout after]. exists tr, []. auto.
    + cbn [before fanout after]. exists tr, []. repeat split; auto.
  - destruct Hcases as (k & tr0 & _ & _ & _ & Htr).
    split; [reflexivity|]. split; [reflexivity|]. split; [exact Hdl|].
    split; [|now exists tr0].
    intros path ok [H|H]; [discriminate H|].
    rewrite Forall_forall in Hdl. exact (Hdl _ H).
Qed.
End JobFacts.

(** ** The disk after a run that ends well *)

Section DiskFacts.
Import Js Transcoder Spec.
Variables (w : World) (env : Env).

Lemma disk_add_keeps p q (d : disk) : In p d -> In p (disk_add q d).
Proof.
  unfold disk_add. destruct (existsb _ d); [auto | now right].
Qed.

Lemma disk_add_in q (d : disk) : In q (disk_add q d).
Proof.
  unfold disk_add. destruct (existsb (String.eqb q) d) eqn:E; [|now left].
  apply existsb_exists in E as (x & Hx & Heq).
  apply String.eqb_eq in Heq. now subst.
Qed.

Lemma disk_step_keeps ev (d : disk) p :
  keeps_files ev -> In p d -> In p (disk_step d ev).
Proof.
  destruct ev as [dir|b k|path [|]|path|ms|path [|]|path|path
                  |input out res written|b k|dir|f b k c|path c [|]
                  |path [|]];
    cbn; intros Hk Hin; auto using disk_add_keeps; [|contradiction].
  revert d Hin. induction written as [|file written IH]; intros d Hin;
    cbn; [exact Hin|]. apply IH. now apply disk_add_keeps.
Qed.

Lemma disk_after_keeps tr (d : disk) p :
  Forall keeps_files tr -> In p d -> In p (disk_after d tr).
Proof.
  intros H. revert d. induction H as [|ev tr Hev _ IH]; intros d Hin;
    [exact Hin|]. cbn. apply IH. now apply disk_step_keeps.
Qed.

Lemma disk_after_app (d : disk) tr1 tr2 :
  disk_after d (tr1 ++ tr2) = disk_after (disk_after d tr1) tr2.
Proof. apply fold_left_app. Qed.

Lemma disk_after_creates tr (d : disk) p :
  Forall keeps_files tr -> In (CreateWriteStream p true) tr ->
  In p (disk_after d tr).
Proof.
  intros Hk Hin. apply in_split in Hin as (tr1 & tr2 & ->).
  apply Forall_app in Hk as [_ Hk]. apply Forall_cons_iff in Hk as [_ Hk].
  rewrite disk_after_app. cbn. apply disk_after_keeps; [exact Hk|].
  apply disk_add_in.
Qed.

Lemma start_event_keeps ev : start_event ev -> keeps_files ev.
Proof. destruct ev as [| |? []| | |? []| | | | | | |? ? []|? []]; cbn; auto. Qed.

Lemma variant_event_keeps ev : variant_event ev -> keeps_files ev.
Proof. destruct ev as [| |? []| | |? []| | | | | | |? ? []|? []]; cbn; auto. Qed.

Lemma finish_event_keeps ev : finish_event ev -> keeps_files ev.
Proof. destruct ev as [| |? []| | |? []| | | | | | |? ? []|? []]; cbn; auto. Qed.

(** A run that ends well went through every phase. *)
Lemma successful_run_parts sourceKey suffix b :
  let r := processVideo w env sourceKey in
  let p := generateS3Paths sourceKey in
  let workDir := CONFIG_TEMP_DIR_PREFIX +++ suffix in
  mkdtemp w = Ok suffix -> returned r = Ok b ->
  exists path,
    snd (processVideo_start w env sourceKey workDir) = Ok path
    /\ (exists l, promise_all (map snd (map (processVariant w env p path workDir)
                                         remainingResolutions)) = Ok l)
    /\ snd (processVideo_finish w env p workDir) = Ok b
    /\ before r = Mkdtemp workDir
                    :: fst (processVideo_start w env sourceKey workDir)
    /\ fanout r = map fst (map (processVariant w env p path workDir)
                              remainingResolutions)
    /\ after r = fst (processVideo_finish w env p workDir)
                   ++ cleanup w workDir.
Proof.
  cbv zeta. intros Hmk. unfold processVideo. rewrite Hmk.
  destruct (processVideo_start w env sourceKey _) as [tr [path|e]];
    cbn [returned]; [|discriminate].
  destruct (promise_all _) as [l|e] eqn:Hall; cbn [returned]; [|discriminate].
  destruct (processVideo_finish w env _ _) as [tr' r'].
  cbn [returned before fanout after fst snd]. intros ->.
  exists path. rewrite Hall. repeat split; eauto.
Qed.

(** X6.  After a run that ends well and whose final [fs.rm] succeeds,
    nothing at or under the workspace directory is left, every path that
    was on the disk outside the workspace is still there, and so is the
    downloaded source [original-<basename>], which nothing removes. *)
Theorem successful_run_disk (sourceKey suffix : string) (b : bool) (d : disk) :
  let r := processVideo w env sourceKey in
  let workDir := CONFIG_TEMP_DIR_PREFIX +++ suffix in
  mkdtemp w = Ok suffix -> returned r = Ok b -> rm w workDir = None ->
  Forall (fun p => under workDir p = false) (disk_after d (all_events r))
  /\ (forall p, In p d -> under workDir p = false ->
      In p (disk_after d (all_events r)))
  /\ In (downloaded_file sourceKey) (disk_after d (all_events r)).
Proof.
  cbv zeta. intros Hmk Hret Hrm.
  destruct (successful_run_parts sourceKey Hmk Hret)
    as (path & Hstart & _ & _ & Hb & Hf & Ha).
  unfold all_events. rewrite Hb, Hf, Ha. unfold cleanup. rewrite Hrm.
  cbn [succeeded].
  set (workDir := CONFIG_TEMP_DIR_PREFIX +++ suffix) in *.
  set (start := fst (processVideo_start w env sourceKey workDir)).
  set (fan := concat _). set (fin := fst (processVideo_finish _ _ _ _)).
  assert (Hk : Forall keeps_files ((Mkdtemp workDir :: start) ++ fan ++ fin)).
  { apply Forall_app. split; [constructor; [exact I|]|apply Forall_app; split].
    - eapply Forall_impl; [apply start_event_keeps|].
      apply processVideo_start_events.
    - apply Forall_concat. rewrite map_map. apply Forall_map, Forall_forall.
      intros res _. eapply Forall_impl; [apply variant_event_keeps|].
      apply processVariant_events.
    - eapply Forall_impl; [apply finish_event_keeps|].
      apply processVideo_finish_events. }
  assert (E : (Mkdtemp workDir :: start) ++ fan ++ fin ++ [Rm workDir true]
              = ((Mkdtemp workDir :: start) ++ fan ++ fin)
                  ++ [Rm workDir true]).
  { now rewrite <- !app_assoc. }
  rewrite E, disk_after_app. cbn [disk_after fold_left disk_step].
  split; [|split].
  - apply Forall_forall. intros p Hp. apply filter_In in Hp as [_ Hp].
    now apply negb_true_iff in Hp.
  - intros p Hp Hu. apply filter_In. split; [|now rewrite Hu].
    now apply disk_after_keeps.
  - apply filter_In. split; [|reflexivity].
    apply disk_after_creates; [exact Hk|].
    apply in_or_app. left. right. unfold start, processVideo_start.
    apply bind_ok_inv in Hstart as (path' & Hdl & _).
    match goal with
    | |- In _ (fst (bind ?m ?f)) => rewrite (bind_of_ok m f Hdl)
    end.
    cbn [fst]. apply in_or_app. left.
    now apply downloadFromS3_ok with (path := path').
Qed.
End DiskFacts.

(** A first run over an empty disk: only the downloaded source is left. *)
Lemma successful_run_disk_witness :
  let r := Transcoder.processVideo Spec.fresh_world Spec.sample_env
             Spec.sample_key in
  Transcoder.returned r = Js.Ok true
  /\ Forall (fun p => Transcoder.under "hls-a1B2c3" p = false)
            (Transcoder.disk_after [] (Transcoder.all_events r))
  /\ In "original-v.mp4"%string
        (Transcoder.disk_after [] (Transcoder.all_events r)).
Proof.
  cbv zeta.
  assert (Hret : Transcoder.returned
                   (Transcoder.processVideo Spec.fresh_world Spec.sample_env
                      Spec.sample_key) = Js.Ok true)
    by (vm_compute; reflexivity).
  destruct (@successful_run_disk Spec.fresh_world Spec.sample_env
              Spec.sample_key "a1B2c3" true [] eq_refl Hret eq_refl)
    as (Hnone & _ & Hfile).
  split; [exact Hret|]. split; [exact Hnone | exact Hfile].
Defined.

(** ** The join: the master playlist waits for every variant *)

Section JoinFacts.
Import Js Transcoder Spec.
Variables (w : World) (env : Env).

Lemma promise_all_throw {A} (rs : list (result A)) e :
  In (Throw e) rs -> exists e', promise_all rs = Throw e'.
Proof.
  induction rs as [|[a|e0] rs IH]; cbn; [intros [] | |eauto].
  intros [H|H]; [discriminate|]. destruct (IH H) as [e' ->]. eauto.
Qed.

Lemma promise_all_ok {A} (rs : list (result A)) l :
  promise_all rs = Ok l -> forall r, In r rs -> exists a, r = Ok a.
Proof.
  revert l. induction rs as [|[a|e0] rs IH]; cbn; intros l H r Hin;
    [destruct Hin | |discriminate].
  destruct (promise_all rs) as [l'|e'] eqn:E; [|discriminate].
  destruct Hin as [<-|Hin]; [eauto|]. exact (IH l' eq_refl r Hin).
Qed.

Lemma append_cancel (a b c : string) : a +++ b = a +++ c -> b = c.
Proof.
  induction a as [|x a IH]; cbn; [auto|]. intros [= H]. auto.
Qed.

Lemma master_not_variant_key p res key :
  In res remainingResolutions -> variant_file_key p res key ->
  key <> getMasterPlaylistKey p.
Proof.
  unfold variant_file_key, getMasterPlaylistKey, getHLSBasePath.
  intros Hres (file & ->). rewrite !append_assoc. intros H.
  do 3 apply append_cancel in H.
  destruct Hres as [<-|[<-|[<-|[]]]]; discriminate H.
Qed.

(** The trace and result of the probe, by what S3 answers. *)
Lemma checkFileExists_cases bucket key :
  checkFileExists w bucket key
  = ([S3HeadObject bucket key],
     match head w bucket key with
     | None => Ok true
     | Some (Exn n m) =>
         if String.eqb n "NotFound" then Ok false else Throw (Exn n m)
     | Some ExnUndefined =>
         Throw (TypeError "Cannot read properties of undefined")
     end).
Proof.
  unfold checkFileExists, try_catch, bind, call, ret, throw.
  destruct (head w bucket key) as [[n m|]|]; cbn; [|reflexivity..].
  destruct (String.eqb n "NotFound"); reflexivity.
Qed.

Lemma try_catch_rethrow {A} (m : M event A) :
  try_catch m (fun error => throw error) = m.
Proof.
  destruct m as [tr [a|e]]; cbn; [reflexivity|]. now rewrite app_nil_r.
Qed.

(** A promise of the fan-out that rejects makes the run fail, and the
    cleanup is all that follows the join. *)
Lemma variant_failure_fails_run sourceKey suffix path res e :
  let r := processVideo w env sourceKey in
  let p := generateS3Paths sourceKey in
  let workDir := CONFIG_TEMP_DIR_PREFIX +++ suffix in
  mkdtemp w = Ok suffix ->
  snd (processVideo_start w env sourceKey workDir) = Ok path ->
  In res remainingResolutions ->
  snd (processVariant w env p path workDir res) = Throw e ->
  (exists e', returned r = Throw e') /\ after r = cleanup w workDir.
Proof.
  cbv zeta. intros Hmk Hstart Hres Hthrow. unfold processVideo. rewrite Hmk.
  destruct (processVideo_start w env sourceKey _) as [tr [path'|e0]];
    cbn [snd] in Hstart; [|discriminate]. injection Hstart as ->.
  destruct (@promise_all_throw unit
              (map snd (map (processVariant w env (generateS3Paths sourceKey)
                               path (CONFIG_TEMP_DIR_PREFIX +++ suffix))
                            remainingResolutions)) e) as [e' ->].
  { rewrite <- Hthrow. apply in_map. apply in_map. exact Hres. }
  cbn [returned after]. eauto.
Qed.

(** X7.  The master playlist is put only after the join: no call of the
    sequential part or of the fan-out puts it.  When some call of the run
    puts it, every promise of the fan-out has resolved and the playlist
    file has been written.  When a promise of the fan-out rejects, the run
    fails, the cleanup is all that follows the join, and no call of the
    run puts the master playlist. *)
Theorem master_playlist_gated (sourceKey : string) :
  let r := processVideo w env sourceKey in
  let p := generateS3Paths sourceKey in
  Forall (fun ev => ~ puts_master p ev) (before r ++ concat (fanout r))
  /\ ((exists ev, In ev (all_events r) /\ puts_master p ev) ->
      exists suffix path,
        let workDir := CONFIG_TEMP_DIR_PREFIX +++ suffix in
        mkdtemp w = Ok suffix
        /\ snd (processVideo_start w env sourceKey workDir) = Ok path
        /\ (forall res, In res remainingResolutions ->
            snd (processVariant w env p path workDir res) = Ok tt)
        /\ writeFile w (workDir +++ "/master.m3u8") = None)
  /\ (forall suffix path res e,
      let workDir := CONFIG_TEMP_DIR_PREFIX +++ suffix in
      mkdtemp w = Ok suffix ->
      snd (processVideo_start w env sourceKey workDir) = Ok path ->
      In res remainingResolutions ->
      snd (processVariant w env p path workDir res) = Throw e ->
      (exists e', returned r = Throw e')
      /\ after r = cleanup w workDir
      /\ Forall (fun ev => ~ puts_master p ev) (all_events r)).
Proof.
  cbv zeta.
  assert (Hpre : Forall (fun ev => ~ puts_master (generateS3Paths sourceKey) ev)
                   (before (processVideo w env sourceKey)
                    ++ concat (fanout (processVideo w env sourceKey)))).
  { destruct (run_phases w env sourceKey) as (Hb & Hf & _).
    apply Forall_app. split.
    - eapply Forall_impl; [|exact Hb]. intros ev [_ Hup] Hput.
      exact (Hup _ Hput).
    - eapply Forall_impl; [|exact Hf]. intros ev [_ Hup] Hput.
      destruct (Hup _ Hput) as (res & Hres & Hkey).
      exact (master_not_variant_key Hres Hkey eq_refl). }
  split; [exact Hpre|]. split.
  - intros (ev & Hin & Hput). unfold all_events in Hin.
    rewrite app_assoc in Hin. apply in_app_or in Hin as [Hin|Hin].
    { rewrite Forall_forall in Hpre. now elim (Hpre ev Hin). }
    revert Hin. unfold processVideo.
    destruct (mkdtemp w) as [suffix|e0]; cbn [after]; [|intros []].
    destruct (processVideo_start w env sourceKey _) as [tr [path|e0]] eqn:Es;
      cbn [after].
    2:{ intros [<-|[]]. discriminate Hput. }
    destruct (promise_all _) as [l|e0] eqn:Hall; cbn [after].
    2:{ intros [<-|[]]. discriminate Hput. }
    destruct (processVideo_finish w env _ _) as [tr' r'] eqn:Ef.
    cbn [after]. intros Hin. exists suffix, path. rewrite Es.
    split; [reflexivity|]. split; [reflexivity|]. split.
    + intros res Hres.
      destruct (promise_all_ok _ Hall
                  (snd (processVariant w env (generateS3Paths sourceKey) path
                          (CONFIG_TEMP_DIR_PREFIX +++ suffix) res)))
        as [[] Hok]; [|exact Hok].
      apply in_map. apply in_map. exact Hres.
    + apply in_app_or in Hin as [Hin|[<-|[]]]; [|discriminate Hput].
      revert Ef Hin. unfold processVideo_finish, fs_call, call.
      destruct (writeFile w _) as [e0|]; [|reflexivity].
      cbn. intros [= <- _] [<-|[]]. discriminate Hput.
  - intros suffix path res e Hmk Hstart Hres Hthrow.
    destruct (variant_failure_fails_run sourceKey Hmk Hstart Hres Hthrow)
      as [Hret Hafter].
    split; [exact Hret|]. split; [exact Hafter|].
    unfold all_events. rewrite app_assoc. apply Forall_app.
    split; [exact Hpre|]. rewrite Hafter. constructor; [|constructor].
    discriminate.
Qed.

(** X8.  What a promise of the fan-out does, by the answer to the probe.
    It resolves exactly when the variant playlist is found, or S3 answers
    [NotFound] and the encoding and the upload of the variant both end
    well.  Found: the probe is its only call.  Any error other than
    [NotFound]: the probe is its only call as well, the promise rejects
    with that very error, nothing is encoded, and the run that launched it
    fails. *)
Theorem processVariant_outcome (sourceKey input workDir : string)
    (res : Resolution) :
  let p := generateS3Paths sourceKey in
  let bucket := AWS_S3_PROD_BUCKET env in
  let key := getVariantPlaylistKey p (name res) in
  let m := processVariant w env p input workDir res in
  (snd m = Ok tt <->
   head w bucket key = None
   \/ (exists msg, head w bucket key = Some (Exn "NotFound" msg))
      /\ snd (transcodeToHLS w input workDir res) = Ok tt
      /\ snd (uploadHLSFiles w workDir res bucket (getHLSBasePath p)) = Ok tt)
  /\ (head w bucket key = None -> fst m = [S3HeadObject bucket key])
  /\ (forall n msg,
      head w bucket key = Some (Exn n msg) -> n <> "NotFound"%string ->
      m = ([S3HeadObject bucket key], Throw (Exn n msg))
      /\ (forall suffix,
          mkdtemp w = Ok suffix ->
          workDir = CONFIG_TEMP_DIR_PREFIX +++ suffix ->
          snd (processVideo_start w env sourceKey workDir) = Ok input ->
          In res remainingResolutions ->
          exists e, returned (processVideo w env sourceKey) = Throw e)).
Proof.
  cbv zeta. unfold processVariant. rewrite try_catch_rethrow.
  rewrite checkFileExists_cases.
  destruct (head w (AWS_S3_PROD_BUCKET env) _) as [[n msg|]|] eqn:Hhead.
  - destruct (String.eqb n "NotFound") eqn:En.
    + apply String.eqb_eq in En. subst n. split; [|split].
      * split.
        -- intros H. right. split; [eauto|].
           apply bind_ok_inv in H as (a & Ha & H). cbn [snd] in Ha.
           injection Ha as <-.
           apply bind_ok_inv in H as ([] & H1 & H2). auto.
        -- intros [H|(_ & H1 & H2)]; [discriminate|].
           match goal with
           | |- snd (bind ?m ?f) = _ => rewrite (bind_of_ok m f (a := false))
           end; [|reflexivity].
           cbn [snd].
           match goal with
           | |- snd (bind ?m ?f) = _ => rewrite (bind_of_ok m f H1)
           end.
           exact H2.
      * discriminate.
      * intros n msg' [= <- <-] Hn. now elim Hn.
    + split; [|split].
      * cbn. split; [discriminate|].
        intros [H|((msg' & H) & _)]; [discriminate|].
        injection H as -> _. discriminate En.
      * discriminate.
      * intros n' msg' [= <- <-] Hn. split; [reflexivity|].
        intros suffix Hmk -> Hstart Hres.
        destruct (@variant_failure_fails_run sourceKey suffix input res
                    (Exn n msg) Hmk Hstart Hres) as [Hret _]; [|exact Hret].
        unfold processVariant. rewrite try_catch_rethrow.
        rewrite checkFileExists_cases, Hhead, En. reflexivity.
  - split; [|split].
    + cbn. split; [discriminate|].
      intros [H|((msg' & H) & _)]; discriminate.
    + discriminate.
    + discriminate.
  - split; [|split].
    + cbn. split; [auto | reflexivity].
    + reflexivity.
    + discriminate.
Qed.
End JoinFacts.

(** Access to the destination is denied: the first promise of the fan-out
    rejects, the run fails, and the master playlist is not put. *)
Lemma master_playlist_gated_witness :
  let r := Transcoder.processVideo Spec.denied_world Spec.sample_env
             Spec.sample_key in
  let p := Transcoder.generateS3Paths Spec.sample_key in
  (exists e, Transcoder.returned r = Js.Throw e)
  /\ Transcoder.after r = [Transcoder.Rm "hls-a1B2c3" true]
  /\ Forall (fun ev => ~ Spec.puts_master p ev) (Transcoder.all_events r).
Proof.
  cbv zeta.
  destruct (master_playlist_gated Spec.denied_world Spec.sample_env
              Spec.sample_key) as (_ & _ & H).
  apply (H "a1B2c3"%string "/app/original-v.mp4"%string Transcoder.res_1080p
           (Js.Exn "Forbidden" "Access Denied"));
    [reflexivity | reflexivity | now left | reflexivity].
Defined.

(** The same world, seen from one promise: it only probes and rejects
    with the error of the probe. *)
Lemma processVariant_outcome_witness :
  Transcoder.processVariant Spec.denied_world Spec.sample_env
    (Transcoder.generateS3Paths Spec.sample_key) "/app/original-v.mp4"
    "hls-a1B2c3" Transcoder.res_720p
  = ([Transcoder.S3HeadObject "streams" "c1/hls/v/720p/playlist.m3u8"],
     Js.Throw (Js.Exn "Forbidden" "Access Denied"))
  /\ exists e,
       Transcoder.returned
         (Transcoder.processVideo Spec.denied_world Spec.sample_env
            Spec.sample_key) = Js.Throw e.
Proof.
  destruct (processVariant_outcome Spec.denied_world Spec.sample_env
              Spec.sample_key "/app/original-v.mp4" "hls-a1B2c3"
              Transcoder.res_720p) as (_ & _ & H).
  destruct (H "Forbidden"%string "Access Denied"%string eq_refl)
    as [Hm Hrun]; [discriminate|].
  split; [exact Hm|].
  apply (Hrun "a1B2c3"%string); [reflexivity | reflexivity | reflexivity|].
  right. now left.
Defined.

(** ** The environment checks at start-up *)

Section EnvironmentFacts.
Import Js Spec.

Lemma missing_of_nil required penv :
  missing_of required penv = [] <-> all_set required penv.
Proof.
  unfold missing_of, all_set. induction required as [|v required IH]; cbn.
  - split; [intros _ name [] | reflexivity].
  - destruct (penv v) as [[|c s]|] eqn:E; cbn.
    + split; [discriminate|]. intros H.
      destruct (H v (or_introl eq_refl)) as (c & s & Hs). congruence.
    + rewrite IH. split.
      * intros H name [<-|Hin]; [eauto | auto].
      * intros H name Hin. apply H. now right.
    + split; [discriminate|]. intros H.
      destruct (H v (or_introl eq_refl)) as (c & s & Hs). congruence.
Qed.

Lemma length_pos_false {A} (l : list A) :
  (0 <? length l)%nat = false <-> l = [].
Proof. destruct l; cbn; split; congruence. Qed.

(** X9.  Both start-up checks pass exactly when every variable of their
    list is set to a non-empty string; otherwise the message names the
    missing variables, in the order of the list and separated by a comma
    and a space.  The transcoder's check throws; the dispatcher's logs the
    message and exits with code 1. *)
Theorem validateEnvironment_outcome (penv : environment) :
  (Transcoder.validateEnvironment penv = Ok tt
   <-> all_set Transcoder.requiredEnvVars penv)
  /\ (Consumer.validateEnvironment penv = None
      <-> all_set Consumer.requiredEnvVars penv)
  /\ (forall e, Transcoder.validateEnvironment penv = Throw e ->
      missing_of Transcoder.requiredEnvVars penv <> []
      /\ e = Error ("Missing required environment variables: "
                    +++ String.concat ", "
                          (missing_of Transcoder.requiredEnvVars penv)))
  /\ (forall message, Consumer.validateEnvironment penv = Some message ->
      missing_of Consumer.requiredEnvVars penv <> []
      /\ message = "Missing required environment variables: "
                   +++ String.concat ", "
                         (missing_of Consumer.requiredEnvVars penv)).
Proof.
  unfold Transcoder.validateEnvironment, Consumer.validateEnvironment.
  cbv zeta.
  fold (missing_of Transcoder.requiredEnvVars penv).
  fold (missing_of Consumer.requiredEnvVars penv).
  rewrite <- !missing_of_nil.
  destruct (missing_of Transcoder.requiredEnvVars penv) as [|v1 l1];
    destruct (missing_of Consumer.requiredEnvVars penv) as [|v2 l2];
    cbn [length Nat.ltb Nat.leb];
    repeat split; intros; congruence.
Qed.

End EnvironmentFacts.

(** A task given only the dispatcher's three overrides does not start:
    the region is missing.  A dispatcher without any variable names all
    nine. *)
Lemma validateEnvironment_outcome_witness :
  Transcoder.validateEnvironment
    (Spec.override_env "uploads" "streams" Spec.sample_key)
  = Js.Throw (Js.Error "Missing required environment variables: AWS_REGION")
  /\ Transcoder.validateEnvironment Spec.task_env = Js.Ok tt
  /\ Consumer.validateEnvironment (fun _ => None)
     = Some ("Missing required environment variables: "
             +++ "AWS_ACCESS_KEY_ID, AWS_SECRET_ACCESS_KEY, AWS_SQS_URL, "
             +++ "AWS_ECS_TASK_DEFINITION, AWS_ECS_CLUSTER, AWS_ECS_SUBNETS, "
             +++ "AWS_ECS_SECURITY_GROUP, AWS_ECS_CONTAINER_NAME, "
             +++ "AWS_S3_PROD_BUCKET").
Proof.
  assert (E : Transcoder.validateEnvironment
                (Spec.override_env "uploads" "streams" Spec.sample_key)
              = Js.Throw (Js.Error
                  "Missing required environment variables: AWS_REGION")).
  { destruct (validateEnvironment_outcome
                (Spec.override_env "uploads" "streams" Spec.sample_key))
      as (_ & _ & H & _).
    destruct (Transcoder.validateEnvironment _) as [[]|e] eqn:Ev;
      [discriminate Ev|].
    destruct (H e eq_refl) as [_ ->]. reflexivity. }
  split; [exact E|]. split.
  - apply (validateEnvironment_outcome Spec.task_env).
    intros name Hin. cbn in Hin.
    destruct Hin as [<-|[<-|[<-|[<-|[]]]]]; cbn;
      unfold Spec.sample_key; eauto.
  - reflexivity.
Defined.


(** ** The dispatcher: what is launched, and what a failure leaves *)

Section LaunchFacts.
Import Js Regex Consumer Spec.
Variable JSON_parse : string -> result json.

Lemma launch_retry_events w index bucketName objectKey :
  let tr := fst (retryWithBackoff (launchEcsTask w index bucketName objectKey)) in
  (forall ev, In ev tr ->
     ev = RunTask bucketName objectKey \/ ev = Sleep 1000 \/ ev = Sleep 2000)
  /\ (length (filter is_launch tr) <= MAX_RETRIES)%nat.
Proof.
  unfold retryWithBackoff, Retry.retryWithBackoff, launchEcsTask, call,
    MAX_RETRIES.
  cbn [Retry.retryWithBackoff_loop Nat.add].
  destruct (runTask w index 1); [|cbn; split; [intuition|lia]].
  destruct (runTask w index 2); [|cbn; split; [intuition|lia]].
  destruct (runTask w index 3); cbn; (split; [intuition|lia]).
Qed.

Lemma processRecord_launches w index record :
  let tr := fst (processRecord w index record) in
  (forall bucketName objectKey, In (RunTask bucketName objectKey) tr ->
     destructure record = Ok (bucketName, objectKey)
     /\ validateS3Key (ToString objectKey) = true)
  /\ (length (filter is_launch tr) <= MAX_RETRIES)%nat.
Proof.
  unfold processRecord, bind, lift.
  destruct (destructure record) as [[b k]|e]; [|cbn; split; [intros ? ? []|lia]].
  destruct (validateS3Key (ToString k)) eqn:Hv; cbn [negb];
    [|cbn; split; [intros ? ? []|lia]].
  destruct (launch_retry_events w index b k) as [Hev Hlen].
  destruct (retryWithBackoff _) as [tr r]. cbn [fst app] in *.
  split; [|exact Hlen].
  intros b' k' Hin. destruct (Hev _ Hin) as [E|[E|E]]; [|discriminate..].
  injection E as <- <-. auto.
Qed.

Lemma processRecords_launches w records : forall index,
  let tr := fst (processRecords w index records) in
  (forall bucketName objectKey, In (RunTask bucketName objectKey) tr ->
     exists j record,
       nth_error records j = Some record
       /\ destructure record = Ok (bucketName, objectKey)
       /\ validateS3Key (ToString objectKey) = true)
  /\ (length (filter is_launch tr) <= MAX_RETRIES * length records)%nat.
Proof.
  induction records as [|record records IH]; intros index; cbv zeta.
  - cbn. split; [intros ? ? []|lia].
  - cbn [processRecords]. unfold bind.
    destruct (processRecord_launches w index record) as [Hr Hlen].
    destruct (processRecord w index record) as [tr [[]|e]]; cbn [fst] in *.
    + destruct (IH (S index)) as [Hrs Hlens].
      destruct (processRecords w (S index) records) as [tr' r'].
      cbn [fst] in *. split.
      * intros b k Hin. apply in_app_or in Hin as [Hin|Hin].
        -- exists 0%nat, record. split; [reflexivity|]. now apply Hr.
        -- destruct (Hrs b k Hin) as (j & rec & Hj & H).
           exists (S j), rec. auto.
      * rewrite filter_app, length_app. cbn [length]. lia.
    + split.
      * intros b k Hin. exists 0%nat, record. split; [reflexivity|].
        now apply Hr.
      * cbn [length]. lia.
Qed.

Lemma processRecords_stops w rs1 record rs2 e : forall index,
  snd (processRecords w index rs1) = Ok tt ->
  snd (processRecord w (index + length rs1) record) = Throw e ->
  processRecords w index (rs1 ++ record :: rs2)
  = (fst (processRecords w index rs1)
     ++ fst (processRecord w (index + length rs1) record), Throw e).
Proof.
  induction rs1 as [|r1 rs1 IH]; intros index; cbn [app length processRecords].
  - rewrite Nat.add_0_r. intros _ He. unfold bind.
    destruct (processRecord w index record) as [tr r]. cbn in He |- *.
    now subst r.
  - destruct (processRecord w index r1) as [tr [[]|e1]]; unfold bind;
      cbn [snd fst]; [|discriminate].
    intros Hrs He.
    replace (index + S (length rs1))%nat with (S index + length rs1)%nat in *
      by lia.
    assert (Hrs' : snd (processRecords w (S index) rs1) = Ok tt).
    { destruct (processRecords w (S index) rs1) as [tr1 r1']. exact Hrs. }
    rewrite (IH (S index) Hrs' He).
    destruct (processRecords w (S index) rs1) as [tr1 r1']. cbn [fst].
    now rewrite app_assoc.
Qed.

Lemma processRecords_split w records : forall index,
  exists n,
    (n <= length records)%nat
    /\ fst (processRecords w index records)
       = concat (map_indexed (fun j record => fst (processRecord w j record))
                   index (firstn n records)).
Proof.
  induction records as [|record records IH]; intros index.
  - exists 0%nat. split; [apply Nat.le_refl | reflexivity].
  - cbn [processRecords]. unfold bind.
    destruct (processRecord w index record) as [tr [[]|e]] eqn:E.
    + destruct (IH (S index)) as (n & Hn & Htr).
      destruct (processRecords w (S index) records) as [tr' r'].
      cbn [fst] in *. exists (S n). split; [cbn [length]; lia|].
      cbn [firstn map_indexed concat]. now rewrite E, Htr.
    + exists 1%nat. split; [cbn [length]; lia|].
      cbn [firstn map_indexed concat fst]. now rewrite E, app_nil_r.
Qed.

(** X11.  Every ECS task launched for a message is launched with the
    bucket name and object key of one of the message's records, and the
    key, coerced to a string, has passed [validateS3Key].  The calls made
    for a message are those of [processRecord] on its records, in order,
    up to the record the loop stops at, followed by queue calls that
    launch nothing; the calls made for one record contain at most three
    [RunTask] calls, each with that record's bucket name and key.  So a
    message launches at most three tasks per record, and none when its
    records cannot be read. *)
Theorem launches_are_validated (w : World) (message : Message) :
  let tr := fst (processMessage JSON_parse w message) in
  (forall bucketName objectKey, In (RunTask bucketName objectKey) tr ->
     exists records j record,
       snd (readRecords JSON_parse message) = Ok records
       /\ nth_error records j = Some record
       /\ destructure record = Ok (bucketName, objectKey)
       /\ validateS3Key (ToString objectKey) = true)
  /\ (forall records, snd (readRecords JSON_parse message) = Ok records ->
      (length (filter is_launch tr) <= MAX_RETRIES * length records)%nat)
  /\ (forall e, snd (readRecords JSON_parse message) = Throw e ->
      filter is_launch tr = [])
  /\ (forall records, snd (readRecords JSON_parse message) = Ok records ->
      exists n tail,
        (n <= length records)%nat
        /\ tr = concat (map_indexed
                          (fun j record => fst (processRecord w j record))
                          0 (firstn n records)) ++ tail
        /\ filter is_launch tail = []
        /\ forall j record, nth_error records j = Some record ->
             (length (filter is_launch (fst (processRecord w j record)))
              <= MAX_RETRIES)%nat
             /\ forall bucketName objectKey,
                  In (RunTask bucketName objectKey)
                     (fst (processRecord w j record)) ->
                  destructure record = Ok (bucketName, objectKey)
                  /\ validateS3Key (ToString objectKey) = true).
Proof.
  cbv zeta. rewrite processMessage_cases.
  destruct (snd (readRecords JSON_parse message)) as [records|e0].
  - destruct (processRecords_launches w records 0) as [Hin Hlen].
    destruct (processRecords_split w records 0) as (n & Hn & Hsplit).
    assert (Hcut : forall tail,
              filter is_launch tail = [] ->
              (forall b k, In (RunTask b k)
                             (fst (processRecords w 0 records) ++ tail) ->
                           In (RunTask b k) (fst (processRecords w 0 records)))
              /\ (length (filter is_launch
                            (fst (processRecords w 0 records) ++ tail))
                  <= MAX_RETRIES * length records)%nat).
    { intros tail Htail. split.
      - intros b k H. apply in_app_or in H as [H|H]; [exact H|].
        assert (Hf : In (RunTask b k) (filter is_launch tail))
          by (apply filter_In; auto).
        rewrite Htail in Hf. destruct Hf.
      - rewrite filter_app, Htail, app_nil_r. exact Hlen. }
    assert (Hper : forall j record, nth_error records j = Some record ->
              (length (filter is_launch (fst (processRecord w j record)))
               <= MAX_RETRIES)%nat
              /\ forall bucketName objectKey,
                   In (RunTask bucketName objectKey)
                      (fst (processRecord w j record)) ->
                   destructure record = Ok (bucketName, objectKey)
                   /\ validateS3Key (ToString objectKey) = true).
    { intros j record _.
      destruct (processRecord_launches w j record) as [H1 H2]. auto. }
    destruct (processRecords w 0 records) as [tr [[]|e]]; cbn [fst] in *;
      [destruct (deleteMessage w)|];
      cbn [fst];
      (split; [|split; [|split; [discriminate|]]]);
      try (intros b k H; apply Hcut in H; [|reflexivity];
           destruct (Hin b k H) as (j & rec & H'); exists records, j, rec;
           tauto);
      try (intros records' [= <-]; now apply Hcut);
      intros records' [= <-]; exists n; eexists;
      (split; [exact Hn|]); rewrite <- Hsplit;
      (split; [reflexivity|]); (split; [reflexivity | exact Hper]).
  - cbn [fst]. split; [|split; [|split]].
    + intros b k [H|[]]. discriminate H.
    + discriminate.
    + reflexivity.
    + discriminate.
Qed.

(** X12.  The loop over the records stops at the first record that
    fails: whatever follows it in the notification is not looked at.  The
    tasks launched for the records before it stay launched, the message is
    not deleted, and the error is the one of the failing record. *)
Theorem first_failure_stops_dispatch (w : World) (message : Message)
    (rs1 rs2 : list json) (record : json) (e : exn) :
  snd (readRecords JSON_parse message) = Ok (rs1 ++ record :: rs2) ->
  snd (processRecords w 0 rs1) = Ok tt ->
  snd (processRecord w (length rs1) record) = Throw e ->
  processMessage JSON_parse w message
  = (fst (processRecords w 0 rs1)
     ++ fst (processRecord w (length rs1) record)
     ++ [extension w message],
     Throw e)
  /\ existsb is_delete (fst (processMessage JSON_parse w message)) = false.
Proof.
  intros Hread Hrs He.
  assert (E : processMessage JSON_parse w message
              = (fst (processRecords w 0 rs1)
                 ++ fst (processRecord w (length rs1) record)
                 ++ [extension w message], Throw e)).
  { rewrite processMessage_cases, Hread.
    rewrite (@processRecords_stops w rs1 record rs2 e 0 Hrs He).
    now rewrite <- app_assoc. }
  split; [exact E|]. rewrite E. cbn [fst].
  rewrite !existsb_app.
  destruct (processRecords_settled w rs1 0) as [_ H1].
  destruct (processRecord_settled w (length rs1) record) as [_ H2].
  cbv zeta in H1, H2.
  apply dispatch_no_delete in H1 as (-> & _).
  apply dispatch_no_delete in H2 as (-> & _). reflexivity.
Qed.

(** X13.  The error [processMessage] ends in is the one of its [try]
    block; a failure of the visibility extension is swallowed.  A message
    without body, or with an empty one, ends in [Empty message body]; a
    body that [JSON.parse] rejects ends in the parser's error; in both
    cases the extension is the only call.  And when every record has been
    dispatched but the delete command fails, the message ends in the
    error of the delete command after the launches, with its visibility
    extended instead. *)
Theorem processMessage_errors (w : World) (message : Message) :
  (Body message = None \/ Body message = Some ""%string ->
   processMessage JSON_parse w message
   = ([extension w message], Throw (Error "Empty message body")))
  /\ (forall body e,
      Body message = Some body -> body <> ""%string ->
      JSON_parse body = Throw e ->
      processMessage JSON_parse w message = ([extension w message], Throw e))
  /\ (forall records e,
      snd (readRecords JSON_parse message) = Ok records ->
      snd (processRecords w 0 records) = Ok tt ->
      deleteMessage w = Some e ->
      processMessage JSON_parse w message
      = (fst (processRecords w 0 records)
         ++ [DeleteMessage (ReceiptHandle message) false;
             extension w message],
         Throw e))
  /\ (forall e, snd (processMessage JSON_parse w message) = Throw e ->
      snd (readRecords JSON_parse message) = Throw e
      \/ exists records,
           snd (readRecords JSON_parse message) = Ok records
           /\ (snd (processRecords w 0 records) = Throw e
               \/ deleteMessage w = Some e)).
Proof.
  split; [|split; [|split]].
  - intros Hb. rewrite processMessage_cases. unfold readRecords.
    destruct Hb as [-> | ->]; reflexivity.
  - intros body e Hb Hne Hp. rewrite processMessage_cases.
    unfold readRecords. rewrite Hb.
    destruct body as [|c body]; [now elim Hne|]. cbv beta iota.
    assert (Hret : forall (A B : Type) (a : A) (f : A -> M event B),
              bind (ret a) f = f a).
    { intros A B a f. cbn. now destruct (f a). }
    rewrite Hret. unfold validateAndParseEvent, lift. rewrite Hp.
    reflexivity.
  - intros records e Hread Hrs Hdel. rewrite processMessage_cases, Hread.
    destruct (processRecords w 0 records) as [tr r]. cbn [fst snd] in *.
    subst r. rewrite Hdel. reflexivity.
  - intros e. rewrite processMessage_cases.
    destruct (snd (readRecords JSON_parse message)) as [records|e0];
      [|cbn; intros [= <-]; now left].
    destruct (processRecords w 0 records) as [tr [[]|e1]] eqn:E.
    + destruct (deleteMessage w) as [e2|]; cbn; [|discriminate].
      intros [= <-]. right. exists records.
      split; [reflexivity | right; reflexivity].
    + cbn. intros [= <-]. right. exists records. rewrite E.
      split; [reflexivity | left; reflexivity].
Qed.
End LaunchFacts.

(** Three uploads in one notification, the second of which cannot be
    launched: the first task is launched, the second tried three times,
    the third never, and the message stays in the queue. *)
Lemma first_failure_stops_dispatch_witness :
  let message := Spec.message_of "m7" Spec.three_uploads in
  Consumer.processMessage (Spec.table_parse [Spec.three_uploads])
    Spec.second_record_world message
  = ([Consumer.RunTask (Some (Consumer.JStr "uploads"))
        (Some (Consumer.JStr "courses/c1/videos/a.mp4"));
      Consumer.RunTask (Some (Consumer.JStr "uploads"))
        (Some (Consumer.JStr "courses/c1/videos/b.mov"));
      Consumer.Sleep 1000;
      Consumer.RunTask (Some (Consumer.JStr "uploads"))
        (Some (Consumer.JStr "courses/c1/videos/b.mov"));
      Consumer.Sleep 2000;
      Consumer.RunTask (Some (Consumer.JStr "uploads"))
        (Some (Consumer.JStr "courses/c1/videos/b.mov"));
      Consumer.ChangeMessageVisibility "rh-m7" 900 false],
     Js.Throw (Js.Exn "ThrottlingException" "Rate exceeded")).
Proof.
  cbv zeta.
  destruct (@first_failure_stops_dispatch
              (Spec.table_parse [Spec.three_uploads])
              Spec.second_record_world
              (Spec.message_of "m7" Spec.three_uploads)
              [Spec.s3_record "uploads" "courses/c1/videos/a.mp4"]
              [Spec.s3_record "uploads" "courses/c1/videos/c.avi"]
              (Spec.s3_record "uploads" "courses/c1/videos/b.mov")
              (Js.Exn "ThrottlingException" "Rate exceeded"))
    as [E _]; [vm_compute; reflexivity..|].
  rewrite E. vm_compute. reflexivity.
Defined.

(** In the same run every launch is for a record of the message. *)
Lemma launches_are_validated_witness :
  let message := Spec.message_of "m7" Spec.three_uploads in
  let tr := fst (Consumer.processMessage (Spec.table_parse [Spec.three_uploads])
                   Spec.second_record_world message) in
  (length (filter Spec.is_launch tr) <= 9)%nat
  /\ exists records j record,
       snd (Consumer.readRecords (Spec.table_parse [Spec.three_uploads])
              message) = Js.Ok records
       /\ nth_error records j = Some record
       /\ Consumer.destructure record
          = Js.Ok (Some (Consumer.JStr "uploads"),
                   Some (Consumer.JStr "courses/c1/videos/b.mov"))
       /\ Consumer.validateS3Key "courses/c1/videos/b.mov" = true.
Proof.
  cbv zeta.
  destruct (launches_are_validated (Spec.table_parse [Spec.three_uploads])
              Spec.second_record_world
              (Spec.message_of "m7" Spec.three_uploads)) as (Hin & Hlen & _).
  split.
  - apply (Hlen [Spec.s3_record "uploads" "courses/c1/videos/a.mp4";
                 Spec.s3_record "uploads" "courses/c1/videos/b.mov";
                 Spec.s3_record "uploads" "courses/c1/videos/c.avi"]).
    vm_compute. reflexivity.
  - apply (Hin (Some (Consumer.JStr "uploads"))
               (Some (Consumer.JStr "courses/c1/videos/b.mov"))).
    vm_compute. tauto.
Defined.

(** The delete command fails after three launches: the message comes
    back although every task runs. *)
Lemma processMessage_errors_witness :
  let message := Spec.message_of "m8" Spec.three_uploads in
  Consumer.processMessage (Spec.table_parse [Spec.three_uploads])
    Spec.delete_fails_world message
  = ([Consumer.RunTask (Some (Consumer.JStr "uploads"))
        (Some (Consumer.JStr "courses/c1/videos/a.mp4"));
      Consumer.RunTask (Some (Consumer.JStr "uploads"))
        (Some (Consumer.JStr "courses/c1/videos/b.mov"));
      Consumer.RunTask (Some (Consumer.JStr "uploads"))
        (Some (Consumer.JStr "courses/c1/videos/c.avi"));
      Consumer.DeleteMessage "rh-m8" false;
      Consumer.ChangeMessageVisibility "rh-m8" 900 true],
     Js.Throw (Js.Exn "RequestThrottled" "slow down"))
  /\ Consumer.processMessage (Spec.table_parse [Spec.three_uploads])
       Spec.calm_world
       {| Consumer.MessageId := "m9"; Consumer.Body := Some "{";
          Consumer.ReceiptHandle := "rh-m9" |}
     = ([Consumer.ChangeMessageVisibility "rh-m9" 900 true],
        Js.Throw (Js.Exn "SyntaxError" "Unexpected token")).
Proof.
  cbv zeta. split.
  - destruct (processMessage_errors (Spec.table_parse [Spec.three_uploads])
                Spec.delete_fails_world
                (Spec.message_of "m8" Spec.three_uploads)) as (_ & _ & H & _).
    rewrite (H [Spec.s3_record "uploads" "courses/c1/videos/a.mp4";
                Spec.s3_record "uploads" "courses/c1/videos/b.mov";
                Spec.s3_record "uploads" "courses/c1/videos/c.avi"]
               (Js.Exn "RequestThrottled" "slow down"));
      vm_compute; reflexivity.
  - destruct (processMessage_errors (Spec.table_parse [Spec.three_uploads])
                Spec.calm_world
                {| Consumer.MessageId := "m9"; Consumer.Body := Some "{";
                   Consumer.ReceiptHandle := "rh-m9" |}) as (_ & H & _).
    apply (H "{"%string); [reflexivity | discriminate | reflexivity].
Defined.

(** ** Streaming URLs *)

Section StreamFacts.
Import Js Regex VideoService Spec.
Local Open Scope Z_scope.
Variables (w wq : World).

Lemma includes_In l x : includes l x = true <-> In x l.
Proof.
  unfold includes. rewrite existsb_exists. split.
  - intros (y & Hy & E). apply String.eqb_eq in E. now subst.
  - intros H. exists x. split; [exact H | apply String.eqb_refl].
Qed.

(** What one call of [generateSignedUrl] with the default validity does:
    it ends well exactly when the signing goes through, and asks the
    signer at most once. *)
Lemma generateSignedUrl_cases (v : World) key :
  (forall url signed, signs v key url signed ->
     generateSignedUrl v key DEFAULT_EXPIRES_IN
     = ([GetSignedUrl url (default_deadline v)], Ok signed))
  /\ (forall signed,
      snd (generateSignedUrl v key DEFAULT_EXPIRES_IN) = Ok signed ->
      exists url, signs v key url signed)
  /\ (length (fst (generateSignedUrl v key DEFAULT_EXPIRES_IN)) <= 1)%nat.
Proof.
  unfold generateSignedUrl, signs, default_deadline, lift, bind, toISOString.
  split; [|split].
  - intros url signed (-> & Hle & Hs). apply Z.leb_le in Hle. rewrite Hle.
    cbn. rewrite Hs. reflexivity.
  - intros signed. destruct (resolveUrl v key) as [url|e]; [|discriminate].
    destruct (Z.abs _ <=? MAX_TIME) eqn:Hle; [|discriminate].
    cbn. intros Hs. exists url. apply Z.leb_le in Hle. auto.
  - destruct (resolveUrl v key) as [url|e]; [|cbn; lia].
    destruct (Z.abs _ <=? MAX_TIME); cbn; lia.
Qed.

(** The run of [generateStreamUrls] on valid identifiers, by what its
    calls meet. *)
Lemma generateStreamUrls_cases (params : StreamRequest) :
  isValidKey (courseId params) = true ->
  isValidKey (videoId params) = true ->
  generateStreamUrls w wq params
  = match generateSignedUrl w
            (stream_master_key (courseId params) (videoId params))
            DEFAULT_EXPIRES_IN with
    | (tr, Throw _) => (tr, Ok stream_failure)
    | (tr, Ok sm) =>
        if Z.abs (now w + 3600000) <=? MAX_TIME
        then
          match wanted_quality params with
          | None => (tr, Ok (stream_ok sm None None 3600 (now w + 3600000)))
          | Some q =>
              match generateSignedUrl wq
                      (stream_quality_key (courseId params) (videoId params) q)
                      DEFAULT_EXPIRES_IN with
              | (trq, Ok sq) =>
                  (tr ++ trq,
                   Ok (stream_ok sm (Some sq) (Some q) 3600
                         (now w + 3600000)))
              | (trq, Throw _) => (tr ++ trq, Ok stream_failure)
              end
          end
        else (tr, Ok stream_failure)
    end.
Proof.
  intros Hc Hv. unfold generateStreamUrls, wanted_quality.
  rewrite Hc, Hv. cbn [negb orb].
  change ((courseId params +++ "/hls/" +++ videoId params) +++ "/master.m3u8")
    with (stream_master_key (courseId params) (videoId params)).
  destruct (generateSignedUrl w _ DEFAULT_EXPIRES_IN) as [tr [sm|e]];
    [|cbn; now rewrite app_nil_r].
  unfold getExpiryDate, toISOString, lift.
  change (now w + DEFAULT_EXPIRES_IN * 1000) with (now w + 3600000).
  destruct (Z.abs (now w + 3600000) <=? MAX_TIME);
    [|cbn; now rewrite !app_nil_r].
  destruct (quality params) as [[|c q]|];
    [cbn; now rewrite !app_nil_r | | cbn; now rewrite !app_nil_r].
  destruct (includes SUPPORTED_QUALITIES (String c q));
    [|cbn; now rewrite !app_nil_r].
  change ((courseId params +++ "/hls/" +++ videoId params) +++ "/"
          +++ String c q +++ "/playlist.m3u8")
    with (stream_quality_key (courseId params) (videoId params) (String c q)).
  destruct (generateSignedUrl wq _ DEFAULT_EXPIRES_IN) as [trq [sq|e]];
    cbn; now rewrite ?app_nil_r.
Qed.

Lemma generateSignedUrl_refused (v : World) key :
  (forall url signed, ~ signs v key url signed) ->
  exists e, snd (generateSignedUrl v key DEFAULT_EXPIRES_IN) = Throw e.
Proof.
  intros Hno. destruct (generateSignedUrl_cases v key) as (_ & H & _).
  destruct (snd (generateSignedUrl v key DEFAULT_EXPIRES_IN)) as [signed|e];
    [|eauto].
  destruct (H signed eq_refl) as [url Hs]. now elim (Hno url signed).
Qed.

Lemma wanted_quality_spec params q :
  wanted_quality params = Some q
  <-> quality params = Some q /\ In q SUPPORTED_QUALITIES.
Proof.
  unfold wanted_quality. destruct (quality params) as [q0|].
  - destruct (includes SUPPORTED_QUALITIES q0) eqn:Hi.
    + apply includes_In in Hi. split.
      * intros [= <-]. auto.
      * intros [[= <-] _]. reflexivity.
    + split; [discriminate|]. intros [[= <-] Hin].
      apply includes_In in Hin. congruence.
  - split; [discriminate | intros [H _]; discriminate].
Qed.

(** What the response of [generateStreamUrls] holds; also used by the
    route. *)
Lemma generateStreamUrls_facts (params : StreamRequest) :
  let m := generateStreamUrls w wq params in
  (exists resp, snd m = Ok resp)
  /\ (isValidKey (courseId params) = false
      \/ isValidKey (videoId params) = false ->
      m = ([], Ok {| stream_success := false; stream_data := None;
                     stream_error :=
                       Some "Invalid courseId or videoId format"%string |}))
  /\ (forall resp d, snd m = Ok resp -> stream_data resp = Some d ->
      stream_success resp = true
      /\ stream_expiresIn d = 3600
      /\ stream_expiresAt d = now w + 3600000
      /\ data_quality d = wanted_quality params
      /\ (qualityPlaylist d <> None <->
          exists q, quality params = Some q /\ In q SUPPORTED_QUALITIES))
  /\ (forall resp, snd m = Ok resp -> stream_data resp = None ->
      stream_success resp = false /\ stream_error resp <> None).
Proof.
  cbv zeta.
  destruct (isValidKey (courseId params)) eqn:Hc;
    [destruct (isValidKey (videoId params)) eqn:Hv|].
  2,3: (unfold generateStreamUrls; rewrite Hc, ?Hv; cbn [negb orb];
        split; [eexists; reflexivity|];
        split; [reflexivity|]; split;
        [intros resp d [= <-]; discriminate
        |intros resp [= <-] _; split; [reflexivity | discriminate]]).
  rewrite (generateStreamUrls_cases params Hc Hv).
  destruct (generateSignedUrl w _ DEFAULT_EXPIRES_IN) as [tr [sm|e]].
  2:{ cbn [fst snd]. split; [eexists; reflexivity|].
      split; [intros [H|H]; discriminate|]. split.
      - intros resp d [= <-]; discriminate.
      - intros resp [= <-] _. split; [reflexivity | discriminate]. }
  destruct (Z.abs (now w + 3600000) <=? MAX_TIME).
  2:{ cbn [fst snd]. split; [eexists; reflexivity|].
      split; [intros [H|H]; discriminate|]. split.
      - intros resp d [= <-]; discriminate.
      - intros resp [= <-] _. split; [reflexivity | discriminate]. }
  destruct (wanted_quality params) as [q|] eqn:Hq.
  - apply wanted_quality_spec in Hq as [Hq Hin].
    destruct (generateSignedUrl wq _ DEFAULT_EXPIRES_IN) as [trq [sq|e]];
      cbn [fst snd] in *.
    + split; [eexists; reflexivity|].
      split; [intros [H|H]; discriminate|]. split.
      * intros resp d [= <-] [= <-]. cbn. repeat split; try reflexivity.
        -- intros _. eauto.
        -- discriminate.
      * intros resp [= <-]. discriminate.
    + split; [eexists; reflexivity|].
      split; [intros [H|H]; discriminate|]. split.
      * intros resp d [= <-]; discriminate.
      * intros resp [= <-] _. split; [reflexivity | discriminate].
  - cbn [fst snd]. split; [eexists; reflexivity|].
    split; [intros [H|H]; discriminate|]. split.
    + intros resp d [= <-] [= <-]. cbn. repeat split; try reflexivity.
      * intros H. now elim H.
      * intros (q & Hq' & Hin).
        assert (Hw : wanted_quality params = Some q)
          by (apply wanted_quality_spec; auto).
        congruence.
    + intros resp [= <-]. discriminate.
Qed.

(** X14.  [generateStreamUrls] never throws and asks the signer at most
    twice.  Identifiers outside the key alphabet are refused without any
    call.  A response that carries data is a success of validity 3600 s
    expiring 3 600 000 ms after the clock reading; it has a quality
    playlist exactly when the requested quality is one of the four
    supported, and then echoes that quality; any other quality is dropped
    without an error.  A response without data is a failure with an error
    text. *)
Theorem generateStreamUrls_contract (params : StreamRequest) :
  let m := generateStreamUrls w wq params in
  (exists resp, snd m = Ok resp)
  /\ (length (fst m) <= 2)%nat
  /\ (isValidKey (courseId params) = false
      \/ isValidKey (videoId params) = false ->
      m = ([], Ok {| stream_success := false; stream_data := None;
                     stream_error :=
                       Some "Invalid courseId or videoId format"%string |}))
  /\ (forall resp d, snd m = Ok resp -> stream_data resp = Some d ->
      stream_success resp = true
      /\ stream_expiresIn d = 3600
      /\ stream_expiresAt d = now w + 3600000
      /\ data_quality d = wanted_quality params
      /\ (qualityPlaylist d <> None <->
          exists q, quality params = Some q /\ In q SUPPORTED_QUALITIES))
  /\ (forall resp, snd m = Ok resp -> stream_data resp = None ->
      stream_success resp = false /\ stream_error resp <> None).
Proof.
  cbv zeta.
  destruct (generateStreamUrls_facts params) as (Htotal & Hbad & Hdata & Hno).
  split; [exact Htotal|]. split; [|auto].
  destruct (isValidKey (courseId params)) eqn:Hc;
    [destruct (isValidKey (videoId params)) eqn:Hv|].
  2,3: (rewrite Hbad by auto; cbn; lia).
  rewrite (generateStreamUrls_cases params Hc Hv).
  destruct (generateSignedUrl_cases w
              (stream_master_key (courseId params) (videoId params)))
    as (_ & _ & Hlen).
  destruct (generateSignedUrl w _ DEFAULT_EXPIRES_IN) as [tr [sm|e]];
    cbn [fst] in Hlen; [|cbn [fst]; lia].
  destruct (Z.abs (now w + 3600000) <=? MAX_TIME); [|cbn [fst]; lia].
  destruct (wanted_quality params) as [q|]; [|cbn [fst]; lia].
  destruct (generateSignedUrl_cases wq
              (stream_quality_key (courseId params) (videoId params) q))
    as (_ & _ & Hlenq).
  destruct (generateSignedUrl wq _ DEFAULT_EXPIRES_IN) as [trq [sq|e]];
    cbn [fst] in *; rewrite length_app; lia.
Qed.

(** X15.  Which keys [generateStreamUrls] has signed, on valid
    identifiers and with a clock in range: always
    [<courseId>/hls/<videoId>/master.m3u8] first; for a supported quality
    [<courseId>/hls/<videoId>/<quality>/playlist.m3u8] next.  When the
    second signing fails the whole request fails, although the master
    playlist has been signed; when the first fails nothing else is
    tried. *)
Theorem generateStreamUrls_signing (params : StreamRequest) :
  let m := generateStreamUrls w wq params in
  let masterKey := stream_master_key (courseId params) (videoId params) in
  isValidKey (courseId params) = true ->
  isValidKey (videoId params) = true ->
  Z.abs (now w + 3600000) <= MAX_TIME ->
  (forall um sm, signs w masterKey um sm ->
     (wanted_quality params = None ->
      m = ([GetSignedUrl um (default_deadline w)],
           Ok (stream_ok sm None None 3600 (now w + 3600000))))
     /\ (forall q uq sq,
         wanted_quality params = Some q ->
         signs wq (stream_quality_key (courseId params) (videoId params) q)
               uq sq ->
         m = ([GetSignedUrl um (default_deadline w);
               GetSignedUrl uq (default_deadline wq)],
              Ok (stream_ok sm (Some sq) (Some q) 3600 (now w + 3600000))))
     /\ (forall q,
         wanted_quality params = Some q ->
         (forall uq sq,
            ~ signs wq (stream_quality_key (courseId params)
                          (videoId params) q) uq sq) ->
         snd m = Ok stream_failure
         /\ In (GetSignedUrl um (default_deadline w)) (fst m)))
  /\ ((forall um sm, ~ signs w masterKey um sm) ->
      snd m = Ok stream_failure /\ (length (fst m) <= 1)%nat).
Proof.
  cbv zeta. intros Hc Hv Hnow. apply Z.leb_le in Hnow.
  rewrite (generateStreamUrls_cases params Hc Hv). split.
  - intros um sm Hm.
    rewrite (proj1 (generateSignedUrl_cases w _) um sm Hm), Hnow.
    split; [|split].
    + intros ->. reflexivity.
    + intros q uq sq -> Hq.
      rewrite (proj1 (generateSignedUrl_cases wq _) uq sq Hq). reflexivity.
    + intros q -> Hno. destruct (generateSignedUrl_refused Hno) as [e He].
      destruct (generateSignedUrl wq _ DEFAULT_EXPIRES_IN) as [trq r].
      cbn [snd] in He. subst r. cbn. auto.
  - intros Hno. destruct (generateSignedUrl_refused Hno) as [e He].
    destruct (generateSignedUrl_cases w
                (stream_master_key (courseId params) (videoId params)))
      as (_ & _ & Hlen).
    destruct (generateSignedUrl w _ DEFAULT_EXPIRES_IN) as [tr r].
    cbn [fst snd] in *. subst r. cbn [fst snd]. auto.
Qed.
End StreamFacts.

(** An unsupported quality is dropped; an identifier with a dot is
    refused. *)
Lemma generateStreamUrls_contract_witness :
  VideoService.generateStreamUrls Spec.signing_world Spec.signing_world
    {| VideoService.courseId := "c1"; VideoService.videoId := "v.mp4";
       VideoService.quality := Some "720p"%string |}
  = ([], Js.Ok {| VideoService.stream_success := false;
                  VideoService.stream_data := None;
                  VideoService.stream_error :=
                    Some "Invalid courseId or videoId format"%string |})
  /\ forall resp d,
       snd (VideoService.generateStreamUrls Spec.signing_world
              Spec.signing_world
              {| VideoService.courseId := "c1"; VideoService.videoId := "v";
                 VideoService.quality := Some "240p"%string |}) = Js.Ok resp ->
       VideoService.stream_data resp = Some d ->
       VideoService.data_quality d = None
       /\ VideoService.stream_expiresAt d = 1700003600005%Z.
Proof.
  split.
  - apply (generateStreamUrls_contract Spec.signing_world Spec.signing_world
             {| VideoService.courseId := "c1";
                VideoService.videoId := "v.mp4";
                VideoService.quality := Some "720p"%string |}).
    right. reflexivity.
  - intros resp d Hr Hd.
    destruct (generateStreamUrls_contract Spec.signing_world
                Spec.signing_world
                {| VideoService.courseId := "c1"; VideoService.videoId := "v";
                   VideoService.quality := Some "240p"%string |})
      as (_ & _ & _ & H & _).
    destruct (H resp d Hr Hd) as (_ & _ & Hat & Hq & _).
    split; [exact Hq | exact Hat].
Defined.

(** Master and 720p playlists are signed, in this order. *)
Lemma generateStreamUrls_signing_witness :
  VideoService.generateStreamUrls Spec.signing_world Spec.signing_world
    {| VideoService.courseId := "c1"; VideoService.videoId := "v";
       VideoService.quality := Some "720p"%string |}
  = ([VideoService.GetSignedUrl "https://cdn.example.com/c1/hls/v/master.m3u8"
        1700003600003;
      VideoService.GetSignedUrl
        "https://cdn.example.com/c1/hls/v/720p/playlist.m3u8" 1700003600003],
     Js.Ok (VideoService.stream_ok
              "https://cdn.example.com/c1/hls/v/master.m3u8?Signature=s"
              (Some "https://cdn.example.com/c1/hls/v/720p/playlist.m3u8?Signature=s"%string)
              (Some "720p"%string) 3600 1700003600005)).
Proof.
  destruct (@generateStreamUrls_signing Spec.signing_world Spec.signing_world
              {| VideoService.courseId := "c1"; VideoService.videoId := "v";
                 VideoService.quality := Some "720p"%string |}
              eq_refl eq_refl) as [H _]; [vm_compute; discriminate|].
  destruct (H "https://cdn.example.com/c1/hls/v/master.m3u8"%string
              "https://cdn.example.com/c1/hls/v/master.m3u8?Signature=s"%string)
    as (_ & Hq & _).
  { repeat split. vm_compute. discriminate. }
  apply (Hq "720p"%string
            "https://cdn.example.com/c1/hls/v/720p/playlist.m3u8"%string
            "https://cdn.example.com/c1/hls/v/720p/playlist.m3u8?Signature=s"%string);
    [reflexivity|]. repeat split. vm_compute. discriminate.
Defined.

(** ** What the pipeline stores is what the streaming route signs *)

Section StreamKeys.
Import Js Regex VideoService Spec.

Lemma word_or_dash_key_char c :
  Consumer.word_or_dash c = true -> key_char c = true.
Proof.
  destruct c as [[] [] [] [] [] [] [] []]; vm_compute; congruence.
Qed.

Lemma ident_isValidKey s : ident s -> isValidKey s = true.
Proof.
  intros [Hne Hall]. rewrite isValidKey_chars, Hne. cbn [andb].
  apply all_chars_In. intros c Hc. apply word_or_dash_key_char.
  rewrite all_chars_In in Hall. auto.
Qed.

Lemma In_append_r c a b :
  In c (list_ascii_of_string b) -> In c (list_ascii_of_string (a +++ b)).
Proof.
  induction a as [|x a IH]; cbn; [auto|]. intros H. right. auto.
Qed.

(** Every playlist key of the pipeline has a dot, which the key alphabet
    of the URL service does not have. *)
Lemma playlist_keys_foreign (p : Transcoder.S3Paths) (resolution : string) :
  has_foreign_char (Transcoder.getMasterPlaylistKey p)
  /\ has_foreign_char (Transcoder.getVariantPlaylistKey p resolution).
Proof.
  unfold has_foreign_char, Transcoder.getMasterPlaylistKey,
    Transcoder.getVariantPlaylistKey.
  split; exists "."%char; (split; [|reflexivity]);
    repeat apply In_append_r; cbn; tauto.
Qed.

(** X16.  For every source key the dispatcher accepts, with its course
    identifier [cid] and file name [fn]: both identifiers pass the URL
    service's [isValidKey]; the key the streaming service signs for the
    master playlist of [(cid, fn)] is the key the transcoder uploads the
    master playlist to, and likewise for the playlist of each configured
    variant; the variants' names are exactly the supported qualities.
    The same keys are refused by [generateUrl], whose alphabet has no
    dot. *)
Theorem stream_keys_match_pipeline (sourceKey cid fn : string) :
  key_shape sourceKey cid fn ->
  let p := Transcoder.generateS3Paths sourceKey in
  isValidKey cid = true /\ isValidKey fn = true
  /\ stream_master_key cid fn = Transcoder.getMasterPlaylistKey p
  /\ (forall res, In res Transcoder.RESOLUTIONS ->
      stream_quality_key cid fn (Transcoder.name res)
      = Transcoder.getVariantPlaylistKey p (Transcoder.name res))
  /\ (forall q, In q SUPPORTED_QUALITIES <->
                In q (map Transcoder.name Transcoder.RESOLUTIONS))
  /\ isValidKey (Transcoder.getMasterPlaylistKey p) = false
  /\ (forall res,
      isValidKey (Transcoder.getVariantPlaylistKey p (Transcoder.name res))
      = false).
Proof.
  intros Hshape. cbv zeta. rewrite (generateS3Paths_shape Hshape).
  destruct Hshape as (C & V & E & _ & _ & _ & _ & Hcid & Hfn).
  split; [now apply ident_isValidKey|]. split; [now apply ident_isValidKey|].
  unfold stream_master_key, stream_quality_key,
    Transcoder.getMasterPlaylistKey, Transcoder.getVariantPlaylistKey.
  cbn [Transcoder.courseId Transcoder.filename Transcoder.render].
  split; [now rewrite !append_assoc|].
  split; [intros res _; now rewrite !append_assoc|].
  split; [intros q; cbn; tauto|].
  split; [|intros res]; apply foreign_char_invalid;
    apply (playlist_keys_foreign
             {| Transcoder.courseId := Some cid; Transcoder.filename := fn |}
             (Transcoder.name res)) || apply (playlist_keys_foreign
             {| Transcoder.courseId := Some cid; Transcoder.filename := fn |}
             "").
Qed.
End StreamKeys.

Lemma stream_keys_match_pipeline_witness :
  Spec.stream_master_key "c1" "v"
  = Transcoder.getMasterPlaylistKey (Transcoder.generateS3Paths Spec.sample_key)
  /\ Spec.stream_quality_key "c1" "v" "480p"
     = Transcoder.getVariantPlaylistKey
         (Transcoder.generateS3Paths Spec.sample_key) "480p"
  /\ VideoService.isValidKey "c1/hls/v/master.m3u8" = false.
Proof.
  assert (Hshape : Spec.key_shape Spec.sample_key "c1" "v").
  { exists "courses"%string, "videos"%string, "mp4"%string.
    repeat split; cbn; tauto. }
  destruct (stream_keys_match_pipeline Hshape)
    as (_ & _ & Hm & Hq & _ & Hno & _).
  split; [exact Hm|]. split.
  - apply (Hq Transcoder.res_480p). cbn. tauto.
  - exact Hno.
Defined.

(** ** The routes *)

Section RouteFacts.
Import Js Regex VideoService Routes Spec.
Local Open Scope Z_scope.
Variables (w wq : World).

Lemma generateUrl_total (params : GenerateUrlRequest) :
  exists resp, snd (generateUrl w params) = Ok resp.
Proof.
  unfold generateUrl. destruct (negb (isValidKey (videoKey params)));
    [eexists; reflexivity|].
  unfold try_catch.
  destruct (bind (generateSignedUrl _ _ _) _) as [tr [a|e]];
    eexists; reflexivity.
Qed.

Lemma foreign_char_nonempty key : has_foreign_char key -> key <> ""%string.
Proof. intros (c & Hin & _) ->. destruct Hin. Qed.

(** X17.  [POST /generate].  The answer is 400 exactly when [videoKey] is
    falsy (absent, [null], [false], zero or the empty string), and then
    nothing is signed.  A non-empty string is handed to the service: the
    body is the service's response, with status 200 when it is a success
    and 500 when not.  Any other value (a number other than zero, [true],
    an array, an object) makes the handler throw a TypeError before
    anything is signed or sent; these are the only requests on which it
    throws.  A key with a character outside the alphabet is answered with
    500 (not 400) and [Invalid videoKey format]; this holds for every
    playlist key the transcoder writes. *)
Theorem post_generate_status (videoKey : Consumer.jsval)
    (expiresIn : option Z) :
  let m := post_generate w videoKey expiresIn in
  let other := forall key, videoKey <> Some (Consumer.JStr key) in
  (logical_not videoKey = true <->
   m = ([], Ok {| status := 400;
                  body := JsonError "videoKey is required" |}))
  /\ (logical_not videoKey = true <->
      exists resp, snd m = Ok resp /\ status resp = 400)
  /\ (forall key, videoKey = Some (Consumer.JStr key) -> key <> ""%string ->
      exists result,
        generateUrl w {| VideoService.videoKey := key;
                         VideoService.expiresIn := expiresIn |}
        = (fst m, Ok result)
        /\ snd m = Ok {| status := if success result then 200 else 500;
                         body := JsonUrl result |})
  /\ (logical_not videoKey = false -> other ->
      m = ([], Throw (TypeError "key.match is not a function")))
  /\ ((exists e, snd m = Throw e) <-> logical_not videoKey = false /\ other)
  /\ (forall key, videoKey = Some (Consumer.JStr key) ->
      has_foreign_char key ->
      m = ([], Ok {| status := 500; body := JsonUrl invalid_key_response |}))
  /\ (forall p resolution,
      videoKey = Some (Consumer.JStr (Transcoder.getMasterPlaylistKey p))
      \/ videoKey
         = Some (Consumer.JStr
                   (Transcoder.getVariantPlaylistKey p resolution)) ->
      m = ([], Ok {| status := 500; body := JsonUrl invalid_key_response |})).
Proof.
  cbv zeta.
  assert (Hrun : forall key, videoKey = Some (Consumer.JStr key) ->
            key <> ""%string ->
            exists result,
              generateUrl w {| VideoService.videoKey := key;
                               VideoService.expiresIn := expiresIn |}
              = (fst (post_generate w videoKey expiresIn), Ok result)
              /\ snd (post_generate w videoKey expiresIn)
                 = Ok {| status := if success result then 200 else 500;
                         body := JsonUrl result |}).
  { intros key -> Hne. destruct key as [|c s]; [now elim Hne|].
    unfold post_generate. cbn [logical_not string_nonempty negb].
    destruct (generateUrl_total {| VideoService.videoKey := String c s;
                                   VideoService.expiresIn := expiresIn |})
      as [result Hres].
    destruct (generateUrl w _) as [tr r]. cbn [snd] in Hres. subst r.
    exists result. cbn. now rewrite app_nil_r. }
  assert (Hforeign : forall key, videoKey = Some (Consumer.JStr key) ->
            has_foreign_char key ->
            post_generate w videoKey expiresIn
            = ([], Ok {| status := 500; body := JsonUrl invalid_key_response |})).
  { intros key Hk Hf.
    destruct (Hrun key Hk (foreign_char_nonempty Hf)) as (result & Hg & Hs).
    unfold generateUrl in Hg. cbn [VideoService.videoKey] in Hg.
    rewrite (foreign_char_invalid Hf) in Hg. cbn in Hg.
    injection Hg as Htr Hr.
    destruct (post_generate w videoKey expiresIn) as [tr r].
    cbn [fst snd] in *. subst tr r result. reflexivity. }
  assert (Hstr : forall key, videoKey = Some (Consumer.JStr key) ->
            key <> ""%string ->
            logical_not videoKey = false
            /\ (exists resp, snd (post_generate w videoKey expiresIn) = Ok resp
                             /\ status resp <> 400)).
  { intros key Hk Hne. destruct (Hrun key Hk Hne) as (result & _ & Hs).
    split; [subst videoKey; destruct key; [now elim Hne | reflexivity]|].
    eexists. split; [exact Hs|]. cbn. destruct (success result); discriminate. }
  split; [|split; [|split; [exact Hrun|split; [|split; [|split;
    [exact Hforeign|]]]]]].
  - destruct (logical_not videoKey) eqn:Hn.
    + unfold post_generate. rewrite Hn. split; reflexivity.
    + split; [discriminate|]. intros E.
      destruct videoKey as [[|[]|text|key|items|props]|];
        try discriminate Hn;
        try (unfold post_generate in E; rewrite Hn in E; discriminate E).
      destruct key as [|c s]; [discriminate Hn|].
      destruct (Hstr (String c s) eq_refl) as (_ & resp & Hs & Hne);
        [discriminate|].
      rewrite E in Hs. injection Hs as <-. now elim Hne.
  - destruct (logical_not videoKey) eqn:Hn.
    + unfold post_generate. rewrite Hn.
      split; [intros _; eexists; split; reflexivity | reflexivity].
    + split; [discriminate|]. intros (resp & E & H400).
      destruct videoKey as [[|[]|text|key|items|props]|];
        try discriminate Hn;
        try (unfold post_generate in E; rewrite Hn in E; discriminate E).
      destruct key as [|c s]; [discriminate Hn|].
      destruct (Hstr (String c s) eq_refl) as (_ & resp' & Hs & Hne);
        [discriminate|].
      rewrite E in Hs. injection Hs as <-. now elim Hne.
  - intros Hn Hother. unfold post_generate. rewrite Hn.
    destruct videoKey as [[|[]|text|key|items|props]|]; try reflexivity.
    now elim (Hother key).
  - split.
    + intros [e He]. destruct (logical_not videoKey) eqn:Hn.
      * unfold post_generate in He. rewrite Hn in He. discriminate He.
      * split; [reflexivity|]. intros key Hk.
        assert (Hne : key <> ""%string)
          by (intros ->; subst videoKey; discriminate Hn).
        destruct (Hrun key Hk Hne) as (result & _ & Hs).
        rewrite Hs in He. discriminate He.
    + intros [Hn Hother]. unfold post_generate. rewrite Hn.
      destruct videoKey as [[|[]|text|key|items|props]|];
        try (eexists; reflexivity).
      now elim (Hother key).
  - intros p resolution [Hk|Hk]; apply (Hforeign _ Hk);
      apply (playlist_keys_foreign p resolution).
Qed.

(** X18.  [GET /stream/:courseId/:videoId].  The route never throws.  It
    answers 400 without asking the service exactly when an identifier is
    empty or the quality is a non-empty string outside the four supported
    ones.  Otherwise the body is the service's response: non-empty
    identifiers outside the key alphabet give 500, not 400, and nothing is
    signed; and a 200 for a request that names a quality always carries
    that quality's playlist. *)
Theorem get_stream_status (courseId videoId : string)
    (rawQuality : option string) :
  let m := get_stream w wq courseId videoId rawQuality in
  let refused :=
    courseId = ""%string \/ videoId = ""%string
    \/ exists q, rawQuality = Some q /\ q <> ""%string
                 /\ ~ In q SUPPORTED_QUALITIES in
  (exists resp, snd m = Ok resp)
  /\ (refused <-> exists resp, snd m = Ok resp /\ status resp = 400)
  /\ (refused -> fst m = [])
  /\ (~ refused ->
      exists result,
        generateStreamUrls w wq
          {| VideoService.courseId := courseId;
             VideoService.videoId := videoId;
             quality := rawQuality |} = (fst m, Ok result)
        /\ snd m = Ok {| status := if stream_success result then 200 else 500;
                         body := JsonStream result |})
  /\ (~ refused ->
      isValidKey courseId = false \/ isValidKey videoId = false ->
      fst m = [] /\ exists resp, snd m = Ok resp /\ status resp = 500)
  /\ (forall resp result q,
      snd m = Ok resp -> status resp = 200 -> body resp = JsonStream result ->
      rawQuality = Some q -> q <> ""%string ->
      exists d signed,
        stream_data result = Some d
        /\ qualityPlaylist d = Some signed /\ data_quality d = Some q).
Proof.
  cbv zeta. unfold get_stream.
  destruct (string_nonempty courseId) eqn:Hc.
  2:{ destruct courseId; [|discriminate Hc]. cbn [negb orb].
      split; [eexists; reflexivity|]. split.
      { split; [intros _; eexists; split; reflexivity | auto]. }
      split; [reflexivity|]. split; [intros H; elim H; auto|].
      split; [intros H; elim H; auto|].
      intros resp result q [= <-]. discriminate. }
  destruct (string_nonempty videoId) eqn:Hv.
  2:{ destruct videoId; [|discriminate Hv]. cbn [negb orb].
      split; [eexists; reflexivity|]. split.
      { split; [intros _; eexists; split; reflexivity | auto]. }
      split; [reflexivity|]. split; [intros H; elim H; auto|].
      split; [intros H; elim H; auto|].
      intros resp result q [= <-]. discriminate. }
  cbn [negb orb].
  assert (Hc' : courseId <> ""%string) by (intros ->; discriminate Hc).
  assert (Hv' : videoId <> ""%string) by (intros ->; discriminate Hv).
  destruct (negb (absent rawQuality)
            && negb (includes ["360p"; "480p"; "720p"; "1080p"]%string
                       match rawQuality with Some q => q | None => ""%string end))
    eqn:Hq.
  - apply andb_true_iff in Hq as [Ha Hi].
    assert (Href : exists q, rawQuality = Some q /\ q <> ""%string
                             /\ ~ In q SUPPORTED_QUALITIES).
    { destruct rawQuality as [[|c q]|]; try discriminate Ha.
      exists (String c q). split; [reflexivity|]. split; [discriminate|].
      intros Hin. apply includes_In in Hin. unfold SUPPORTED_QUALITIES in Hin.
      rewrite Hin in Hi. discriminate Hi. }
    split; [eexists; reflexivity|]. split.
    { split; [intros _; eexists; split; reflexivity | auto]. }
    split; [reflexivity|]. split; [intros H; elim H; auto|].
    split; [intros H; elim H; auto|].
    intros resp result q [= <-]. discriminate.
  - assert (Hnot : ~ (courseId = ""%string \/ videoId = ""%string
                      \/ exists q, rawQuality = Some q /\ q <> ""%string
                                   /\ ~ In q SUPPORTED_QUALITIES)).
    { intros [H|[H|(q & -> & Hne & Hin)]]; [auto | auto |].
      destruct q as [|c q]; [now elim Hne|]. cbn [absent string_nonempty negb andb] in Hq.
      apply negb_false_iff in Hq. apply includes_In in Hq. auto. }
    destruct (generateStreamUrls_facts w wq
                {| VideoService.courseId := courseId;
                   VideoService.videoId := videoId;
                   quality := rawQuality |})
      as ([result Hres] & Hinvalid & Hdata & Hnodata).
    cbn [VideoService.courseId VideoService.videoId quality] in *.
    destruct (generateStreamUrls w wq _) as [tr r] eqn:Eg.
    cbn [snd] in Hres. subst r. cbn [bind ret fst snd].
    rewrite app_nil_r.
    split; [eexists; reflexivity|]. split.
    { split; [intros H; now elim Hnot|].
      intros (resp & [= <-] & Hs). cbn in Hs.
      destruct (stream_success result); discriminate Hs. }
    split; [intros H; now elim Hnot|].
    split; [intros _; exists result; auto|]. split.
    + intros _ Hbad. specialize (Hinvalid Hbad).
      injection Hinvalid as -> ->. split; [reflexivity|].
      eexists. split; reflexivity.
    + intros resp result' q [= <-] Hs [= <-] -> Hne. cbn in Hs.
      destruct (stream_data result) as [d|] eqn:Hd.
      * destruct (Hdata result d eq_refl Hd) as (_ & _ & _ & Hdq & Hqp).
        assert (Hin : In q SUPPORTED_QUALITIES).
        { destruct q as [|c q]; [now elim Hne|].
          cbn [absent string_nonempty negb andb] in Hq.
          apply negb_false_iff in Hq. now apply includes_In in Hq. }
        assert (Hw : wanted_quality {| VideoService.courseId := courseId;
                                       VideoService.videoId := videoId;
                                       quality := Some q |} = Some q)
          by (apply wanted_quality_spec; auto).
        destruct (qualityPlaylist d) as [signed|] eqn:Hp.
        -- exists d, signed. rewrite Hdq, Hw. auto.
        -- exfalso. assert (Hsome : @None string <> None); [|now apply Hsome].
           apply Hqp. exists q. auto.
      * destruct (Hnodata result eq_refl Hd) as [Hf _]. rewrite Hf in Hs.
        discriminate Hs.
Qed.

(** X19.  [GET /player/:courseId/:videoId].  The route never throws and
    asks the signer at most once.  Unlike the streaming route it does not
    check the identifiers against the key alphabet: whatever non-empty
    identifiers it is given, when the signing goes through it answers 200
    with a page that carries the two identifiers and the signed URL
    verbatim between the constant parts of the template; when the signing
    fails it answers 500. *)
Theorem get_player_status (courseId videoId : string) :
  let m := get_player w courseId videoId in
  let masterKey := stream_master_key courseId videoId in
  (exists resp, snd m = Ok resp)
  /\ (length (fst m) <= 1)%nat
  /\ (courseId = ""%string \/ videoId = ""%string ->
      m = ([], Ok {| status := 400;
                     body := JsonError "courseId and videoId are required" |}))
  /\ (courseId <> ""%string -> videoId <> ""%string ->
      (forall url signed, signs w masterKey url signed ->
         m = ([GetSignedUrl url (default_deadline w)],
              Ok {| status := 200;
                    body := Html (page_head +++ courseId +++ "/" +++ videoId
                                  +++ page_middle +++ signed +++ page_tail) |}))
      /\ ((forall url signed, ~ signs w masterKey url signed) ->
          snd m = Ok {| status := 500;
                        body := JsonError "Failed to generate player page" |})).
Proof.
  cbv zeta. unfold get_player.
  destruct courseId as [|c cs];
    [cbn; split; [eexists; reflexivity|]; split; [lia|]; split;
       [reflexivity | intros H; now elim H]|].
  destruct videoId as [|v vs];
    [cbn; split; [eexists; reflexivity|]; split; [lia|]; split;
       [reflexivity | intros _ H; now elim H]|].
  cbn [string_nonempty negb orb]. unfold generatePlayerHtml.
  change ((String c cs +++ "/hls/" +++ String v vs) +++ "/master.m3u8")
    with (stream_master_key (String c cs) (String v vs)).
  destruct (generateSignedUrl_cases w
              (stream_master_key (String c cs) (String v vs)))
    as (Hok & Hinv & Hlen).
  destruct (generateSignedUrl w _ DEFAULT_EXPIRES_IN) as [tr [signed|e]] eqn:Eg;
    cbn [fst snd] in *.
  - cbn [bind ret try_catch app]. rewrite !app_nil_r.
    split; [eexists; reflexivity|]. split; [exact Hlen|].
    split; [intros [H|H]; discriminate|]. intros _ _. split.
    + intros url signed' Hs. specialize (Hok url signed' Hs).
      injection Hok as -> ->. reflexivity.
    + intros Hno. destruct (Hinv signed eq_refl) as [url Hs].
      now elim (Hno url signed).
  - cbn [bind ret try_catch app]. rewrite !app_nil_r.
    split; [eexists; reflexivity|]. split; [exact Hlen|].
    split; [intros [H|H]; discriminate|]. intros _ _. split.
    + intros url signed Hs. specialize (Hok url signed Hs). discriminate Hok.
    + reflexivity.
Qed.
End RouteFacts.

(** The master playlist key of the sample job cannot be signed through
    [POST /generate]; a body without [videoKey] is a 400. *)
Lemma post_generate_status_witness :
  Routes.post_generate Spec.signing_world
    (Some (Consumer.JStr "c1/hls/v/master.m3u8")) None
  = ([], Js.Ok {| Routes.status := 500;
                  Routes.body := Routes.JsonUrl Spec.invalid_key_response |})
  /\ Routes.post_generate Spec.signing_world None (Some 60%Z)
     = ([], Js.Ok {| Routes.status := 400;
                     Routes.body := Routes.JsonError "videoKey is required" |})
  /\ Routes.post_generate Spec.signing_world (Some (Consumer.JNum "5")) None
     = ([], Js.Throw (Js.TypeError "key.match is not a function")).
Proof.
  split; [|split].
  - destruct (post_generate_status Spec.signing_world
                (Some (Consumer.JStr "c1/hls/v/master.m3u8")) None)
      as (_ & _ & _ & _ & _ & _ & H).
    apply (H (Transcoder.generateS3Paths Spec.sample_key) "720p"%string).
    left. reflexivity.
  - destruct (post_generate_status Spec.signing_world None (Some 60%Z))
      as (H & _).
    apply H. reflexivity.
  - destruct (post_generate_status Spec.signing_world
                (Some (Consumer.JNum "5")) None) as (_ & _ & _ & H & _).
    apply H; [reflexivity | discriminate].
Defined.

(** An unsupported quality is a 400 at the route; an identifier with
    markup is a 500, and the signer is not asked. *)
Lemma get_stream_status_witness :
  fst (Routes.get_stream Spec.signing_world Spec.signing_world "c1" "v"
         (Some "240p"%string)) = []
  /\ (exists resp,
        snd (Routes.get_stream Spec.signing_world Spec.signing_world "c1" "v"
               (Some "240p"%string)) = Js.Ok resp
        /\ Routes.status resp = 400%Z)
  /\ fst (Routes.get_stream Spec.signing_world Spec.signing_world
            Spec.markup_id "v" None) = []
  /\ exists resp,
       snd (Routes.get_stream Spec.signing_world Spec.signing_world
              Spec.markup_id "v" None) = Js.Ok resp
       /\ Routes.status resp = 500%Z.
Proof.
  destruct (get_stream_status Spec.signing_world Spec.signing_world "c1" "v"
              (Some "240p"%string)) as (_ & H400 & Hnone & _).
  assert (Href : "c1"%string = ""%string \/ "v"%string = ""%string
                 \/ exists q, Some "240p"%string = Some q /\ q <> ""%string
                              /\ ~ In q VideoService.SUPPORTED_QUALITIES).
  { right. right. exists "240p"%string. split; [reflexivity|].
    split; [discriminate|]. cbn. intuition discriminate. }
  split; [exact (Hnone Href)|]. split; [exact (proj1 H400 Href)|].
  destruct (get_stream_status Spec.signing_world Spec.signing_world
              Spec.markup_id "v" None) as (_ & _ & _ & _ & H500 & _).
  apply H500.
  - intros [H|[H|(q & H & _)]]; discriminate H.
  - left. reflexivity.
Defined.

(** The same identifier at the player route is signed and lands in the
    page. *)
Lemma get_player_status_witness :
  Routes.get_player Spec.signing_world Spec.markup_id "v"
  = ([VideoService.GetSignedUrl
        "https://cdn.example.com/<b>x</b>/hls/v/master.m3u8" 1700003600003],
     Js.Ok {| Routes.status := 200;
              Routes.body :=
                Routes.Html
                  (VideoService.page_head +++ "<b>x</b>" +++ "/" +++ "v"
                   +++ VideoService.page_middle
                   +++ "https://cdn.example.com/<b>x</b>/hls/v/master.m3u8?Signature=s"
                   +++ VideoService.page_tail) |}).
Proof.
  destruct (get_player_status Spec.signing_world Spec.markup_id "v")
    as (_ & _ & _ & H).
  destruct H as [H _]; [discriminate | discriminate |].
  apply (H "https://cdn.example.com/<b>x</b>/hls/v/master.m3u8"%string
           "https://cdn.example.com/<b>x</b>/hls/v/master.m3u8?Signature=s"%string).
  repeat split. vm_compute. discriminate.
Defined.

(** ** From an accepted key to the output location *)

Section OutputFacts.
Import Js Transcoder Spec.
Variables (w : World).

Lemma validateEnvironment_all_set (penv : environment) :
  all_set requiredEnvVars penv -> validateEnvironment penv = Ok tt.
Proof.
  intros H. apply missing_of_nil in H. unfold validateEnvironment.
  cbv zeta. fold (missing_of requiredEnvVars penv). now rewrite H.
Qed.

Lemma prefix_append (a b : string) : String.prefix a (a +++ b) = true.
Proof.
  rewrite <- (append_empty_r a) at 1. rewrite prefix_cancel.
  now destruct b.
Qed.

(** Every upload of a run goes to the master key or to a file key of a
    variant of the fan-out. *)
Lemma uploads_in_pipeline env sourceKey :
  Forall (allowed anything (pipeline_upload_key (generateS3Paths sourceKey)))
         (all_events (processVideo w env sourceKey)).
Proof.
  destruct (run_phases w env sourceKey) as (Hb & Hf & Ha).
  unfold all_events. rewrite !Forall_app. repeat split.
  - eapply allowed_weaken; [| |exact Hb]; [intros; exact I | intros key []].
  - eapply allowed_weaken; [| |exact Hf]; [intros; exact I|].
    intros key (res & Hres & Hkey). right. now exists res.
  - eapply allowed_weaken; [| |exact Ha]; [intros res [] |].
    intros key <-. now left.
Qed.

Lemma pipeline_key_prefix cid fn key :
  pipeline_upload_key {| courseId := Some cid; filename := fn |} key ->
  String.prefix (output_prefix cid fn) key = true.
Proof.
  unfold pipeline_upload_key, variant_file_key, getMasterPlaylistKey,
    getHLSBasePath, output_prefix.
  cbn [courseId filename render].
  intros [->|(res & _ & file & ->)].
  - replace (cid +++ "/hls/" +++ fn +++ "/master.m3u8")
      with ((cid +++ "/hls/" +++ fn +++ "/") +++ "master.m3u8")
      by (rewrite !append_assoc; reflexivity).
    apply prefix_append.
  - replace ((cid +++ "/hls/" +++ fn) +++ "/" +++ name res +++ "/" +++ file)
      with ((cid +++ "/hls/" +++ fn +++ "/") +++ name res +++ "/" +++ file)
      by (rewrite !append_assoc; reflexivity).
    apply prefix_append.
Qed.

(** X20.  From the queue to the output.  When the transcoder is started
    with a complete environment whose [AWS_S3_TEMP_KEY] is a key the
    dispatcher's validator accepts, the job runs on that key, and for the
    course identifier and file name the key carries: both are identifiers
    the streaming route accepts; every object the job uploads lies under
    [<courseId>/hls/<filename>/]; and when the job ends well it has put
    the master playlist at the very key the streaming service signs for
    that pair, and the process is left to end by itself. *)
Theorem dispatched_job_outputs (penv : environment) (cwd key : string) :
  all_set requiredEnvVars penv ->
  penv "AWS_S3_TEMP_KEY"%string = Some key ->
  Consumer.validateS3Key key = true ->
  exists cid fn r,
    key_shape key cid fn
    /\ init w penv cwd
       = (Some r, match returned r with Ok _ => None | Throw _ => Some 1%Z end)
    /\ VideoService.isValidKey cid = true
    /\ VideoService.isValidKey fn = true
    /\ (forall ev k, In ev (all_events r) -> upload_key ev = Some k ->
        String.prefix (output_prefix cid fn) k = true)
    /\ (forall b, returned r = Ok b ->
        exists ev, In ev (after r)
                   /\ upload_key ev = Some (stream_master_key cid fn)).
Proof.
  intros Hall Hkey Hvalid.
  apply validateS3Key_shape in Hvalid as (cid & fn & Hshape).
  exists cid, fn,
    (processVideo w (process_env penv cwd) key).
  split; [exact Hshape|]. split.
  { unfold init. rewrite (validateEnvironment_all_set Hall), Hkey.
    reflexivity. }
  pose proof (generateS3Paths_shape Hshape) as Hp.
  destruct Hshape as (C & V & E & _ & _ & _ & _ & Hcid & Hfn).
  split; [now apply ident_isValidKey|]. split; [now apply ident_isValidKey|].
  split.
  - intros ev k Hin Hup. apply pipeline_key_prefix. rewrite <- Hp.
    pose proof (uploads_in_pipeline (process_env penv cwd) key) as Hu.
    rewrite Forall_forall in Hu. now apply (Hu ev Hin).
  - intros b Hret.
    destruct (success_uploads_master w (process_env penv cwd) key Hret)
      as (_ & workDir & _ & Hput).
    eexists. split; [exact Hput|]. cbn [upload_key]. rewrite Hp.
    unfold stream_master_key, getMasterPlaylistKey.
    cbn [courseId filename render]. now rewrite !append_assoc.
Qed.

End OutputFacts.

(** The sample environment and key. *)
Lemma dispatched_job_outputs_witness :
  exists r,
    Transcoder.init Spec.fresh_world Spec.task_env "/app" = (Some r, None)
    /\ forall ev k, In ev (Transcoder.all_events r) ->
         Transcoder.upload_key ev = Some k ->
         String.prefix "c1/hls/v/" k = true.
Proof.
  destruct (@dispatched_job_outputs Spec.fresh_world Spec.task_env "/app"
              Spec.sample_key)
    as (cid & fn & r & Hshape & Hinit & _ & _ & Hup & _).
  - intros name Hin. cbn in Hin.
    destruct Hin as [<-|[<-|[<-|[<-|[]]]]]; cbn;
      unfold Spec.sample_key; eauto.
  - reflexivity.
  - vm_compute. reflexivity.
  - assert (Hp : Transcoder.generateS3Paths Spec.sample_key
                 = {| Transcoder.courseId := Some cid;
                      Transcoder.filename := fn |})
      by exact (generateS3Paths_shape Hshape).
    vm_compute in Hp. injection Hp as <- <-.
    exists r. split; [|exact Hup].
    rewrite Hinit. f_equal.
    assert (E : fst (Transcoder.init Spec.fresh_world Spec.task_env "/app")
                = Some r) by now rewrite Hinit.
    vm_compute in E. injection E as <-. reflexivity.
Defined.


(** ** The master playlist, for any list of variants *)

Section PlaylistFacts.
Import Js Transcoder Spec.

Lemma digits_line d :
  all_chars (not_sep "010"%char) (NilEmpty.string_of_uint d) = true.
Proof. induction d; simpl; auto. Qed.

Lemma string_of_uint_line d :
  all_chars (not_sep "010"%char) (NilZero.string_of_uint d) = true.
Proof. destruct d; try reflexivity; apply digits_line. Qed.

Lemma number_to_string_line n :
  all_chars (not_sep "010"%char) (number_to_string n) = true.
Proof.
  destruct n as [z|]; [|reflexivity].
  unfold number_to_string, NilZero.string_of_int.
  destruct (Z.to_int z) as [d|d]; [apply string_of_uint_line|].
  cbn [all_chars]. rewrite string_of_uint_line. reflexivity.
Qed.

Lemma stream_inf_line_line v :
  plain_resolution v ->
  all_chars (not_sep "010"%char) (stream_inf_line v) = true.
Proof.
  intros [Hr _]. unfold stream_inf_line.
  rewrite !all_chars_append, number_to_string_line, Hr. reflexivity.
Qed.

Lemma uri_line_line v :
  plain_resolution v -> all_chars (not_sep "010"%char) (uri_line v) = true.
Proof.
  intros [Hr _]. unfold uri_line. rewrite all_chars_append, Hr. reflexivity.
Qed.

Lemma generateMasterPlaylist_entries variants :
  generateMasterPlaylist variants
  = "#EXTM3U" +++ newline +++ "#EXT-X-VERSION:3" +++ newline
    +++ "#EXT-X-INDEPENDENT-SEGMENTS" +++ newline +++ newline
    +++ entries variants.
Proof.
  unfold generateMasterPlaylist. cbv zeta.
  set (f := fun playlist v => _).
  assert (H : forall vs acc, fold_left f vs acc = acc +++ entries vs).
  { induction vs as [|v vs IH]; intros acc; cbn [fold_left entries].
    - now rewrite append_empty_r.
    - rewrite IH. unfold f, stream_inf_line, uri_line.
      rewrite !append_assoc. reflexivity. }
  rewrite H. rewrite !append_assoc. reflexivity.
Qed.

Lemma lines_entries variants :
  Forall plain_resolution variants ->
  lines (entries variants)
  = flat_map (fun v => [stream_inf_line v; uri_line v]) variants ++ [""%string].
Proof.
  unfold lines. induction 1 as [|v vs Hv _ IH]; [reflexivity|].
  cbn [entries flat_map app]. unfold newline. cbn [String.append].
  rewrite (@split_head _ _ _ (stream_inf_line_line Hv)).
  rewrite (@split_head _ _ _ (uri_line_line Hv)).
  now rewrite IH.
Qed.

Lemma uri_line_kept v :
  plain_resolution v ->
  string_nonempty (uri_line v) && negb (String.prefix "#" (uri_line v)) = true
  /\ String.prefix "#EXT-X-STREAM-INF:" (uri_line v) = false.
Proof.
  intros [_ Hp]. unfold uri_line.
  destruct (resolution v) as [|c r]; [split; reflexivity|].
  cbn [String.append String.prefix string_nonempty andb] in Hp |- *.
  destruct (ascii_dec "#" c) as [E|N]; [|split; reflexivity].
  destruct r; discriminate Hp.
Qed.

Lemma stream_inf_line_kept v :
  string_nonempty (stream_inf_line v)
    && negb (String.prefix "#" (stream_inf_line v)) = false
  /\ String.prefix "#EXT-X-STREAM-INF:" (stream_inf_line v) = true.
Proof.
  unfold stream_inf_line. split; [reflexivity|].
  change ("#EXT-X-STREAM-INF:BANDWIDTH=" +++ ?x)
    with ("#EXT-X-STREAM-INF:" +++ "BANDWIDTH=" +++ x).
  apply prefix_append.
Qed.

(** X22.  For every list of variants whose resolution strings hold no
    line break and do not start with [#], the master playlist reads back
    as written: four header lines, then for each variant, in order, one
    [#EXT-X-STREAM-INF] line with its bandwidth and resolution followed by
    one URI line, which is the resolution string followed by
    [/playlist.m3u8]. *)
Theorem generateMasterPlaylist_lines (variants : list Variant) :
  Forall plain_resolution variants ->
  let text := generateMasterPlaylist variants in
  lines text
  = ["#EXTM3U"; "#EXT-X-VERSION:3"; "#EXT-X-INDEPENDENT-SEGMENTS"; ""]%string
    ++ flat_map (fun v => [stream_inf_line v; uri_line v]) variants
    ++ [""%string]
  /\ stream_inf_lines text = map stream_inf_line variants
  /\ uri_lines text = map uri_line variants.
Proof.
  intros Hall. cbv zeta.
  assert (Hlines :
    lines (generateMasterPlaylist variants)
    = ["#EXTM3U"; "#EXT-X-VERSION:3"; "#EXT-X-INDEPENDENT-SEGMENTS"; ""]%string
      ++ flat_map (fun v => [stream_inf_line v; uri_line v]) variants
      ++ [""%string]).
  { rewrite generateMasterPlaylist_entries.
    rewrite <- (lines_entries Hall). reflexivity. }
  split; [exact Hlines|].
  unfold stream_inf_lines, uri_lines. rewrite Hlines, !filter_app.
  clear Hlines.
  set (header := ["#EXTM3U"; "#EXT-X-VERSION:3";
                  "#EXT-X-INDEPENDENT-SEGMENTS"; ""]%string).
  split.
  - replace (filter (String.prefix "#EXT-X-STREAM-INF:") header)
      with (@nil string) by reflexivity.
    replace (filter (String.prefix "#EXT-X-STREAM-INF:") [""%string])
      with (@nil string) by reflexivity.
    rewrite app_nil_r. cbn [app].
    induction Hall as [|v vs Hv _ IH]; [reflexivity|].
    cbn [flat_map app filter map].
    rewrite (proj2 (stream_inf_line_kept v)), (proj2 (uri_line_kept Hv)).
    now rewrite IH.
  - replace (filter (fun l => string_nonempty l
                              && negb (String.prefix "#" l)) header)
      with (@nil string) by reflexivity.
    replace (filter (fun l => string_nonempty l
                              && negb (String.prefix "#" l)) [""%string])
      with (@nil string) by reflexivity.
    rewrite app_nil_r. cbn [app].
    induction Hall as [|v vs Hv _ IH]; [reflexivity|].
    cbn [flat_map app filter map].
    rewrite (proj1 (stream_inf_line_kept v)), (proj1 (uri_line_kept Hv)).
    now rewrite IH.
Qed.
End PlaylistFacts.

(** Two variants named like the directories the pipeline uploads to. *)
Lemma generateMasterPlaylist_lines_witness :
  Spec.uri_lines
    (Transcoder.generateMasterPlaylist
       [ {| Transcoder.resolution := "720p";
            Transcoder.bandwidth := Js.Num 2800000 |};
         {| Transcoder.resolution := "360p";
            Transcoder.bandwidth := Js.NaN |} ])
  = ["720p/playlist.m3u8"; "360p/playlist.m3u8"]%string.
Proof.
  destruct (@generateMasterPlaylist_lines
              [ {| Transcoder.resolution := "720p";
                   Transcoder.bandwidth := Js.Num 2800000 |};
                {| Transcoder.resolution := "360p";
                   Transcoder.bandwidth := Js.NaN |} ])
    as (_ & _ & H).
  - repeat constructor.
  - exact H.
Defined.

(** ** The signed deadline and the reported expiry *)

Section DeadlineFacts.
Import Js Regex VideoService Spec.
Local Open Scope Z_scope.
Variable w : World.
#[local] Arguments Z.mul : simpl never.
#[local] Arguments Z.add : simpl never.

(** X23.  A response of [generateUrl] that carries data carries the URL
    the signer returned for the resolved key and for the deadline computed
    from the signer's own clock reading, and that is the only call.  The
    reported [expiresAt] comes from a second clock reading: when
    [setSeconds] adds exactly the requested seconds, it lies after the
    signed deadline by exactly the time between the two readings. *)
Theorem reported_expiry_and_deadline (params : GenerateUrlRequest)
    (tr : list event) (resp : VideoResponse) (d : ResponseData) :
  generateUrl w params = (tr, Ok resp) -> data resp = Some d ->
  exists u,
    resolveUrl w (videoKey params) = Ok u
    /\ tr = [GetSignedUrl u (deadline w params)]
    /\ getSignedUrl w u (deadline w params) = Ok (url d)
    /\ (setSeconds w (signerClock w) (requested_expiry params)
        = signerClock w + 1000 * requested_expiry params ->
        expiresAt d - deadline w params = now w - signerClock w).
Proof.
  unfold generateUrl, deadline, requested_expiry.
  change 3600 with DEFAULT_EXPIRES_IN.
  generalize (match expiresIn params with
              | Some n => n
              | None => DEFAULT_EXPIRES_IN
              end).
  intros n.
  destruct (negb (isValidKey (videoKey params))).
  { unfold ret. intros [= <- <-]. discriminate. }
  unfold try_catch, bind, generateSignedUrl, lift, getExpiryDate, toISOString,
    ret.
  destruct (resolveUrl w (videoKey params)) as [u|]; simpl.
  2:{ intros [= <- <-]. discriminate. }
  destruct (Z.abs (setSeconds w (signerClock w) n) <=? MAX_TIME); simpl.
  2:{ intros [= <- <-]. discriminate. }
  destruct (getSignedUrl w u _) as [signed|] eqn:Hs; simpl.
  2:{ intros [= <- <-]. discriminate. }
  destruct (Z.abs (now w + n * 1000) <=? MAX_TIME); simpl.
  2:{ intros [= <- <-]. discriminate. }
  intros [= <- <-]. cbn [data]. intros [= <-].
  cbn [url expiresAt]. exists u.
  split; [reflexivity|]. split; [reflexivity|]. split; [exact Hs|].
  intros ->. lia.
Qed.
End DeadlineFacts.

(** Forty milliseconds between the readings: the response says the URL
    lives forty milliseconds longer than it does. *)
Lemma reported_expiry_and_deadline_witness :
  exists tr resp d,
    VideoService.generateUrl Spec.late_world
      {| VideoService.videoKey := "c1/hls/v/720p/playlist";
         VideoService.expiresIn := Some 60%Z |} = (tr, Js.Ok resp)
    /\ VideoService.data resp = Some d
    /\ (VideoService.expiresAt d
        - Spec.deadline Spec.late_world
            {| VideoService.videoKey := "c1/hls/v/720p/playlist";
               VideoService.expiresIn := Some 60%Z |} = 40)%Z.
Proof.
  eexists _, _, _. split; [vm_compute; reflexivity|].
  split; [reflexivity|].
  destruct (@reported_expiry_and_deadline Spec.late_world
              {| VideoService.videoKey := "c1/hls/v/720p/playlist";
                 VideoService.expiresIn := Some 60%Z |}
              _ _ _ eq_refl eq_refl) as (u & _ & _ & _ & H).
  exact (H eq_refl).
Defined.

(** ** Keys outside the dispatcher's pattern *)

Section KeyEdgeFacts.
Import Js Transcoder Spec.
Variables (w : World) (env : Env).

(** X24.  The transcoder derives its output location from any key.  The
    first segment of a key is ignored: the course identifier is the
    second segment whatever the first and the following ones are.  A key
    without separator has no second segment: the course identifier is
    undefined, the file name is the key without its extension, and every
    object the job uploads lies under [undefined/hls/]. *)
Theorem unvalidated_key_paths (key : string) :
  (forall first cid rest,
     all_chars (not_sep slash) first = true ->
     all_chars (not_sep slash) cid = true ->
     key = first +++ "/" +++ cid +++ "/" +++ rest ->
     courseId (generateS3Paths key) = Some cid)
  /\ (all_chars (not_sep slash) key = true ->
      let p := generateS3Paths key in
      courseId p = None
      /\ filename p = path_parse_name key
      /\ getMasterPlaylistKey p
         = "undefined/hls/" +++ path_parse_name key +++ "/master.m3u8"
      /\ forall ev k,
           In ev (all_events (processVideo w env key)) ->
           upload_key ev = Some k ->
           String.prefix "undefined/hls/" k = true).
Proof.
  split.
  - intros first cid rest Hf Hc ->. unfold generateS3Paths. cbv zeta.
    cbn [courseId].
    change (first +++ "/" +++ cid +++ "/" +++ rest)
      with (first +++ String slash (cid +++ String slash rest)).
    rewrite !split_head by assumption. reflexivity.
  - intros Hflat. cbv zeta.
    assert (Hp : generateS3Paths key
                 = {| courseId := None; filename := path_parse_name key |}).
    { unfold generateS3Paths. cbv zeta. rewrite (@split_no_sep _ _ Hflat).
      reflexivity. }
    rewrite Hp. cbn [courseId filename].
    split; [reflexivity|]. split; [reflexivity|]. split; [reflexivity|].
    intros ev k Hin Hup.
    pose proof (uploads_in_pipeline w env key) as Hu.
    rewrite Forall_forall in Hu. destruct (Hu ev Hin) as [_ Hk].
    specialize (Hk k Hup). rewrite Hp in Hk.
    destruct Hk as [->|(res & _ & file & ->)].
    + apply (prefix_append "undefined/hls/"
               (path_parse_name key +++ "/master.m3u8")).
    + apply (prefix_append "undefined/hls/"
               (path_parse_name key +++ "/" +++ name res +++ "/" +++ file)).
Qed.
End KeyEdgeFacts.

(** A flat key and a deep one. *)
Lemma unvalidated_key_paths_witness :
  Transcoder.getMasterPlaylistKey (Transcoder.generateS3Paths "lecture.mp4")
  = "undefined/hls/lecture/master.m3u8"%string
  /\ Transcoder.courseId
       (Transcoder.generateS3Paths "tmp/c1/raw/2024/lecture.mp4")
     = Some "c1"%string.
Proof.
  split.
  - destruct (unvalidated_key_paths Spec.fresh_world Spec.sample_env
                "lecture.mp4") as [_ H].
    destruct (H eq_refl) as (_ & _ & Hm & _). rewrite Hm. reflexivity.
  - destruct (unvalidated_key_paths Spec.fresh_world Spec.sample_env
                "tmp/c1/raw/2024/lecture.mp4") as [H _].
    apply (H "tmp"%string "c1"%string "raw/2024/lecture.mp4"%string);
      reflexivity.
Defined.

(** ** The MP4 revision of the pipeline *)

Section Mp4Facts.
Import Js TranscoderMp4 Spec.
Variables (w : World) (env : Transcoder.Env).

Lemma mp4_try_catch_rethrow {A} (m : M event A) :
  try_catch m (fun error => throw error) = m.
Proof.
  destruct m as [tr [a|e]]; cbn; [reflexivity|]. now rewrite app_nil_r.
Qed.

Lemma mp4_checkFileExists_cases bucket key :
  checkFileExists w bucket key
  = ([S3HeadObject bucket key],
     match head w bucket key with
     | None => Ok true
     | Some (Exn n m) =>
         if String.eqb n "NotFound" then Ok false else Throw (Exn n m)
     | Some ExnUndefined =>
         Throw (TypeError "Cannot read properties of undefined")
     end).
Proof.
  unfold checkFileExists, try_catch, bind, call, ret, throw.
  destruct (head w bucket key) as [[n m|]|]; cbn; [|reflexivity..].
  destruct (String.eqb n "NotFound"); reflexivity.
Qed.

(** X25.  A promise of the MP4 revision makes one, two or three calls,
    each at most once and in this order: the probe of the variant's
    destination key [courses/<courseId>/transcoded/<filename>/<name>.mp4],
    the encoding into [video-<filename>-<name>.mp4], and the upload of
    that file to that key.  It encodes exactly when the probe answers
    [NotFound], uploads exactly when it has encoded successfully, and
    resolves exactly when the file was already there or all three calls
    went through. *)
Theorem mp4_variant_calls (p : S3Paths) (original : string)
    (res : Resolution) :
  let m := processVariant w env p original res in
  let bucket := Transcoder.AWS_S3_PROD_BUCKET env in
  let key := getTranscodedKey p (name res) in
  let out := outputPath p res in
  let probe := S3HeadObject bucket key in
  let encode := Ffmpeg original out (width res) (height res) in
  let upload := S3PutObject out bucket key in
  (fst m = [probe] \/ fst m = [probe; encode]
   \/ fst m = [probe; encode; upload])
  /\ (In encode (fst m) <-> mp4_missing w env key)
  /\ (In upload (fst m) <-> mp4_missing w env key /\ transcode w out = None)
  /\ (snd m = Ok tt <->
      head w bucket key = None
      \/ (mp4_missing w env key /\ transcode w out = None
          /\ put w key = None)).
Proof.
  cbv zeta. unfold processVariant, mp4_missing. cbv zeta.
  rewrite mp4_try_catch_rethrow, mp4_checkFileExists_cases.
  unfold transcodeVideo, uploadToS3, call, bind, ret.
  destruct (head w _ _) as [[n msg|]|] eqn:Hh.
  - destruct (String.eqb n "NotFound") eqn:En.
    + apply String.eqb_eq in En. subst n.
      destruct (transcode w _) as [e1|] eqn:Ht; cbn.
      * split; [right; left; reflexivity|].
        split; [split; [eauto | intros _; right; left; reflexivity]|].
        split.
        -- split; [intros [H|[H|[]]]; discriminate H|].
           intros [_ H]. discriminate H.
        -- split; [discriminate|]. intros [H|(_ & H & _)]; discriminate H.
      * destruct (put w _) as [e2|] eqn:Hp; cbn.
        -- split; [right; right; reflexivity|].
           split; [split; [eauto | intros _; right; left; reflexivity]|].
           split.
           ++ split; [eauto | intros _; right; right; left; reflexivity].
           ++ split; [discriminate|].
              intros [H|(_ & _ & H)]; discriminate H.
        -- split; [right; right; reflexivity|].
           split; [split; [eauto | intros _; right; left; reflexivity]|].
           split.
           ++ split; [eauto | intros _; right; right; left; reflexivity].
           ++ split; [eauto | reflexivity].
    + assert (Hno : ~ exists msg0, Some (Exn n msg) = Some (Exn "NotFound" msg0)).
      { intros (msg0 & [= -> _]). discriminate En. }
      cbn. split; [left; reflexivity|].
      split; [split; [intros [H|[]]; discriminate H | intros H; now elim Hno]|].
      split.
      * split; [intros [H|[]]; discriminate H | intros [H _]; now elim Hno].
      * split; [discriminate|].
        intros [H|(H & _)]; [discriminate H | now elim Hno].
  - cbn. split; [left; reflexivity|].
    split; [split; [intros [H|[]]; discriminate H
                   | intros (msg0 & H); discriminate H]|].
    split.
    + split; [intros [H|[]]; discriminate H
             | intros [(msg0 & H) _]; discriminate H].
    + split; [discriminate|].
      intros [H|((msg0 & H) & _)]; discriminate H.
  - cbn. split; [left; reflexivity|].
    split; [split; [intros [H|[]]; discriminate H
                   | intros (msg0 & H); discriminate H]|].
    split.
    + split; [intros [H|[]]; discriminate H
             | intros [(msg0 & H) _]; discriminate H].
    + split; [auto | reflexivity].
Qed.

Lemma promise_all_ok_iff {A} (rs : list (result A)) :
  (exists l, promise_all rs = Ok l) <-> forall r, In r rs -> exists a, r = Ok a.
Proof.
  induction rs as [|[a|e] rs IH]; cbn.
  - split; [intros _ r [] | eauto].
  - split.
    + intros [l Hl]. destruct (promise_all rs) as [l'|e'] eqn:E;
        [|discriminate].
      intros r [<-|Hin]; [eauto|]. apply IH; eauto.
    + intros H. destruct (proj2 IH) as [l' ->]; [auto|]. eauto.
  - split; [intros [l Hl]; discriminate|].
    intros H. destruct (H (Throw e) (or_introl eq_refl)) as [a Ha].
    discriminate.
Qed.

(** X26.  The cleanup of the MP4 revision.  When the download fails the
    run makes no further call.  When it goes through, the run starts one
    promise per configured resolution, and whatever these do, the
    [finally] block unlinks the downloaded source and then the output file
    of every resolution, in order, the skipped and the failed ones
    included; the run returns [true] exactly when every promise resolved,
    whatever the unlink calls answer. *)
Theorem mp4_run_cleanup (sourceKey : string) :
  let r := processVideo w env sourceKey in
  let p := generateS3Paths sourceKey in
  let download :=
    downloadFromS3 w env (Transcoder.AWS_S3_TEMP_BUCKET env) sourceKey in
  before r = fst download
  /\ (forall e, snd download = Throw e ->
      returned r = Throw e /\ fanout r = [] /\ after r = [])
  /\ (forall original, snd download = Ok original ->
      original
      = Transcoder.cwd env +++ "/" +++ "original-" +++ path_basename sourceKey
      /\ fanout r = map (fun res => fst (processVariant w env p original res))
                        RESOLUTIONS
      /\ after r
         = cleanupFiles w
             [original;
              "video-" +++ filename p +++ "-1080p.mp4";
              "video-" +++ filename p +++ "-720p.mp4";
              "video-" +++ filename p +++ "-480p.mp4";
              "video-" +++ filename p +++ "-360p.mp4"]
      /\ (returned r = Ok true <->
          forall res, In res RESOLUTIONS ->
                      snd (processVariant w env p original res) = Ok tt)
      /\ returned r <> Ok false).
Proof.
  cbv zeta. unfold processVideo.
  destruct (downloadFromS3 w env _ sourceKey) as [tr [original|e]] eqn:Ed;
    cbn [fst snd before fanout after returned].
  - split; [reflexivity|]. split; [discriminate|].
    intros original' [= <-]. split.
    { revert Ed. unfold downloadFromS3, call, bind, ret,
        Transcoder.path_resolve.
      destruct (getObject w); cbn; [discriminate|].
      destruct (writeFile w _); cbn; [discriminate|].
      intros [= _ <-]. reflexivity. }
    split; [now rewrite map_map|]. split; [reflexivity|].
    pose proof (promise_all_ok_iff
                  (map snd (map (processVariant w env
                                   (generateS3Paths sourceKey) original)
                                RESOLUTIONS))) as Hall.
    destruct (promise_all _) as [l|e].
    + split; [|discriminate]. split; [|reflexivity].
      intros _ res Hres.
      destruct (proj1 Hall (ex_intro _ l eq_refl)
                  (snd (processVariant w env (generateS3Paths sourceKey)
                          original res))) as [[] Hok]; [|exact Hok].
      apply in_map. apply in_map. exact Hres.
    + split; [|discriminate]. split; [discriminate|].
      intros Hok. destruct (proj2 Hall) as [l Hl]; [|discriminate Hl].
      intros r Hin. apply in_map_iff in Hin as (m & <- & Hm).
      apply in_map_iff in Hm as (res & <- & Hres).
      exists tt. now apply Hok.
  - split; [reflexivity|]. split; [|discriminate].
    intros e' [= <-]. auto.
Qed.
End Mp4Facts.

(** The encoding of 480p fails: that promise probes and encodes, the one
    of 720p also uploads, the run fails, and five files are unlinked. *)
Lemma mp4_variant_calls_witness :
  fst (TranscoderMp4.processVariant Spec.mp4_world Spec.sample_env
         (TranscoderMp4.generateS3Paths Spec.sample_key) "/app/original-v.mp4"
         {| TranscoderMp4.name := "720p"; TranscoderMp4.width := 1280;
            TranscoderMp4.height := 720 |})
  = [TranscoderMp4.S3HeadObject "streams"
       "courses/c1/transcoded/v/720p.mp4";
     TranscoderMp4.Ffmpeg "/app/original-v.mp4" "video-v-720p.mp4" 1280 720;
     TranscoderMp4.S3PutObject "video-v-720p.mp4" "streams"
       "courses/c1/transcoded/v/720p.mp4"]
  /\ In (TranscoderMp4.S3PutObject "video-v-720p.mp4" "streams"
           "courses/c1/transcoded/v/720p.mp4")
        (fst (TranscoderMp4.processVariant Spec.mp4_world Spec.sample_env
                (TranscoderMp4.generateS3Paths Spec.sample_key)
                "/app/original-v.mp4"
                {| TranscoderMp4.name := "720p"; TranscoderMp4.width := 1280;
                   TranscoderMp4.height := 720 |})).
Proof.
  destruct (mp4_variant_calls Spec.mp4_world Spec.sample_env
              (TranscoderMp4.generateS3Paths Spec.sample_key)
              "/app/original-v.mp4"
              {| TranscoderMp4.name := "720p"; TranscoderMp4.width := 1280;
                 TranscoderMp4.height := 720 |}) as (_ & _ & Hup & _).
  split; [reflexivity|]. apply Hup. split; [|reflexivity].
  exists "NotFound"%string. reflexivity.
Defined.

Lemma mp4_run_cleanup_witness :
  let r := TranscoderMp4.processVideo Spec.mp4_world Spec.sample_env
             Spec.sample_key in
  TranscoderMp4.returned r = Js.Throw (Js.Error "ffmpeg exited with code 1")
  /\ TranscoderMp4.after r
     = [TranscoderMp4.Unlink "/app/original-v.mp4" true;
        TranscoderMp4.Unlink "video-v-1080p.mp4" true;
        TranscoderMp4.Unlink "video-v-720p.mp4" true;
        TranscoderMp4.Unlink "video-v-480p.mp4" true;
        TranscoderMp4.Unlink "video-v-360p.mp4" true].
Proof.
  cbv zeta. split; [vm_compute; reflexivity|].
  destruct (mp4_run_cleanup Spec.mp4_world Spec.sample_env Spec.sample_key)
    as (_ & _ & H).
  destruct (H "/app/original-v.mp4"%string) as (_ & _ & Hafter & _);
    [vm_compute; reflexivity|].
  rewrite Hafter. vm_compute. reflexivity.
Defined.

(** ** The two revisions side by side *)

Section RevisionFacts.
Import Js Spec.

(** X27.  The MP4 revision's start-up check passes exactly when its three
    variables are set to non-empty strings, so every environment the HLS
    revision accepts is accepted by it as well.  The three variables the
    dispatcher overrides for a task are exactly those three: alone they
    start the MP4 revision, while the HLS revision stops with
    [AWS_REGION] missing. *)
Theorem revision_environments (penv : environment) :
  (TranscoderMp4.validateEnvironment penv = Ok tt
   <-> all_set TranscoderMp4.requiredEnvVars penv)
  /\ (Transcoder.validateEnvironment penv = Ok tt ->
      TranscoderMp4.validateEnvironment penv = Ok tt)
  /\ (forall bucketName prodBucket objectKey,
      bucketName <> ""%string -> prodBucket <> ""%string ->
      objectKey <> ""%string ->
      TranscoderMp4.validateEnvironment
        (override_env bucketName prodBucket objectKey) = Ok tt
      /\ Transcoder.validateEnvironment
           (override_env bucketName prodBucket objectKey)
         = Throw (Error "Missing required environment variables: AWS_REGION")).
Proof.
  assert (H1 : TranscoderMp4.validateEnvironment penv = Ok tt
               <-> all_set TranscoderMp4.requiredEnvVars penv).
  { unfold TranscoderMp4.validateEnvironment. cbv zeta.
    fold (missing_of TranscoderMp4.requiredEnvVars penv).
    rewrite <- missing_of_nil.
    destruct (missing_of TranscoderMp4.requiredEnvVars penv); cbn;
      split; congruence. }
  split; [exact H1|]. split.
  - intros Hv. apply H1. intros name Hin.
    assert (Hall : all_set Transcoder.requiredEnvVars penv).
    { apply missing_of_nil. revert Hv. unfold Transcoder.validateEnvironment.
      cbv zeta. fold (missing_of Transcoder.requiredEnvVars penv).
      destruct (missing_of Transcoder.requiredEnvVars penv); cbn;
        [reflexivity | discriminate]. }
    apply Hall. cbn in Hin |- *. tauto.
  - intros b p k Hb Hp Hk.
    destruct b as [|cb b]; [now elim Hb|].
    destruct p as [|cp p]; [now elim Hp|].
    destruct k as [|ck k]; [now elim Hk|].
    split; reflexivity.
Qed.
End RevisionFacts.

Lemma revision_environments_witness :
  TranscoderMp4.validateEnvironment
    (Spec.override_env "uploads" "streams" Spec.sample_key) = Js.Ok tt
  /\ Transcoder.validateEnvironment
       (Spec.override_env "uploads" "streams" Spec.sample_key)
     = Js.Throw (Js.Error "Missing required environment variables: AWS_REGION")
  /\ TranscoderMp4.validateEnvironment Spec.task_env = Js.Ok tt.
Proof.
  destruct (revision_environments
              (Spec.override_env "uploads" "streams" Spec.sample_key))
    as (_ & _ & H).
  destruct (H "uploads"%string "streams"%string Spec.sample_key)
    as [H1 H2]; try discriminate.
  split; [exact H1|]. split; [exact H2|].
  apply (revision_environments Spec.task_env). reflexivity.
Defined.

Section LegacyRouteFacts.
Import Js VideoService Routes Spec.
Local Open Scope Z_scope.
Variable w : World.

Lemma generateSignedUrl_request (v : World) (params : GenerateUrlRequest) :
  let m := generateSignedUrl v (VideoService.videoKey params)
             (requested_expiry params) in
  (forall url signed, signs_request v params url signed ->
     m = ([GetSignedUrl url (deadline v params)], Ok signed))
  /\ (forall signed, snd m = Ok signed ->
      exists url, signs_request v params url signed)
  /\ (length (fst m) <= 1)%nat.
Proof.
  unfold generateSignedUrl, signs_request, deadline, lift, bind, toISOString.
  cbv zeta. split; [|split].
  - intros url signed (-> & Hle & Hs). apply Z.leb_le in Hle. rewrite Hle.
    cbn. rewrite Hs. reflexivity.
  - intros signed.
    destruct (resolveUrl v (VideoService.videoKey params)) as [url|e];
      [|discriminate].
    destruct (Z.abs _ <=? MAX_TIME) eqn:Hle; [|discriminate].
    cbn. intros Hs. exists url. apply Z.leb_le in Hle. auto.
  - destruct (resolveUrl v (VideoService.videoKey params)) as [url|e];
      [|cbn; lia].
    destruct (Z.abs _ <=? MAX_TIME); cbn; lia.
Qed.

(** X28.  The first revision of [POST /generate] never throws and asks
    the signer at most once, whatever [videoKey] and [expiresIn] the body
    holds.  It answers 400 exactly when [videoKey] is falsy.  Any other
    value is converted to a string and handed to the signer unchecked,
    with the requested validity (one hour when none is given): when the
    signing goes through the answer is 200 with the signed URL, otherwise
    500; a value that cannot be converted is answered with 500 and nothing
    is signed.  So a key with a character outside the alphabet of the
    later revision, which that revision refuses without signing, is signed
    here; and a truthy value that is not a string, on which the later
    revision throws, is answered. *)
Theorem legacy_post_generate_status (videoKey : Consumer.jsval)
    (expiresIn : option Z) :
  let m := legacy_post_generate w videoKey expiresIn in
  let request key :=
    {| VideoService.videoKey := key; VideoService.expiresIn := expiresIn |} in
  (exists resp, snd m = Ok resp)
  /\ (length (fst m) <= 1)%nat
  /\ (logical_not videoKey = true <->
      exists resp, snd m = Ok resp /\ legacy_status resp = 400)
  /\ (logical_not videoKey = true -> fst m = [])
  /\ (forall v key url signed,
      videoKey = Some v -> logical_not videoKey = false ->
      coerce v = Ok key -> signs_request w (request key) url signed ->
      m = ([GetSignedUrl url (deadline w (request key))],
           Ok {| legacy_status := 200; legacy_body := LegacyUrl signed |})
      /\ (v = Consumer.JStr key -> has_foreign_char key ->
          post_generate w videoKey expiresIn
          = ([], Ok {| status := 500;
                       body := JsonUrl invalid_key_response |}))
      /\ (v <> Consumer.JStr key ->
          post_generate w videoKey expiresIn
          = ([], Throw (TypeError "key.match is not a function"))))
  /\ (forall v key,
      videoKey = Some v -> logical_not videoKey = false ->
      coerce v = Ok key ->
      (forall url signed, ~ signs_request w (request key) url signed) ->
      snd m = Ok {| legacy_status := 500;
                    legacy_body :=
                      LegacyError "Failed to generate signed URL" |})
  /\ (forall v e,
      videoKey = Some v -> logical_not videoKey = false ->
      coerce v = Throw e ->
      m = ([], Ok {| legacy_status := 500;
                     legacy_body :=
                       LegacyError "Failed to generate signed URL" |})).
Proof.
  cbv zeta. unfold legacy_post_generate.
  destruct (logical_not videoKey) eqn:Hn.
  - cbn. split; [eexists; reflexivity|]. split; [lia|]. split.
    { split; [intros _; eexists; split; reflexivity | reflexivity]. }
    split; [reflexivity|].
    repeat split; intros; discriminate.
  - destruct videoKey as [v|]; [|discriminate Hn].
    destruct (coerce v) as [key|e0] eqn:Ec.
    + destruct (generateSignedUrl_request w
                  {| VideoService.videoKey := key;
                     VideoService.expiresIn := expiresIn |})
        as (Hok & Hinv & Hlen).
      cbv zeta in Hok, Hinv, Hlen.
      unfold requested_expiry in Hok, Hinv, Hlen.
      cbn [VideoService.videoKey VideoService.expiresIn] in Hok, Hinv, Hlen.
      assert (Hret : forall (A B : Type) (a : A) (f : A -> M event B),
                bind (lift (Ok a)) f = f a).
      { intros A B a f. cbn. now destruct (f a). }
      rewrite Hret.
      destruct (generateSignedUrl w key _) as [tr [signed|e]] eqn:Eg;
        cbn [fst snd] in *;
        cbn [bind ret try_catch fst snd app]; rewrite ?app_nil_r.
      * split; [eexists; reflexivity|]. split; [exact Hlen|]. split.
        { split; [discriminate|]. intros (resp & [= <-] & H). discriminate H. }
        split; [discriminate|]. split; [|split].
        -- intros v' key' url signed' [= <-] _ Hc Hs.
           rewrite Ec in Hc. injection Hc as <-. split; [|split].
           ++ specialize (Hok url signed' Hs). injection Hok as -> ->.
              reflexivity.
           ++ intros -> Hf. unfold post_generate. rewrite Hn.
              unfold generateUrl. cbn [VideoService.videoKey].
              rewrite (foreign_char_invalid Hf). reflexivity.
           ++ intros Hv. unfold post_generate. rewrite Hn.
              destruct v as [|[]|text|s|items|props]; try reflexivity.
              cbn in Ec. injection Ec as ->. now elim Hv.
        -- intros v' key' [= <-] _ Hc Hno.
           rewrite Ec in Hc. injection Hc as <-.
           destruct (Hinv signed eq_refl) as [url Hs].
           now elim (Hno url signed).
        -- intros v' e [= <-] _ H. rewrite Ec in H. discriminate H.
      * split; [eexists; reflexivity|]. split; [exact Hlen|]. split.
        { split; [discriminate|]. intros (resp & [= <-] & H). discriminate H. }
        split; [discriminate|]. split; [|split].
        -- intros v' key' url signed [= <-] _ Hc Hs.
           rewrite Ec in Hc. injection Hc as <-.
           specialize (Hok url signed Hs). discriminate Hok.
        -- intros v' key' [= <-] _ _ _. reflexivity.
        -- intros v' e' [= <-] _ H. rewrite Ec in H. discriminate H.
    + cbn. split; [eexists; reflexivity|]. split; [lia|]. split.
      { split; [discriminate|]. intros (resp & [= <-] & H). discriminate H. }
      split; [discriminate|]. split; [|split].
      * intros v' key url signed [= <-] _ H. rewrite Ec in H. discriminate H.
      * intros v' key [= <-] _ H. rewrite Ec in H. discriminate H.
      * intros v' e [= <-] _ _. reflexivity.
Qed.
End LegacyRouteFacts.

(** The master playlist key of the sample job: signed by the first
    revision, refused by the later one. *)
Lemma legacy_post_generate_status_witness :
  Routes.legacy_post_generate Spec.signing_world
    (Some (Consumer.JStr "c1/hls/v/master.m3u8")) (Some 60%Z)
  = ([VideoService.GetSignedUrl "https://cdn.example.com/c1/hls/v/master.m3u8"
        1700000060003],
     Js.Ok {| Routes.legacy_status := 200;
              Routes.legacy_body :=
                Routes.LegacyUrl
                  "https://cdn.example.com/c1/hls/v/master.m3u8?Signature=s" |})
  /\ Routes.post_generate Spec.signing_world
       (Some (Consumer.JStr "c1/hls/v/master.m3u8")) (Some 60%Z)
     = ([], Js.Ok {| Routes.status := 500;
                     Routes.body := Routes.JsonUrl Spec.invalid_key_response |}).
Proof.
  destruct (legacy_post_generate_status Spec.signing_world
              (Some (Consumer.JStr "c1/hls/v/master.m3u8")) (Some 60%Z))
    as (_ & _ & _ & _ & H & _).
  destruct (H (Consumer.JStr "c1/hls/v/master.m3u8")
              "c1/hls/v/master.m3u8"%string
              "https://cdn.example.com/c1/hls/v/master.m3u8"%string
              "https://cdn.example.com/c1/hls/v/master.m3u8?Signature=s"%string
              eq_refl eq_refl eq_refl) as (H1 & H2 & _).
  - repeat split. vm_compute. discriminate.
  - split; [exact H1|]. apply H2; [reflexivity|].
    exists "."%char. split; [cbn; tauto | reflexivity].
Defined.

(** ** Failures before and after the variants *)

Section FailureFacts.
Import Js Transcoder Spec.
Variables (w : World) (env : Env).

Lemma downloadFromS3_setup bucket key :
  Forall setup_event (fst (downloadFromS3 w env bucket key)).
Proof.
  apply withRetry_pauses; [|exact I | exact I].
  intros k. destruct (download w k); cbn; repeat constructor.
Qed.

Lemma downloadFromS3_ok_downloadable bucket key path :
  snd (downloadFromS3 w env bucket key) = Ok path -> downloadable w.
Proof.
  unfold downloadFromS3, withRetry, Retry.withRetry, downloadable.
  intros Hok. apply withRetry_loop_ok_inv in Hok as (k & Hk & _ & Hok).
  apply downloadFromS3_closure in Hok as [(size & Hs & Hne) _].
  exists k, size. unfold CONFIG_MAX_RETRIES in Hk.
  repeat split; [lia | lia | assumption | assumption].
Qed.

Lemma for_each_throw {A} (xs : list A) (body : A -> M event unit) :
  (exists x e, In x xs /\ snd (body x) = Throw e) ->
  exists e, snd (for_each xs body) = Throw e.
Proof.
  induction xs as [|y xs IH]; intros (x & e & Hin & Hx); [destruct Hin|].
  cbn [for_each]. unfold bind.
  destruct (body y) as [tr [[]|e0]] eqn:Ey; [|cbn; eauto].
  destruct Hin as [->|Hin]; [rewrite Ey in Hx; discriminate Hx|].
  destruct IH as [e1 He1]; [eauto|].
  destruct (for_each xs body) as [tr' r']. cbn in He1 |- *. eauto.
Qed.

Lemma mkdirs_setup workDir :
  Forall setup_event
    (fst (for_each RESOLUTIONS (fun resolution =>
            fs_call (Mkdir (workDir +++ "/" +++ name resolution))
                    (mkdir w (workDir +++ "/" +++ name resolution))))).
Proof.
  apply for_each_Forall. intros res _. cbn. repeat constructor.
Qed.

(** The sequential part stops at the download or at the directories. *)
Lemma start_stops_early sourceKey workDir :
  ~ downloadable w \/ mkdir_fails w workDir ->
  (exists e, snd (processVideo_start w env sourceKey workDir) = Throw e)
  /\ Forall setup_event (fst (processVideo_start w env sourceKey workDir)).
Proof.
  intros Hearly. unfold processVideo_start.
  pose proof (downloadFromS3_setup (AWS_S3_TEMP_BUCKET env) sourceKey) as Hdl.
  pose proof (@downloadFromS3_ok_downloadable (AWS_S3_TEMP_BUCKET env)
                sourceKey) as Hok.
  destruct (downloadFromS3 w env _ sourceKey) as [tr [path|e]];
    cbn [fst snd] in *; [|cbn; eauto].
  destruct Hearly as [Hno|(res & e & Hres & Hmk)];
    [now elim Hno; apply (Hok path)|].
  pose proof (mkdirs_setup workDir) as Hdirs.
  destruct (@for_each_throw _ RESOLUTIONS
              (fun resolution =>
                 fs_call (Mkdir (workDir +++ "/" +++ name resolution))
                         (mkdir w (workDir +++ "/" +++ name resolution))))
    as [e' He'].
  { exists res, e. split; [exact Hres|]. unfold fs_call, call.
    rewrite Hmk. reflexivity. }
  unfold bind at 1.
  destruct (for_each RESOLUTIONS _) as [tr' r']. cbn [fst snd] in *.
  subst r'. cbn. split; [eauto|]. apply Forall_app. auto.
Qed.

(** X29.  A job whose download does not bring a non-empty file within
    three attempts, or one of whose output directories cannot be created,
    fails before anything is encoded, when it ends at all: its calls are
    then those of the workspace, the download and the directories, then
    the removal of the workspace; there is no fan-out, no encoder call and
    no upload.  A job stalls exactly when its download never settles; it
    has then called the workspace and the download only: no directory is
    created, nothing is encoded or uploaded, and the workspace is not
    removed. *)
Theorem early_failures_abort (body_fails : nat -> bool)
    (sourceKey suffix : string) :
  let j := processVideo_job w env body_fails sourceKey in
  let download :=
    downloadFromS3_settlement w env body_fails (AWS_S3_TEMP_BUCKET env)
      sourceKey in
  let workDir := CONFIG_TEMP_DIR_PREFIX +++ suffix in
  mkdtemp w = Ok suffix ->
  (~ downloadable w \/ mkdir_fails w workDir ->
   forall r, j = Finished r ->
     (exists e, returned r = Throw e)
     /\ Forall setup_event (before r)
     /\ fanout r = []
     /\ after r = cleanup w workDir
     /\ filter is_encoder_call (all_events r) = []
     /\ filter is_upload (all_events r) = [])
  /\ ((exists calls, j = Stalled calls) <-> snd download = Unsettled)
  /\ (forall calls, j = Stalled calls ->
      calls = Mkdtemp workDir :: fst download
      /\ Forall setup_event calls
      /\ filter is_encoder_call calls = []
      /\ filter is_upload calls = []
      /\ (forall path ok, ~ In (Mkdir path ok) calls)
      /\ (forall path ok, ~ In (Rm path ok) calls)).
Proof.
  cbv zeta. intros Hmk.
  assert (Hnone : forall tr, Forall setup_event tr ->
            filter is_encoder_call tr = [] /\ filter is_upload tr = []).
  { induction 1 as [|ev tr Hev _ [IH1 IH2]]; [split; reflexivity|].
    destruct ev; try destruct Hev; cbn [filter is_encoder_call encoder_call
      is_upload]; auto. }
  split; [|split].
  - intros Hearly r Hj.
    assert (Hr : r = processVideo w env sourceKey).
    { unfold processVideo_job in Hj. rewrite Hmk in Hj.
      destruct (downloadFromS3_settlement w env body_fails _ sourceKey)
        as [trd [res|]]; [now injection Hj as <- | discriminate Hj]. }
    subst r. clear Hj.
    destruct (start_stops_early sourceKey Hearly) as [[e He] Hsetup].
    assert (Hrun : processVideo w env sourceKey
                   = {| before := Mkdtemp (CONFIG_TEMP_DIR_PREFIX +++ suffix)
                                    :: fst (processVideo_start w env sourceKey
                                              (CONFIG_TEMP_DIR_PREFIX +++ suffix));
                        fanout := [];
                        after := cleanup w (CONFIG_TEMP_DIR_PREFIX +++ suffix);
                        returned := Throw e |}).
    { unfold processVideo. rewrite Hmk.
      destruct (processVideo_start w env sourceKey _) as [tr r].
      cbn [fst snd] in *. now subst r. }
    rewrite Hrun. cbn [before fanout after returned].
    assert (Hb : Forall setup_event
                   (Mkdtemp (CONFIG_TEMP_DIR_PREFIX +++ suffix)
                    :: fst (processVideo_start w env sourceKey
                              (CONFIG_TEMP_DIR_PREFIX +++ suffix))))
      by (constructor; [exact I | exact Hsetup]).
    split; [eauto|]. split; [exact Hb|]. split; [reflexivity|].
    split; [reflexivity|].
    destruct (Hnone _ Hb) as [H1 H2].
    unfold all_events. cbn [before fanout after concat].
    rewrite !filter_app, H1, H2. split; reflexivity.
  - unfold processVideo_job. rewrite Hmk.
    destruct (downloadFromS3_settlement w env body_fails _ sourceKey)
      as [trd [res|]]; cbn [snd].
    + split; [intros [calls H]; discriminate H | discriminate].
    + split; [reflexivity | intros _; eauto].
  - intros calls Hj. unfold processVideo_job in Hj. rewrite Hmk in Hj.
    pose proof (@downloadFromS3_settlement_events w env
                  (fun ev => match ev with
                             | S3GetObject _ _ | CreateWriteStream _ _
                             | Stat _ | Sleep _ => True
                             | _ => False
                             end) body_fails
                  (AWS_S3_TEMP_BUCKET env) sourceKey
                  (fun _ _ => I) (fun _ _ => I) (fun _ => I) I I) as Hdl.
    destruct (downloadFromS3_settlement w env body_fails _ sourceKey)
      as [trd [res|]]; [discriminate Hj|]. injection Hj as <-.
    cbn [fst] in *.
    assert (Hb : Forall setup_event
                   (Mkdtemp (CONFIG_TEMP_DIR_PREFIX +++ suffix) :: trd)).
    { constructor; [exact I|]. eapply Forall_impl; [|exact Hdl].
      intros ev. now destruct ev. }
    destruct (Hnone _ Hb) as [H1 H2]. rewrite Forall_forall in Hdl.
    repeat split; try assumption;
      intros path ok [H|H]; try discriminate H; exact (Hdl _ H).
Qed.

(** X30.  Nothing is taken back when the master playlist fails.  When
    every promise of the fan-out has resolved, the run's fan-out is their
    calls, uploads included; if then the playlist cannot be written the
    run fails with that error without any put after the join, and if it
    is written but its three puts fail the run fails with the error of
    the third: the variants stay in the destination without a master
    playlist. *)
Theorem master_failure_keeps_variants (sourceKey suffix path : string) :
  let r := processVideo w env sourceKey in
  let p := generateS3Paths sourceKey in
  let workDir := CONFIG_TEMP_DIR_PREFIX +++ suffix in
  let file := workDir +++ "/master.m3u8" in
  let write ok := WriteFile file (generateMasterPlaylist masterVariants) ok in
  let put := S3PutObject file (AWS_S3_PROD_BUCKET env)
               (getMasterPlaylistKey p) default_contentType in
  mkdtemp w = Ok suffix ->
  snd (processVideo_start w env sourceKey workDir) = Ok path ->
  (forall res, In res remainingResolutions ->
     snd (processVariant w env p path workDir res) = Ok tt) ->
  fanout r = map (fun res => fst (processVariant w env p path workDir res))
                 remainingResolutions
  /\ (forall e, writeFile w file = Some e ->
      returned r = Throw e
      /\ after r = write false :: cleanup w workDir)
  /\ (forall e1 e2 e3,
      writeFile w file = None ->
      Transcoder.put w (getMasterPlaylistKey p) 1 = Some e1 ->
      Transcoder.put w (getMasterPlaylistKey p) 2 = Some e2 ->
      Transcoder.put w (getMasterPlaylistKey p) 3 = Some e3 ->
      returned r = Throw e3
      /\ after r = [write true; put; Sleep 1000; put; Sleep 2000; put]
                   ++ cleanup w workDir).
Proof.
  cbv zeta. intros Hmk Hstart Hall. unfold processVideo. rewrite Hmk.
  destruct (processVideo_start w env sourceKey _) as [tr [path'|e0]];
    cbn [snd] in Hstart; [|discriminate]. injection Hstart as ->.
  destruct (promise_all_ok_iff
              (map snd (map (processVariant w env (generateS3Paths sourceKey)
                               path (CONFIG_TEMP_DIR_PREFIX +++ suffix))
                            remainingResolutions))) as [_ Hok].
  destruct Hok as [l ->].
  { intros r Hin. apply in_map_iff in Hin as (m & <- & Hm).
    apply in_map_iff in Hm as (res & <- & Hres). exists tt. now apply Hall. }
  unfold processVideo_finish. cbv zeta. unfold fs_call, call.
  split.
  { destruct (bind _ _) as [tr' r']. cbn [fanout]. now rewrite map_map. }
  split.
  - intros e ->. cbn. auto.
  - intros e1 e2 e3 -> H1 H2 H3.
    unfold uploadToS3, withRetry, Retry.withRetry, CONFIG_MAX_RETRIES, call.
    cbn [Retry.withRetry_loop Nat.eqb]. rewrite H1, H2, H3. cbn. auto.
Qed.
End FailureFacts.

(** One directory cannot be created: the job stops after the download. *)
Lemma early_failures_abort_witness :
  let r := Transcoder.processVideo Spec.readonly_world Spec.sample_env
             Spec.sample_key in
  Transcoder.processVideo_job Spec.readonly_world Spec.sample_env
    Spec.sound_bodies Spec.sample_key = Transcoder.Finished r
  /\ Transcoder.returned r = Js.Throw (Js.Exn "EACCES" "permission denied")
  /\ filter Transcoder.is_encoder_call (Transcoder.all_events r) = []
  /\ filter Transcoder.is_upload (Transcoder.all_events r) = []
  /\ Transcoder.processVideo_job Spec.retried_download_world Spec.sample_env
       Spec.second_body_fails Spec.sample_key
     = Transcoder.Stalled
         [Transcoder.Mkdtemp "hls-a1B2c3";
          Transcoder.S3GetObject "uploads" Spec.sample_key;
          Transcoder.Sleep 1000;
          Transcoder.S3GetObject "uploads" Spec.sample_key;
          Transcoder.CreateWriteStream "original-v.mp4" true].
Proof.
  cbv zeta. split; [vm_compute; reflexivity|].
  split; [vm_compute; reflexivity|].
  destruct (@early_failures_abort Spec.readonly_world Spec.sample_env
              Spec.sound_bodies Spec.sample_key "a1B2c3" eq_refl)
    as (Hfin & _ & _).
  destruct (Hfin (or_intror
                    (ex_intro _ Transcoder.res_480p
                       (ex_intro _ (Js.Exn "EACCES" "permission denied")
                          (conj (or_intror (or_intror (or_introl eq_refl)))
                                eq_refl))))
              _ eq_refl)
    as (_ & _ & _ & _ & He & Hu).
  split; [exact He|]. split; [exact Hu|].
  destruct (@early_failures_abort Spec.retried_download_world Spec.sample_env
              Spec.second_body_fails Spec.sample_key "a1B2c3" eq_refl)
    as (_ & Hiff & _).
  destruct (proj2 Hiff eq_refl) as [calls Hc]. rewrite Hc.
  revert Hc. vm_compute. intros [= <-]. reflexivity.
Defined.

(** The variants were there already, and the disk is full at the end. *)
Lemma master_failure_keeps_variants_witness :
  let r := Transcoder.processVideo Spec.disk_full_world Spec.sample_env
             Spec.sample_key in
  Transcoder.returned r = Js.Throw (Js.Exn "ENOSPC" "no space left")
  /\ map Transcoder.upload_key
         (filter Transcoder.is_upload (Transcoder.after r)) = [].
Proof.
  cbv zeta.
  destruct (@master_failure_keeps_variants Spec.disk_full_world
              Spec.sample_env Spec.sample_key "a1B2c3" "/app/original-v.mp4"
              eq_refl) as (_ & Hw & _).
  - vm_compute. reflexivity.
  - intros res _. reflexivity.
  - destruct (Hw (Js.Exn "ENOSPC" "no space left") eq_refl) as [Hr Ha].
    split; [exact Hr|]. rewrite Ha. reflexivity.
Defined.
